(** * Resource cache and batch loader (src/index.ts)

    A shallow embedding of the module's five globals ([_onProgress],
    [_onError], [_loaders], [_resources], [_pending]) and of its exported
    functions, together with the part of the JavaScript run time the
    functions talk to:

    - loader classes are numbers, [new loaderType()] allocates the next
      object of the table [instances] (object identity = index);
    - [loader.load(path, onSuccess, onProgress, onError)] is asynchronous:
      the call only records an operation in the table [ops]; the loader
      later fires the success or the error callback of an operation that is
      still in flight ([on_success], [on_error]), once;
    - promises live in the table [promises]; [resolve] on a promise that is
      already settled does nothing; the executor of the source only ever
      takes [resolve], the state [Rejected] is there to be excluded;
      micro-task delays of [async]/[Promise.all] are not modelled;
    - the closure variables of one [loadPending] call ([promises],
      [onProgress], [onError], [total], [progress]) are a record of the
      table [batches];
    - user callbacks are opaque: calling one appends an event to [trace]
      (in time order) and does not re-enter the module; an event carries
      the batch or the operation whose handler made the call;
    - [progress / total] is kept as the pair of its operands; [Qratio]
      reads it as a rational number. *)

From Stdlib Require Import QArith.
From stdpp Require Import gmap strings list fin_maps.

Set Default Proof Using "Type".
Set Warnings "-clear-no-such-hyp".
Open Scope nat_scope.

(** ** Data model *)

(** JavaScript values that flow through the cache. *)
#[warnings="-register-all"]
Inductive value :=
| VUndefined
| VNull
| VObj (n : nat)
| VArray (l : list value).

(** [v ?? d] and [v == null] look at this. *)
Definition is_nullish (v : value) : bool :=
  match v with VUndefined | VNull => true | _ => false end.

Definition LoaderType := nat.
Definition Loader := nat.
Definition callback := nat.
Definition promise := nat.

(** [a ?? b] on optional callbacks ([null]/[undefined] is [None]). *)
Definition nullish_or {A} (a b : option A) : option A :=
  match a with Some x => Some x | None => b end.

Record LoadingConfig := {
  cfg_onProgress : option callback;
  cfg_onError : option callback }.

(** [string | ResourceConfig] *)
Inductive resource_item :=
| RPath (path : string)
| RConfig (path : string) (onLoad : option callback).

(** [(res as ResourceConfig).path ?? res as string] *)
Definition item_path (res : resource_item) : string :=
  match res with RPath p => p | RConfig p _ => p end.

(** [(res as ResourceConfig).onLoad] *)
Definition item_onLoad (res : resource_item) : option callback :=
  match res with RPath _ => None | RConfig _ f => f end.

Record Resource := {
  loader : LoaderType;
  paths : list resource_item }.

Inductive pstate :=
| Pending
| Fulfilled (v : value)
| Rejected (e : value).

Inductive op_status :=
| InFlight
| Succeeded (result : value)
| Failed (e : value).

(** The two pairs of callbacks handed to [loader.load]: the ones of [load]
    (lines 59-66) and the ones of [_createPromise] (lines 112-122). *)
Inductive kont :=
| KLoad (onError : option callback)
| KBatch (batch : nat) (onLoad : option callback).

(** One call of [loader.load]. *)
Record op := {
  op_loader : Loader;
  op_path : string;
  op_onProgress : option callback;
  op_kont : kont;
  op_promise : promise;
  op_status_of : op_status }.

(** Closure of one [loadPending] call. *)
Record batch := {
  b_onProgress : option callback;
  b_onError : option callback;
  b_promises : list promise;
  b_total : nat;
  b_progress : nat;
  b_all : option promise }.

Inductive event :=
| EvOnProgress (b : nat) (cb : callback) (progress total : nat)
| EvOnError (id : nat) (cb : callback) (e : value)
| EvOnLoad (b : nat) (cb : callback) (v : value)
| EvLoaderProgress (cb : callback) (ev : value)
| EvSettled (p : promise) (v : value).

Definition Qratio (progress total : nat) : Q :=
  Z.of_nat progress # Pos.of_nat total.

Record world := {
  _onProgress : option callback;
  _onError : option callback;
  _loaders : gmap nat Loader;
  _resources : gmap string value;
  _pending : list Resource;
  instances : list LoaderType;
  ops : list op;
  promises : list pstate;
  batches : list batch;
  trace : list event }.

Definition init : world :=
  {| _onProgress := None; _onError := None; _loaders := ∅; _resources := ∅;
     _pending := []; instances := []; ops := []; promises := [];
     batches := []; trace := [] |}.

(** Field updates. *)
Definition set_onProgress x (w : world) : world :=
  {| _onProgress := x; _onError := _onError w; _loaders := _loaders w;
     _resources := _resources w; _pending := _pending w;
     instances := instances w; ops := ops w; promises := promises w;
     batches := batches w; trace := trace w |}.
Definition set_onError x (w : world) : world :=
  {| _onProgress := _onProgress w; _onError := x; _loaders := _loaders w;
     _resources := _resources w; _pending := _pending w;
     instances := instances w; ops := ops w; promises := promises w;
     batches := batches w; trace := trace w |}.
Definition set_loaders x (w : world) : world :=
  {| _onProgress := _onProgress w; _onError := _onError w; _loaders := x;
     _resources := _resources w; _pending := _pending w;
     instances := instances w; ops := ops w; promises := promises w;
     batches := batches w; trace := trace w |}.
Definition set_resources x (w : world) : world :=
  {| _onProgress := _onProgress w; _onError := _onError w;
     _loaders := _loaders w; _resources := x; _pending := _pending w;
     instances := instances w; ops := ops w; promises := promises w;
     batches := batches w; trace := trace w |}.
Definition set_pending x (w : world) : world :=
  {| _onProgress := _onProgress w; _onError := _onError w;
     _loaders := _loaders w; _resources := _resources w; _pending := x;
     instances := instances w; ops := ops w; promises := promises w;
     batches := batches w; trace := trace w |}.
Definition set_instances x (w : world) : world :=
  {| _onProgress := _onProgress w; _onError := _onError w;
     _loaders := _loaders w; _resources := _resources w;
     _pending := _pending w; instances := x; ops := ops w;
     promises := promises w; batches := batches w; trace := trace w |}.
Definition set_ops x (w : world) : world :=
  {| _onProgress := _onProgress w; _onError := _onError w;
     _loaders := _loaders w; _resources := _resources w;
     _pending := _pending w; instances := instances w; ops := x;
     promises := promises w; batches := batches w; trace := trace w |}.
Definition set_promises x (w : world) : world :=
  {| _onProgress := _onProgress w; _onError := _onError w;
     _loaders := _loaders w; _resources := _resources w;
     _pending := _pending w; instances := instances w; ops := ops w;
     promises := x; batches := batches w; trace := trace w |}.
Definition set_batches x (w : world) : world :=
  {| _onProgress := _onProgress w; _onError := _onError w;
     _loaders := _loaders w; _resources := _resources w;
     _pending := _pending w; instances := instances w; ops := ops w;
     promises := promises w; batches := x; trace := trace w |}.
Definition set_trace x (w : world) : world :=
  {| _onProgress := _onProgress w; _onError := _onError w;
     _loaders := _loaders w; _resources := _resources w;
     _pending := _pending w; instances := instances w; ops := ops w;
     promises := promises w; batches := batches w; trace := x |}.

(** ** Run-time primitives *)

(** Calling a user callback. *)
Definition emit (e : event) (w : world) : world :=
  set_trace (trace w ++ [e]) w.

(** [if (f) f(...)] *)
Definition call_if (f : option callback) (mk : callback -> event)
    (w : world) : world :=
  match f with Some cb => emit (mk cb) w | None => w end.

(** [new Promise(...)], before the executor ran. *)
Definition new_promise (w : world) : promise * world :=
  (length (promises w), set_promises (promises w ++ [Pending]) w).

(** The [resolve] function of promise [p]. *)
Definition resolve (p : promise) (v : value) (w : world) : world :=
  match promises w !! p with
  | Some Pending =>
      emit (EvSettled p v) (set_promises (<[p := Fulfilled v]> (promises w)) w)
  | _ => w
  end.

(** [loader.load(path, onSuccess, onProgress, onError)]: returns at once,
    the operation is in flight. *)
Definition loader_load (l : Loader) (path : string)
    (onProgress : option callback) (k : kont) (p : promise)
    (w : world) : world :=
  set_ops (ops w ++ [{| op_loader := l; op_path := path;
                        op_onProgress := onProgress; op_kont := k;
                        op_promise := p; op_status_of := InFlight |}]) w.

Definition set_status (st : op_status) (o : op) : op :=
  {| op_loader := op_loader o; op_path := op_path o;
     op_onProgress := op_onProgress o; op_kont := op_kont o;
     op_promise := op_promise o; op_status_of := st |}.

Definition is_fulfilled (ps : list pstate) (p : promise) : bool :=
  match ps !! p with Some (Fulfilled _) => true | _ => false end.

Definition fulfilled_value (ps : list pstate) (p : promise) : value :=
  match ps !! p with Some (Fulfilled v) => v | _ => VUndefined end.

(** Closure variables of batch [b]. *)
Definition upd_batch (b : nat) (f : batch -> batch) (w : world) : world :=
  set_batches (alter f b (batches w)) w.

Definition push_promise (p : promise) (c : batch) : batch :=
  {| b_onProgress := b_onProgress c; b_onError := b_onError c;
     b_promises := b_promises c ++ [p]; b_total := b_total c;
     b_progress := b_progress c; b_all := b_all c |}.
Definition incr_total (c : batch) : batch :=
  {| b_onProgress := b_onProgress c; b_onError := b_onError c;
     b_promises := b_promises c; b_total := S (b_total c);
     b_progress := b_progress c; b_all := b_all c |}.
Definition incr_progress (c : batch) : batch :=
  {| b_onProgress := b_onProgress c; b_onError := b_onError c;
     b_promises := b_promises c; b_total := b_total c;
     b_progress := S (b_progress c); b_all := b_all c |}.
Definition set_all (r : promise) (c : batch) : batch :=
  {| b_onProgress := b_onProgress c; b_onError := b_onError c;
     b_promises := b_promises c; b_total := b_total c;
     b_progress := b_progress c; b_all := Some r |}.

(** The reaction of [Promise.all(promises)]: once every element is
    fulfilled the aggregate is resolved with the array of their values. *)
Definition all_settle (b : nat) (w : world) : world :=
  match batches w !! b with
  | Some c =>
      match b_all c with
      | Some r =>
          if forallb (is_fulfilled (promises w)) (b_promises c)
          then resolve r (VArray (map (fulfilled_value (promises w))
                                      (b_promises c))) w
          else w
      | None => w
      end
  | None => w
  end.

(** [Promise.all(promises)] *)
Definition promise_all (b : nat) (w : world) : promise * world :=
  let '(r, w) := new_promise w in
  (r, all_settle b (upd_batch b (set_all r) w)).

(** ** The module *)

(** Lines 20-22. *)
Definition add (path : string) (v : value) (w : world) : world :=
  set_resources (<[path := v]> (_resources w)) w.

(** Lines 24-26: [Map.get] gives [undefined] for a missing key. *)
Definition get (path : string) (w : world) : value :=
  match _resources w !! path with Some v => v | None => VUndefined end.

(** Lines 28-32. *)
Definition remove (ps : list string) (w : world) : world :=
  fold_left (fun w path => set_resources (delete path (_resources w)) w) ps w.

(** Lines 34-39: the instance registered for the type, constructed and
    registered first when [has] answers no. *)
Definition getLoader (loaderType : LoaderType) (w : world) : Loader * world :=
  match _loaders w !! loaderType with
  | Some l => (l, w)
  | None =>
      let l := length (instances w) in
      (l, set_loaders (<[loaderType := l]> (_loaders w))
            (set_instances (instances w ++ [loaderType]) w))
  end.

(** Lines 41-43. *)
Definition removeLoader (loaderType : LoaderType) (w : world) : world :=
  set_loaders (delete loaderType (_loaders w)) w.

(** Lines 45-51. *)
Definition setOnProgressDefault (f : option callback) (w : world) : world :=
  set_onProgress f w.
Definition setOnErrorDefault (f : option callback) (w : world) : world :=
  set_onError f w.

(** Lines 53-68. *)
Definition load (loaderType : LoaderType) (path : string)
    (onProgress onError : option callback) (w : world) : promise * world :=
  let '(p, w) := new_promise w in
  match _resources w !! path with
  | Some v => (p, resolve p v w)
  | None =>
      let w := set_resources (<[path := VNull]> (_resources w)) w in
      let '(l, w) := getLoader loaderType w in
      (p, loader_load l path onProgress (KLoad onError) p w)
  end.

(** Lines 70-72. *)
Definition preload (ld : LoaderType) (resources : list resource_item)
    (w : world) : world :=
  set_pending (_pending w ++ [{| loader := ld; paths := resources |}]) w.

(** [Array.prototype.pop]: the last element and the shortened array. *)
Definition pop {A} (l : list A) : option (A * list A) :=
  match rev l with
  | [] => None
  | x :: r => Some (x, rev r)
  end.

(** Lines 107-124, up to the [return]: the promise is created and the
    loader called. *)
Definition _createPromise (b : nat) (l : Loader) (path : string)
    (onLoad : option callback) (w : world) : promise * world :=
  let w := set_resources (<[path := VNull]> (_resources w)) w in
  let '(p, w) := new_promise w in
  (p, loader_load l path None (KBatch b onLoad) p w).

(** Lines 93-102: one turn of the [for] loop. *)
Definition _load_item (b : nat) (l : Loader) (w : world)
    (res : resource_item) : world :=
  let path := item_path res in
  let onload := item_onLoad res in
  match _resources w !! path with
  | Some v => call_if onload (fun cb => EvOnLoad b cb v) w
  | None =>
      let '(p, w) := _createPromise b l path onload w in
      upd_batch b incr_total (upd_batch b (push_promise p) w)
  end.

(** Lines 88-105. [resource.paths] is an array, hence truthy. *)
Definition _load (b : nat) (resource : Resource) (w : world) : world :=
  let '(l, w) := getLoader (loader resource) w in
  fold_left (_load_item b l) (paths resource) w.

(** Lines 82-84; [fuel] bounds the turns of the [while] loop. *)
Fixpoint drain (fuel : nat) (b : nat) (w : world) : world :=
  match fuel with
  | O => w
  | S fuel =>
      match pop (_pending w) with
      | None => w
      | Some (resource, rest) =>
          drain fuel b (_load b resource (set_pending rest w))
      end
  end.

(** Lines 74-86. *)
Definition loadPending (config : LoadingConfig) (w : world)
    : promise * world :=
  let onProgress := nullish_or (cfg_onProgress config) (_onProgress w) in
  let onError := nullish_or (cfg_onError config) (_onError w) in
  let b := length (batches w) in
  let w := set_batches
             (batches w ++ [{| b_onProgress := onProgress;
                               b_onError := onError; b_promises := [];
                               b_total := 0; b_progress := 0;
                               b_all := None |}]) w in
  let w := drain (length (_pending w)) b w in
  promise_all b w.

(** ** The loader calls back *)

(** [if (onProgress) onProgress(++progress / total)] *)
Definition report_progress (b : nat) (w : world) : world :=
  match batches w !! b with
  | Some c =>
      match b_onProgress c with
      | Some cb =>
          emit (EvOnProgress b cb (S (b_progress c)) (b_total c))
               (upd_batch b incr_progress w)
      | None => w
      end
  | None => w
  end.

Definition batch_onError (b : nat) (w : world) : option callback :=
  match batches w !! b with Some c => b_onError c | None => None end.

(** The success callback of operation [id] (lines 59-62 and 112-117). *)
Definition on_success (id : nat) (result : value) (w : world) : world :=
  match ops w !! id with
  | Some o =>
      match op_status_of o with
      | InFlight =>
          let w := set_ops (<[id := set_status (Succeeded result) o]> (ops w)) w in
          let w := set_resources (<[op_path o := result]> (_resources w)) w in
          match op_kont o with
          | KLoad _ => resolve (op_promise o) result w
          | KBatch b onLoad =>
              let w := report_progress b w in
              let w := call_if onLoad (fun cb => EvOnLoad b cb result) w in
              all_settle b (resolve (op_promise o) VUndefined w)
          end
      | _ => w
      end
  | None => w
  end.

(** The error callback of operation [id] (lines 62-66 and 117-122). *)
Definition on_error (id : nat) (e : value) (w : world) : world :=
  match ops w !! id with
  | Some o =>
      match op_status_of o with
      | InFlight =>
          let w := set_ops (<[id := set_status (Failed e) o]> (ops w)) w in
          let w := set_resources (delete (op_path o) (_resources w)) w in
          match op_kont o with
          | KLoad onError =>
              let w := call_if onError (fun cb => EvOnError id cb e) w in
              resolve (op_promise o) VUndefined w
          | KBatch b _ =>
              let w := call_if (batch_onError b w)
                               (fun cb => EvOnError id cb e) w in
              let w := report_progress b w in
              all_settle b (resolve (op_promise o) VUndefined w)
          end
      | _ => w
      end
  | None => w
  end.

(** The loader reports fine-grained progress of an operation in flight. *)
Definition on_progress (id : nat) (ev : value) (w : world) : world :=
  match ops w !! id with
  | Some o =>
      match op_status_of o with
      | InFlight => call_if (op_onProgress o) (fun cb => EvLoaderProgress cb ev) w
      | _ => w
      end
  | None => w
  end.

(** ** Executions *)

Inductive action :=
| Add (path : string) (v : value)
| Get (path : string)
| Remove (ps : list string)
| GetLoader (t : LoaderType)
| RemoveLoader (t : LoaderType)
| SetOnProgressDefault (f : option callback)
| SetOnErrorDefault (f : option callback)
| Load (t : LoaderType) (path : string) (onProgress onError : option callback)
| Preload (t : LoaderType) (resources : list resource_item)
| LoadPending (config : LoadingConfig)
| LoaderSuccess (id : nat) (result : value)
| LoaderError (id : nat) (e : value)
| LoaderProgress (id : nat) (ev : value).

Definition step (w : world) (a : action) : world :=
  match a with
  | Add path v => add path v w
  | Get _ => w
  | Remove ps => remove ps w
  | GetLoader t => snd (getLoader t w)
  | RemoveLoader t => removeLoader t w
  | SetOnProgressDefault f => setOnProgressDefault f w
  | SetOnErrorDefault f => setOnErrorDefault f w
  | Load t path onProgress onError => snd (load t path onProgress onError w)
  | Preload t resources => preload t resources w
  | LoadPending config => snd (loadPending config w)
  | LoaderSuccess id result => on_success id result w
  | LoaderError id e => on_error id e w
  | LoaderProgress id ev => on_progress id ev w
  end.

Definition run (acts : list action) (w : world) : world :=
  fold_left step acts w.

(** ** Observations *)

Definition in_flight (o : op) : bool :=
  match op_status_of o with InFlight => true | _ => false end.

Definition settled (o : op) : bool := negb (in_flight o).

Definition of_batch (b : nat) (o : op) : bool :=
  match op_kont o with KBatch b' _ => b' =? b | KLoad _ => false end.

(** The operations created by batch [b], in creation order. *)
Definition batch_ops (b : nat) (l : list op) : list op :=
  List.filter (of_batch b) l.

(** Calls of the progress callback made by batch [b]. *)
Definition progress_calls (b : nat) (tr : list event)
    : list (callback * nat * nat) :=
  omap (fun e => match e with
                 | EvOnProgress b' cb k t =>
                     if b' =? b then Some (cb, k, t) else None
                 | _ => None
                 end) tr.

(** Calls of an error callback made by the error handler of operation [id]. *)
Definition error_calls (id : nat) (tr : list event) : list (callback * value) :=
  omap (fun e => match e with
                 | EvOnError id' cb x => if id' =? id then Some (cb, x) else None
                 | _ => None
                 end) tr.

(** Settlements of promise [p]. *)
Definition settle_calls (p : promise) (tr : list event) : list value :=
  omap (fun e => match e with
                 | EvSettled p' v => if p' =? p then Some v else None
                 | _ => None
                 end) tr.

Definition is_user_call (e : event) : bool :=
  match e with
  | EvOnProgress _ _ _ _ | EvOnError _ _ _ => true
  | _ => false
  end.

(** State of the promise of an operation, from the status of the
    operation. *)
Definition op_pstate (o : op) : pstate :=
  match op_status_of o with
  | InFlight => Pending
  | Succeeded v =>
      Fulfilled (match op_kont o with KLoad _ => v | KBatch _ _ => VUndefined end)
  | Failed _ => Fulfilled VUndefined
  end.

(** State of the promise of [Promise.all], from the operations of the
    batch. *)
Definition all_pstate (b : nat) (l : list op) : pstate :=
  if forallb settled (batch_ops b l)
  then Fulfilled (VArray (map (fun _ => VUndefined) (batch_ops b l)))
  else Pending.

Definition effective_onError (w : world) (o : op) : option callback :=
  match op_kont o with
  | KLoad f => f
  | KBatch b _ => batch_onError b w
  end.

(** Paths for which a drain creates an operation: those of [ps] that are
    not keys of the cache, each at its first occurrence. *)
Fixpoint new_paths (cached : gset string) (ps : list string) : list string :=
  match ps with
  | [] => []
  | p :: ps =>
      if decide (p ∈ cached) then new_paths cached ps
      else p :: new_paths ({[p]} ∪ cached) ps
  end.

(** The paths of the queue, in the order the drain meets them. *)
Definition queued_paths (q : list Resource) : list string :=
  flat_map (fun r => map item_path (paths r)) (rev q).

(** The entries of the queue, in the order the drain meets them. *)
Definition queued_items (q : list Resource) : list resource_item :=
  flat_map paths (rev q).

(** The [onLoad] calls of a loop that meets the entries [items] with the
    cache [m]: one for every entry that has an [onLoad] and whose path is a
    key when the loop gets to it, with the value stored; a path that is not
    a key gets the placeholder and is a key from then on. *)
Fixpoint cached_calls (b : nat) (m : gmap string value)
    (items : list resource_item) : list event :=
  match items with
  | [] => []
  | res :: items =>
      match m !! item_path res with
      | Some v =>
          match item_onLoad res with
          | Some cb => [EvOnLoad b cb v]
          | None => []
          end ++ cached_calls b m items
      | None => cached_calls b (<[item_path res := VNull]> m) items
      end
  end.

(** What the loader has told about operation [id] in the course of
    [acts]: its first call of the success or of the error callback. *)
Fixpoint outcome (id : nat) (acts : list action) : op_status :=
  match acts with
  | [] => InFlight
  | LoaderSuccess id' r :: acts =>
      if id' =? id then Succeeded r else outcome id acts
  | LoaderError id' e :: acts =>
      if id' =? id then Failed e else outcome id acts
  | _ :: acts => outcome id acts
  end.

(** The loader has called the success or the error callback of operation
    [id] in the course of [acts]. *)
Definition called_back (id : nat) (acts : list action) : bool :=
  existsb (fun a => match a with
                    | LoaderSuccess id' _ | LoaderError id' _ => id' =? id
                    | _ => false
                    end) acts.

(** ** Invariants and relations used by the proofs *)

(** The run-time tables agree with each other: a registered loader is a
    constructed instance of its type; operations own distinct promises, whose
    state follows the status of the operation; the closure of a batch lists
    the promises of its operations and counts them; and the trace holds, for
    every batch, operation and promise, exactly the calls their state
    accounts for. *)
Record wf_core (w : world) : Prop := {
  wf_loaders : ∀ t l, _loaders w !! t = Some l → instances w !! l = Some t;
  wf_inj : ∀ i j oi oj,
    ops w !! i = Some oi → ops w !! j = Some oj →
    op_promise oi = op_promise oj → i = j;
  wf_pstate : ∀ i o,
    ops w !! i = Some o → promises w !! op_promise o = Some (op_pstate o);
  wf_kbatch : ∀ i o b,
    ops w !! i = Some o → of_batch b o = true → b < length (batches w);
  wf_batch : ∀ b c,
    batches w !! b = Some c →
    b_promises c = map op_promise (batch_ops b (ops w))
    ∧ b_total c = length (batch_ops b (ops w));
  wf_all_fresh : ∀ b c r,
    batches w !! b = Some c → b_all c = Some r →
    r < length (promises w) ∧ ∀ i o, ops w !! i = Some o → op_promise o ≠ r;
  wf_all_inj : ∀ b b' c c' r,
    batches w !! b = Some c → batches w !! b' = Some c' →
    b_all c = Some r → b_all c' = Some r → b = b';
  wf_progress : ∀ b,
    progress_calls b (trace w)
    = match batches w !! b with
      | Some c =>
          match b_onProgress c with
          | Some cb => map (fun k => (cb, k, b_total c)) (seq 1 (b_progress c))
          | None => []
          end
      | None => []
      end;
  wf_progress_count : ∀ b c,
    batches w !! b = Some c →
    b_progress c
    = match b_onProgress c with
      | Some _ => length (List.filter settled (batch_ops b (ops w)))
      | None => 0
      end;
  wf_errors : ∀ i,
    error_calls i (trace w)
    = match ops w !! i with
      | Some o =>
          match op_status_of o, effective_onError w o with
          | Failed e, Some cb => [(cb, e)]
          | _, _ => []
          end
      | None => []
      end;
  wf_settled : ∀ p,
    settle_calls p (trace w)
    = match promises w !! p with
      | Some (Fulfilled v) => [v]
      | _ => []
      end;
  wf_norej : ∀ p e, promises w !! p ≠ Some (Rejected e) }.

(** The promise of [Promise.all] follows the operations of its batch; while
    the batch is still draining there is none, and nothing has settled. *)
Definition all_ok (w : world) (b : nat) (c : batch) : Prop :=
  match b_all c with
  | None => forallb in_flight (batch_ops b (ops w)) = true
  | Some r => promises w !! r = Some (all_pstate b (ops w))
  end.

(** The invariant of executions. *)
Definition wf (w : world) : Prop :=
  wf_core w ∧ ∀ b c, batches w !! b = Some c → all_ok w b c.

(** Between the last [resolve] of a handler and the reaction of
    [Promise.all]. *)
Definition wf_pre (b : nat) (w : world) : Prop :=
  wf_core w
  ∧ (∀ b' c, b' ≠ b → batches w !! b' = Some c → all_ok w b' c)
  ∧ (∀ c, batches w !! b = Some c →
       ∃ r, b_all c = Some r ∧ promises w !! r = Some Pending).

(** Every [loadPending] call has returned. *)
Definition drained (w : world) : Prop :=
  ∀ b c, batches w !! b = Some c → is_Some (b_all c).

(** A promise that no operation and no [Promise.all] owns yet. *)
Definition unowned (p : promise) (w : world) : Prop :=
  promises w !! p = Some Pending
  ∧ (∀ i o, ops w !! i = Some o → op_promise o ≠ p)
  ∧ (∀ b c, batches w !! b = Some c → b_all c ≠ Some p).

(** Batch [b] is inside its [while] loop; every other call has returned. *)
Definition draining (b : nat) (w : world) : Prop :=
  (∃ c, batches w !! b = Some c ∧ b_all c = None)
  ∧ ∀ b' c', b' ≠ b → batches w !! b' = Some c' → is_Some (b_all c').

(** The handlers of [on_success] and [on_error] in closed form: the value
    the promise of the operation is resolved with, the callbacks called (in
    the order error, progress, load) and the closure left behind. *)
Definition settle_value (st : op_status) (k : kont) : value :=
  match st, k with
  | Succeeded v, KLoad _ => v
  | _, _ => VUndefined
  end.

Definition settle_err (id : nat) (st : op_status) (f : option callback)
    : list event :=
  match st, f with
  | Failed e, Some cb => [EvOnError id cb e]
  | _, _ => []
  end.

Definition settle_prog (k : kont) (bs : list batch) : list event :=
  match k with
  | KBatch b _ =>
      match bs !! b with
      | Some c =>
          match b_onProgress c with
          | Some cb => [EvOnProgress b cb (S (b_progress c)) (b_total c)]
          | None => []
          end
      | None => []
      end
  | KLoad _ => []
  end.

Definition settle_batches (k : kont) (bs : list batch) : list batch :=
  match k with
  | KBatch b _ =>
      match bs !! b with
      | Some c =>
          match b_onProgress c with
          | Some _ => alter incr_progress b bs
          | None => bs
          end
      | None => bs
      end
  | KLoad _ => bs
  end.

Definition settle_onload (st : op_status) (k : kont) : list event :=
  match st, k with
  | Succeeded r, KBatch b (Some cb) => [EvOnLoad b cb r]
  | _, _ => []
  end.

(** The world after the handler of operation [id] ran with outcome [st],
    up to the reaction of [Promise.all]; [m] is the cache it leaves. *)
Definition settle (id : nat) (o : op) (st : op_status)
    (m : gmap string value) (w : world) : world :=
  {| _onProgress := _onProgress w; _onError := _onError w;
     _loaders := _loaders w; _resources := m; _pending := _pending w;
     instances := instances w;
     ops := <[id := set_status st o]> (ops w);
     promises := <[op_promise o := Fulfilled (settle_value st (op_kont o))]>
                   (promises w);
     batches := settle_batches (op_kont o) (batches w);
     trace := trace w ++ settle_err id st (effective_onError w o)
                ++ settle_prog (op_kont o) (batches w)
                ++ settle_onload st (op_kont o)
                ++ [EvSettled (op_promise o) (settle_value st (op_kont o))] |}.

(** What follows the last [resolve] of a handler. *)
Definition react (k : kont) (w : world) : world :=
  match k with
  | KBatch b _ => all_settle b w
  | KLoad _ => w
  end.

(** The batch whose closure the callbacks [k] belong to. *)
Definition kont_batch (k : kont) : option nat :=
  match k with KBatch b _ => Some b | KLoad _ => None end.

(** The closure of batch [b'] after a handler with callbacks [k] ran. *)
Definition bumped (k : kont) (b' : nat) (c : batch) : batch :=
  if decide (kont_batch k = Some b' ∧ is_Some (b_onProgress c))
  then incr_progress c else c.

Definition is_onload_of (b : nat) (e : event) : Prop :=
  ∃ cb v, e = EvOnLoad b cb v.

(** [w'] is a state of the loop of batch [b] that started in [w0]: [new]
    are the operations created so far, [evs] the callbacks called. *)
Inductive drain_rel (b : nat) (w0 w' : world) : Prop :=
| DrainRel (new : list op) (evs : list event)
    (dr_ops : ops w' = ops w0 ++ new)
    (dr_new_ok : Forall (fun o => of_batch b o = true ∧ in_flight o = true
                                  ∧ op_onProgress o = None
                                  ∧ _resources w0 !! op_path o = None) new)
    (dr_new_pending : Forall (fun o => promises w' !! op_promise o
                                       = Some Pending) new)
    (dr_trace : trace w' = trace w0 ++ evs)
    (dr_evs_ok : Forall (is_onload_of b) evs)
    (dr_batch : ∀ c0, batches w0 !! b = Some c0 →
       ∃ c', batches w' !! b = Some c'
         ∧ b_onProgress c' = b_onProgress c0 ∧ b_onError c' = b_onError c0
         ∧ b_all c' = b_all c0 ∧ b_progress c' = b_progress c0
         ∧ b_total c' = b_total c0 + length new
         ∧ b_promises c' = b_promises c0 ++ map op_promise new)
    (dr_others : ∀ b', b' ≠ b → batches w' !! b' = batches w0 !! b')
    (dr_promises : ∀ p s, promises w0 !! p = Some s → promises w' !! p = Some s)
    (dr_resources : ∀ p v,
       _resources w0 !! p = Some v → _resources w' !! p = Some v)
    (dr_defaults : _onProgress w' = _onProgress w0 ∧ _onError w' = _onError w0).

(** Loader [l] is still the instance registered for [t], and no instance
    of [t] was constructed since [w0]. *)
Definition loader_kept (t : LoaderType) (l : Loader) (w0 w : world) : Prop :=
  _loaders w !! t = Some l
  ∧ ∃ ext, instances w = instances w0 ++ ext ∧ t ∉ ext.

(** What a closure keeps once [loadPending] has returned: everything but
    [progress]. *)
Definition same_closure (c c' : batch) : Prop :=
  b_onProgress c' = b_onProgress c ∧ b_onError c' = b_onError c
  ∧ b_promises c' = b_promises c ∧ b_total c' = b_total c
  ∧ b_all c' = b_all c.

(** The loader calls back an operation created at index [n0] or later. *)
Definition is_callback_from (n0 : nat) (a : action) : Prop :=
  match a with
  | LoaderSuccess id _ | LoaderError id _ | LoaderProgress id _ => n0 ≤ id
  | _ => False
  end.

(** The operations from [n0] on have pairwise distinct paths. *)
Definition paths_inj (n0 : nat) (l : list op) : Prop :=
  ∀ i j oi oj, n0 ≤ i → n0 ≤ j → l !! i = Some oi → l !! j = Some oj →
               op_path oi = op_path oj → i = j.

(** The key of every failed operation from [n0] on is absent. *)
Definition failed_absent (n0 : nat) (w : world) : Prop :=
  ∀ i o e, n0 ≤ i → ops w !! i = Some o → op_status_of o = Failed e →
           _resources w !! op_path o = None.

(** The loader has not called back operation [id] by action [a]. *)
Definition not_callback_of (id : nat) (a : action) : Prop :=
  (∀ r, a ≠ LoaderSuccess id r) ∧ (∀ e, a ≠ LoaderError id e).

(** [o'] is the call of [loader.load] that [o] is, whatever their status. *)
Definition same_op (o o' : op) : Prop :=
  op_loader o' = op_loader o ∧ op_path o' = op_path o
  ∧ op_onProgress o' = op_onProgress o ∧ op_kont o' = op_kont o
  ∧ op_promise o' = op_promise o.

(** The cache entry an operation leaves at its path: the placeholder while
    in flight, the result after a success, nothing after an error. *)
Definition op_entry (o : op) : option value :=
  match op_status_of o with
  | InFlight => Some VNull
  | Succeeded r => Some r
  | Failed _ => None
  end.

(** The entry of every operation from [n0] on is the one it left. *)
Definition entries_follow (n0 : nat) (w : world) : Prop :=
  ∀ i o, n0 ≤ i → ops w !! i = Some o → _resources w !! op_path o = op_entry o.

(** Every registration of [w] is still one of [w']. *)
Definition registry_le (w w' : world) : Prop :=
  ∀ t l, _loaders w !! t = Some l → _loaders w' !! t = Some l.

(** The cache after the loop met the paths [ps]: a placeholder at every one
    that was not a key. *)
Definition with_placeholders (m : gmap string value) (ps : list string)
    (p : string) : option value :=
  match m !! p with
  | Some v => Some v
  | None => if decide (p ∈ ps) then Some VNull else None
  end.

(** ** Basic facts *)

Lemma pop_nil {A} : pop (@nil A) = None.
Proof. reflexivity. Qed.

Lemma pop_snoc {A} (l : list A) (x : A) : pop (l ++ [x]) = Some (x, l).
Proof. unfold pop. rewrite rev_unit, rev_involutive. reflexivity. Qed.

Lemma lookup_snoc_eq {A} (l : list A) (x : A) : (l ++ [x]) !! length l = Some x.
Proof. by apply list_lookup_middle. Qed.

Lemma lookup_snoc_none {A} (l : list A) (x : A) i :
  l !! i = None →
  (l ++ [x]) !! i = if decide (i = length l) then Some x else None.
Proof.
  intros H%lookup_ge_None. case_decide as E.
  - subst. apply lookup_snoc_eq.
  - apply lookup_ge_None. rewrite length_app. simpl. lia.
Qed.

Lemma insert_snoc {A} (l : list A) (x y : A) :
  <[length l := y]> (l ++ [x]) = l ++ [y].
Proof.
  replace (length l) with (length l + 0) by lia.
  by rewrite insert_app_r.
Qed.

Lemma set_pending_same (w : world) : set_pending (_pending w) w = w.
Proof. by destruct w. Qed.

Lemma getLoader_pending t q w :
  getLoader t (set_pending q w)
  = (fst (getLoader t w), set_pending q (snd (getLoader t w))).
Proof. unfold getLoader; simpl. by destruct (_loaders w !! t). Qed.

Lemma _load_item_pending b l q w res :
  _load_item b l (set_pending q w) res = set_pending q (_load_item b l w res).
Proof.
  unfold _load_item; simpl.
  destruct (_resources w !! item_path res); [|done].
  by destruct (item_onLoad res).
Qed.

Lemma fold_items_pending b l q items w :
  fold_left (_load_item b l) items (set_pending q w)
  = set_pending q (fold_left (_load_item b l) items w).
Proof.
  revert w; induction items as [|res items IH]; intros w; simpl; [done|].
  by rewrite _load_item_pending, IH.
Qed.

Lemma _load_pending b r q w :
  _load b r (set_pending q w) = set_pending q (_load b r w).
Proof.
  unfold _load. rewrite getLoader_pending.
  destruct (getLoader (loader r) w) as [l w']; simpl.
  apply fold_items_pending.
Qed.

Lemma _load_keeps_pending b r w : _pending (_load b r w) = _pending w.
Proof.
  rewrite <- (set_pending_same w) at 1. by rewrite _load_pending.
Qed.

(** The [while] loop treats the queue as a stack. *)
Lemma drain_fold b n w :
  length (_pending w) ≤ n →
  drain n b w
  = set_pending [] (fold_left (fun w r => _load b r w) (rev (_pending w)) w).
Proof.
  revert w; induction n as [|n IH]; intros w Hn.
  - destruct (_pending w) eqn:E; simpl in Hn; [|lia].
    simpl. rewrite <- E. by rewrite set_pending_same.
  - destruct (_pending w) as [|r0 q0] eqn:E using rev_ind.
    + simpl. rewrite E; simpl. rewrite <- E. by rewrite set_pending_same.
    + clear IHq0. simpl. rewrite E, pop_snoc, rev_unit. simpl.
      rewrite length_app in Hn; simpl in Hn.
      rewrite IH by (rewrite _load_keeps_pending; simpl; lia).
      rewrite !_load_pending; simpl.
      assert (Hfold : ∀ rs q w',
        fold_left (fun w r => _load b r w) rs (set_pending q w')
        = set_pending q (fold_left (fun w r => _load b r w) rs w')).
      { induction rs as [|r rs IHrs]; intros q w'; simpl; [done|].
        by rewrite _load_pending, IHrs. }
      by rewrite Hfold.
Qed.

(** A property kept by every statement of the loop body is kept by the
    drain. *)
Lemma drain_invariant (P : world → Prop) b :
  (∀ w q, P w → P (set_pending q w)) →
  (∀ w t, P w → P (snd (getLoader t w))) →
  (∀ w l res, P w → P (_load_item b l w res)) →
  ∀ n w, P w → P (drain n b w).
Proof.
  intros Hq Hg Hi n. induction n as [|n IH]; intros w Hw; simpl; [done|].
  destruct (pop (_pending w)) as [[r rest]|]; [|done].
  apply IH. unfold _load.
  specialize (Hg _ (loader r) (Hq _ rest Hw)).
  destruct (getLoader (loader r) (set_pending rest w)) as [l w']; simpl in *.
  revert Hg. generalize w'. induction (paths r) as [|res items IHi]; simpl; auto.
Qed.

Lemma world_eq (w w' : world) :
  _onProgress w = _onProgress w' → _onError w = _onError w' →
  _loaders w = _loaders w' → _resources w = _resources w' →
  _pending w = _pending w' → instances w = instances w' →
  ops w = ops w' → promises w = promises w' → batches w = batches w' →
  trace w = trace w' → w = w'.
Proof. destruct w, w'; simpl; intros; by subst. Qed.

(** *** Lists of operations *)

Lemma batch_ops_app b l1 l2 :
  batch_ops b (l1 ++ l2) = batch_ops b l1 ++ batch_ops b l2.
Proof. apply List.filter_app. Qed.

Lemma batch_ops_nil b (l : list op) :
  (∀ i o, l !! i = Some o → of_batch b o = false) → batch_ops b l = [].
Proof.
  induction l as [|o l IH]; intros H; simpl; [done|].
  rewrite (H 0 o eq_refl). apply IH. intros i o' Hi. by apply (H (S i)).
Qed.

Lemma of_batch_kont b o : of_batch b o = true ↔ ∃ f, op_kont o = KBatch b f.
Proof.
  unfold of_batch. destruct (op_kont o) as [f|b' f].
  - split; [done|]. by intros [? ?].
  - rewrite Nat.eqb_eq. split; [intros ->; eauto|]. intros [? ?]; congruence.
Qed.

Lemma of_batch_set_status b st o : of_batch b (set_status st o) = of_batch b o.
Proof. reflexivity. Qed.

(** Splitting the table at the operation that settles. *)
Lemma ops_split (l : list op) i o o' :
  l !! i = Some o →
  ∃ l1 l2, l = l1 ++ o :: l2 ∧ <[i := o']> l = l1 ++ o' :: l2 ∧ length l1 = i.
Proof.
  intros H. exists (take i l), (drop (S i) l).
  pose proof (lookup_lt_Some _ _ _ H) as Hlt.
  split; [by rewrite take_drop_middle|].
  split; [by apply insert_take_drop|].
  rewrite length_take. lia.
Qed.

Lemma lookup_insert_status (l : list op) i o st j oj :
  l !! i = Some o →
  <[i := set_status st o]> l !! j = Some oj →
  (j = i ∧ oj = set_status st o) ∨ (j ≠ i ∧ l !! j = Some oj).
Proof.
  intros Hi Hj. destruct (decide (j = i)) as [->|Hne].
  - left. rewrite list_lookup_insert_eq in Hj by eauto using lookup_lt_Some.
    split; congruence.
  - right. by rewrite list_lookup_insert_ne in Hj.
Qed.

Lemma batch_ops_insert_promises b (l : list op) i o st :
  l !! i = Some o →
  map op_promise (batch_ops b (<[i := set_status st o]> l))
  = map op_promise (batch_ops b l).
Proof.
  intros H. destruct (ops_split l i o (set_status st o) H) as (l1 & l2 & E1 & E2 & _).
  rewrite E2, E1 at 1. rewrite !batch_ops_app. simpl.
  rewrite of_batch_set_status. destruct (of_batch b o); by rewrite !map_app.
Qed.

Lemma batch_ops_insert_length b (l : list op) i o st :
  l !! i = Some o →
  length (batch_ops b (<[i := set_status st o]> l)) = length (batch_ops b l).
Proof.
  intros H. rewrite <- (length_map op_promise), batch_ops_insert_promises by done.
  by rewrite length_map.
Qed.

Lemma batch_ops_insert_other b (l : list op) i o st :
  l !! i = Some o → of_batch b o = false →
  batch_ops b (<[i := set_status st o]> l) = batch_ops b l.
Proof.
  intros H Hb. destruct (ops_split l i o (set_status st o) H) as (l1 & l2 & E1 & E2 & _).
  rewrite E2, E1 at 1. rewrite !batch_ops_app. simpl.
  by rewrite of_batch_set_status, Hb.
Qed.

Lemma settled_count_insert b (l : list op) i o st :
  l !! i = Some o → of_batch b o = true → in_flight o = true → st ≠ InFlight →
  length (List.filter settled (batch_ops b (<[i := set_status st o]> l)))
  = S (length (List.filter settled (batch_ops b l))).
Proof.
  intros H Hb Hf Hst.
  destruct (ops_split l i o (set_status st o) H) as (l1 & l2 & E1 & E2 & _).
  rewrite E2, E1 at 1. rewrite !batch_ops_app. simpl.
  rewrite of_batch_set_status, Hb. rewrite !List.filter_app. simpl.
  assert (settled o = false) as -> by (unfold settled; by rewrite Hf).
  assert (settled (set_status st o) = true) as -> by (by destruct st).
  rewrite !length_app. simpl. lia.
Qed.

Lemma in_flight_forallb_false b (l : list op) i o :
  l !! i = Some o → of_batch b o = true → in_flight o = true →
  forallb settled (batch_ops b l) = false.
Proof.
  intros H Hb Hf. destruct (ops_split l i o o H) as (l1 & l2 & E1 & _).
  rewrite E1, batch_ops_app. simpl. rewrite Hb.
  rewrite forallb_app. simpl.
  assert (settled o = false) as -> by (unfold settled; by rewrite Hf).
  apply andb_false_r.
Qed.

Lemma all_in_flight_settled b (l : list op) :
  forallb in_flight (batch_ops b l) = true →
  List.filter settled (batch_ops b l) = [].
Proof.
  induction (batch_ops b l) as [|o k IH]; simpl; [done|].
  intros [Ho Hk]%andb_true_iff.
  assert (settled o = false) as -> by (unfold settled; by rewrite Ho). auto.
Qed.

Lemma settled_all_count (l : list op) :
  forallb settled l = true ↔ length (List.filter settled l) = length l.
Proof.
  induction l as [|o l IH]; simpl; [done|].
  destruct (settled o); simpl.
  - rewrite IH. lia.
  - split; [done|]. pose proof (List.filter_length_le settled l). lia.
Qed.

(** *** Promises of a list of operations *)

Lemma is_fulfilled_ops (ps : list pstate) (l : list op) :
  (∀ o, o ∈ l → ps !! op_promise o = Some (op_pstate o)) →
  forallb (is_fulfilled ps) (map op_promise l) = forallb settled l.
Proof.
  induction l as [|o l IH]; intros H; simpl; [done|].
  rewrite IH by (intros; apply H; by right). f_equal.
  unfold is_fulfilled. rewrite (H o) by left.
  unfold op_pstate, settled, in_flight. by destruct (op_status_of o).
Qed.

Lemma fulfilled_value_ops b (ps : list pstate) (l : list op) :
  (∀ o, o ∈ l → ps !! op_promise o = Some (op_pstate o) ∧ of_batch b o = true) →
  forallb settled l = true →
  map (fulfilled_value ps) (map op_promise l) = map (fun _ => VUndefined) l.
Proof.
  induction l as [|o l IH]; intros H Hs; simpl; [done|].
  simpl in Hs. apply andb_true_iff in Hs as [Ho Hl].
  rewrite IH by (try done; intros; apply H; by right). f_equal.
  destruct (H o) as [Hp Hb]; [left|].
  unfold fulfilled_value. rewrite Hp.
  apply of_batch_kont in Hb as [f Hk].
  unfold op_pstate, settled, in_flight in *. rewrite Hk.
  by destruct (op_status_of o).
Qed.

Lemma elem_of_batch_ops b (l : list op) o :
  o ∈ batch_ops b l ↔ o ∈ l ∧ of_batch b o = true.
Proof. unfold batch_ops. rewrite !list_elem_of_In. apply List.filter_In. Qed.

(** ** Invariant of the run-time tables *)

Lemma wf_init : wf init.
Proof. split; [split|]; simpl; try done; intros; by rewrite ?lookup_nil. Qed.

Lemma drained_init : drained init.
Proof. intros b c H. simpl in H. by rewrite lookup_nil in H. Qed.

(** The invariant reads the module only through the registry and the
    run-time tables, and the trace only through its projections. *)
Lemma wf_core_frame (w w' : world) :
  _loaders w' = _loaders w → instances w' = instances w →
  ops w' = ops w → promises w' = promises w → batches w' = batches w →
  (∀ b, progress_calls b (trace w') = progress_calls b (trace w)) →
  (∀ i, error_calls i (trace w') = error_calls i (trace w)) →
  (∀ p, settle_calls p (trace w') = settle_calls p (trace w)) →
  wf_core w → wf_core w'.
Proof.
  intros Hl Hi Ho Hp Hb Ht1 Ht2 Ht3 [].
  split; unfold effective_onError, batch_onError in *;
    rewrite ?Hl, ?Hi, ?Ho, ?Hp, ?Hb; try done.
  - intros b. by rewrite Ht1.
  - intros i. by rewrite Ht2.
  - intros p. by rewrite Ht3.
Qed.

Lemma wf_frame (w w' : world) :
  _loaders w' = _loaders w → instances w' = instances w →
  ops w' = ops w → promises w' = promises w → batches w' = batches w →
  (∀ b, progress_calls b (trace w') = progress_calls b (trace w)) →
  (∀ i, error_calls i (trace w') = error_calls i (trace w)) →
  (∀ p, settle_calls p (trace w') = settle_calls p (trace w)) →
  wf w → wf w'.
Proof.
  intros Hl Hi Ho Hp Hb Ht1 Ht2 Ht3 [Hc Ha]. split.
  - by apply (wf_core_frame w).
  - unfold all_ok in *. by rewrite Ho, Hp, Hb.
Qed.

Lemma wf_set_resources m w : wf w → wf (set_resources m w).
Proof. by apply wf_frame. Qed.

Lemma wf_set_pending q w : wf w → wf (set_pending q w).
Proof. by apply wf_frame. Qed.

Lemma wf_remove ps w : wf w → wf (remove ps w).
Proof.
  unfold remove. revert w. induction ps as [|p ps IH]; intros w H; simpl; [done|].
  by apply IH, wf_set_resources.
Qed.

Lemma wf_emit_onload b cb v w : wf w → wf (emit (EvOnLoad b cb v) w).
Proof.
  apply wf_frame; try done; intros; simpl;
    unfold progress_calls, error_calls, settle_calls;
    by rewrite omap_app, app_nil_r.
Qed.

Lemma wf_emit_loader_progress cb v w :
  wf w → wf (emit (EvLoaderProgress cb v) w).
Proof.
  apply wf_frame; try done; intros; simpl;
    unfold progress_calls, error_calls, settle_calls;
    by rewrite omap_app, app_nil_r.
Qed.

Lemma wf_getLoader t w : wf w → wf (snd (getLoader t w)).
Proof.
  intros H. unfold getLoader. destruct (_loaders w !! t) as [l|] eqn:E; [done|].
  simpl. destruct H as [Hc Ha]. split.
  - destruct Hc. split; try done. simpl. intros t' l'.
    destruct (decide (t = t')) as [->|Hne].
    + rewrite lookup_insert_eq. intros [= <-]. apply lookup_snoc_eq.
    + rewrite lookup_insert_ne by done. intros Hl.
      apply lookup_app_l_Some. eauto.
  - done.
Qed.

Lemma wf_removeLoader t w : wf w → wf (removeLoader t w).
Proof.
  intros [Hc Ha]. split; [|done]. destruct Hc. split; try done.
  simpl. intros t' l. destruct (decide (t = t')) as [->|Hne].
  - by rewrite lookup_delete_eq.
  - rewrite lookup_delete_ne by done. eauto.
Qed.

(** *** Creating promises and operations *)

Lemma batch_ops_snoc b l o :
  batch_ops b (l ++ [o])
  = if of_batch b o then batch_ops b l ++ [o] else batch_ops b l.
Proof.
  rewrite batch_ops_app. simpl. destruct (of_batch b o); [done|].
  apply app_nil_r.
Qed.

Lemma wf_new_promise w : wf w → wf (snd (new_promise w)).
Proof.
  intros [Hc Ha]. split.
  - destruct Hc. split; simpl; try done.
    + intros i o Ho. apply lookup_app_l_Some. eauto.
    + intros b c r Hb Hr. destruct (wf_all_fresh0 b c r Hb Hr) as [Hlt Hne].
      split; [rewrite length_app; lia|done].
    + intros p. rewrite wf_settled0.
      destruct (promises w !! p) eqn:E.
      * by rewrite (lookup_app_l_Some _ _ _ _ E).
      * rewrite (lookup_snoc_none _ _ _ E). by case_decide.
    + intros p e.
      destruct (promises w !! p) eqn:E.
      * rewrite (lookup_app_l_Some _ _ _ _ E). rewrite <- E. apply wf_norej0.
      * rewrite (lookup_snoc_none _ _ _ E). by case_decide.
  - intros b c Hb. specialize (Ha b c Hb). unfold all_ok in *. simpl.
    destruct (b_all c); [|done]. by apply lookup_app_l_Some.
Qed.

Lemma unowned_new_promise w :
  wf w → unowned (length (promises w)) (snd (new_promise w)).
Proof.
  intros [Hc Ha]. destruct Hc. split; [|split]; simpl.
  - apply lookup_snoc_eq.
  - intros i o Ho Hp. apply wf_pstate0 in Ho. apply lookup_lt_Some in Ho. lia.
  - intros b c Hb Hr. destruct (wf_all_fresh0 b c _ Hb Hr). lia.
Qed.

Lemma unowned_frame p w w' :
  ops w' = ops w → promises w' = promises w → batches w' = batches w →
  unowned p w → unowned p w'.
Proof. unfold unowned. by intros -> -> ->. Qed.

Lemma getLoader_tables t w :
  ops (snd (getLoader t w)) = ops w
  ∧ promises (snd (getLoader t w)) = promises w
  ∧ batches (snd (getLoader t w)) = batches w
  ∧ trace (snd (getLoader t w)) = trace w
  ∧ _resources (snd (getLoader t w)) = _resources w
  ∧ _pending (snd (getLoader t w)) = _pending w.
Proof. unfold getLoader. by destruct (_loaders w !! t). Qed.

Lemma wf_loader_load l path onP f p w :
  wf w → unowned p w → wf (loader_load l path onP (KLoad f) p w).
Proof.
  intros [Hc Ha] (Hp & Hops & Hall).
  assert (Hbo : ∀ b, batch_ops b (ops w ++ [
      {| op_loader := l; op_path := path; op_onProgress := onP;
         op_kont := KLoad f; op_promise := p; op_status_of := InFlight |}])
      = batch_ops b (ops w)) by (intros; by rewrite batch_ops_snoc).
  split.
  - destruct Hc. split; simpl; try done.
    + intros i j oi oj [[_ Hi]|[-> <-]]%lookup_snoc_Some
        [[_ Hj]|[-> <-]]%lookup_snoc_Some; simpl; try done; eauto.
      * intros E. by destruct (Hops _ _ Hi).
      * intros E. by destruct (Hops _ _ Hj).
    + intros i o [[_ Hi]|[-> <-]]%lookup_snoc_Some; simpl; eauto.
    + intros i o b [[_ Hi]|[-> <-]]%lookup_snoc_Some; simpl; eauto. done.
    + intros b c Hb. rewrite Hbo. eauto.
    + intros b c r Hb Hr. destruct (wf_all_fresh0 b c r Hb Hr) as [Hlt Hne].
      split; [done|].
      intros i o [[_ Hi]|[-> <-]]%lookup_snoc_Some; simpl; eauto.
      intros ->. by destruct (Hall b c Hb).
    + intros b c Hb. rewrite Hbo. eauto.
    + intros i. rewrite wf_errors0.
      destruct (ops w !! i) eqn:E.
      * by rewrite (lookup_app_l_Some _ _ _ _ E).
      * rewrite (lookup_snoc_none _ _ _ E). by case_decide.
  - intros b c Hb. specialize (Ha b c Hb). unfold all_ok, all_pstate in *.
    simpl. by rewrite Hbo.
Qed.

Lemma lookup_alter_batch (f : batch → batch) b (bs : list batch) b' c' :
  alter f b bs !! b' = Some c' →
  (b' = b ∧ ∃ c, bs !! b = Some c ∧ c' = f c) ∨ (b' ≠ b ∧ bs !! b' = Some c').
Proof.
  rewrite list_lookup_alter. case_decide as E.
  - subst. destruct (bs !! b') as [c|]; simpl; [|done].
    intros [= <-]. left. eauto.
  - intros H. right. split; [congruence|done].
Qed.

Lemma wf_create_batch_op l path f p b c w :
  wf w → unowned p w → batches w !! b = Some c → b_all c = None →
  wf (upd_batch b incr_total
        (upd_batch b (push_promise p)
           (loader_load l path None (KBatch b f) p w))).
Proof.
  intros [Hc Ha] (Hp & Hops & Hall) Hb Hnone.
  set (o := {| op_loader := l; op_path := path; op_onProgress := None;
               op_kont := KBatch b f; op_promise := p;
               op_status_of := InFlight |}).
  assert (Hbo : batch_ops b (ops w ++ [o]) = batch_ops b (ops w) ++ [o]).
  { rewrite batch_ops_snoc. unfold of_batch; simpl. by rewrite Nat.eqb_refl. }
  assert (Hbo' : ∀ b', b' ≠ b → batch_ops b' (ops w ++ [o]) = batch_ops b' (ops w)).
  { intros b' Hne. rewrite batch_ops_snoc. unfold of_batch; simpl.
    by destruct (Nat.eqb_spec b b'); [congruence|]. }
  pose proof (Ha b c Hb) as Hfl. unfold all_ok in Hfl. rewrite Hnone in Hfl.
  assert (Hprog : b_progress c = 0).
  { destruct Hc. rewrite (wf_progress_count0 b c Hb).
    destruct (b_onProgress c); [|done]. by rewrite all_in_flight_settled. }
  subst o. unfold upd_batch, loader_load; simpl. rewrite list_alter_alter_eq.
  split.
  - destruct Hc. split; simpl; try done.
    + intros i j oi oj [[_ Hi]|[-> <-]]%lookup_snoc_Some
        [[_ Hj]|[-> <-]]%lookup_snoc_Some; simpl; try done; eauto.
      * intros E. by destruct (Hops _ _ Hi).
      * intros E. by destruct (Hops _ _ Hj).
    + intros i o' [[_ Hi]|[-> <-]]%lookup_snoc_Some; simpl; eauto.
    + intros i o' b' [[_ Hi]|[-> <-]]%lookup_snoc_Some; rewrite length_alter;
        simpl; eauto.
      unfold of_batch; simpl. intros ->%Nat.eqb_eq. eauto using lookup_lt_Some.
    + intros b' c' [[-> (c0 & Hc0 & ->)]|[Hne Hb']]%lookup_alter_batch.
      * assert (c0 = c) as -> by congruence. simpl. rewrite Hbo.
        destruct (wf_batch0 b c Hb) as [-> ->].
        rewrite map_app, length_app. simpl. split; [done|lia].
      * rewrite Hbo' by done. eauto.
    + intros b' c' r [[-> (c0 & Hc0 & ->)]|[Hne Hb']]%lookup_alter_batch Hr.
      * assert (c0 = c) as -> by congruence. simpl in Hr. congruence.
      * destruct (wf_all_fresh0 b' c' r Hb' Hr) as [Hlt Hne'].
        split; [done|].
        intros i o' [[_ Hi]|[-> <-]]%lookup_snoc_Some; simpl; eauto.
        intros ->. by destruct (Hall b' c' Hb').
    + intros b1 b2 c1 c2 r
        [[-> (c0 & Hc0 & ->)]|[Hne1 Hb1]]%lookup_alter_batch
        [[-> (c0' & Hc0' & ->)]|[Hne2 Hb2]]%lookup_alter_batch; simpl;
        try done; try congruence; eauto.
    + intros b'. rewrite wf_progress0, list_lookup_alter.
      case_decide as E; [subst b'|done]. rewrite Hb. simpl.
      rewrite Hprog. by destruct (b_onProgress c).
    + intros b' c' [[-> (c0 & Hc0 & ->)]|[Hne Hb']]%lookup_alter_batch.
      * assert (c0 = c) as -> by congruence. simpl. rewrite Hbo, Hprog.
        rewrite List.filter_app. simpl. rewrite app_nil_r.
        by rewrite all_in_flight_settled; destruct (b_onProgress c).
      * rewrite Hbo' by done. eauto.
    + intros i. rewrite wf_errors0.
      destruct (ops w !! i) as [oi|] eqn:E.
      * rewrite (lookup_app_l_Some _ _ _ _ E).
        destruct (op_status_of oi); try done.
        unfold effective_onError. destruct (op_kont oi); [done|].
        unfold batch_onError; simpl. rewrite list_lookup_alter.
        case_decide; [subst|done]. by destruct (batches w !! batch0).
      * rewrite (lookup_snoc_none _ _ _ E). by case_decide.
  - intros b' c' [[-> (c0 & Hc0 & ->)]|[Hne Hb']]%lookup_alter_batch.
    + assert (c0 = c) as -> by congruence. unfold all_ok; simpl.
      rewrite Hnone, Hbo, forallb_app. simpl. by rewrite Hfl.
    + specialize (Ha b' c' Hb'). unfold all_ok, all_pstate in *. simpl.
      by rewrite Hbo'.
Qed.

(** *** The drain *)

Lemma draining_frame b w w' :
  batches w' = batches w → draining b w → draining b w'.
Proof. unfold draining. by intros ->. Qed.

Lemma draining_alter b f w :
  (∀ c, b_all (f c) = b_all c) → draining b w → draining b (upd_batch b f w).
Proof.
  intros Hf [(c & Hb & Hn) Ho]. split.
  - exists (f c). unfold upd_batch; simpl.
    rewrite list_lookup_alter_eq, Hb. simpl. by rewrite Hf.
  - intros b' c' Hne. unfold upd_batch; simpl.
    rewrite list_lookup_alter_ne by done. by apply Ho.
Qed.

Lemma wf_load_item b l w res :
  wf w ∧ draining b w → wf (_load_item b l w res) ∧ draining b (_load_item b l w res).
Proof.
  intros [Hw Hd]. unfold _load_item.
  destruct (_resources w !! item_path res) as [v|] eqn:E.
  - destruct (item_onLoad res) as [cb|]; simpl; [|done].
    split; [by apply wf_emit_onload|done].
  - unfold _createPromise. simpl.
    destruct Hd as [(c & Hb & Hn) Ho]. split.
    + apply (wf_create_batch_op _ _ _ _ _ c); try done.
      * apply (wf_new_promise (set_resources _ w)). by apply wf_set_resources.
      * apply (unowned_new_promise (set_resources _ w)).
        by apply wf_set_resources.
    + do 2 (apply draining_alter; [done|]). by split; [exists c|].
Qed.

Lemma wf_drain n b w :
  wf w ∧ draining b w → wf (drain n b w) ∧ draining b (drain n b w).
Proof.
  apply (drain_invariant (fun w => wf w ∧ draining b w)).
  - intros w' q [? ?]. split; [by apply wf_set_pending|done].
  - intros w' t [? ?]. split; [by apply wf_getLoader|].
    eapply draining_frame; [|done]. apply getLoader_tables.
  - intros w' l res. apply wf_load_item.
Qed.

(** Entering [loadPending]: the closure variables are allocated. *)
Lemma wf_new_batch c w :
  wf w → drained w → b_all c = None → b_promises c = [] → b_total c = 0 →
  b_progress c = 0 →
  let w' := set_batches (batches w ++ [c]) w in
  wf w' ∧ draining (length (batches w)) w'.
Proof.
  intros [Hc Ha] Hd Hn Hp Ht Hpr w'.
  assert (Hnil : batch_ops (length (batches w)) (ops w) = []).
  { apply batch_ops_nil. intros i o Ho.
    destruct (of_batch (length (batches w)) o) eqn:E; [|done].
    destruct Hc. pose proof (wf_kbatch0 _ _ _ Ho E). lia. }
  split; [split|].
  - destruct Hc. split; subst w'; simpl; try done.
    + intros i o b Ho Hb. rewrite length_app. simpl.
      pose proof (wf_kbatch0 _ _ _ Ho Hb). lia.
    + intros b c' [[_ Hb]|[-> <-]]%lookup_snoc_Some; eauto.
      by rewrite Hnil, Hp, Ht.
    + intros b c' r [[_ Hb]|[-> <-]]%lookup_snoc_Some; eauto. congruence.
    + intros b1 b2 c1 c2 r [[_ Hb1]|[-> <-]]%lookup_snoc_Some
        [[_ Hb2]|[-> <-]]%lookup_snoc_Some; eauto; congruence.
    + intros b. rewrite wf_progress0.
      destruct (batches w !! b) as [cb|] eqn:E.
      * by rewrite (lookup_app_l_Some _ _ _ _ E).
      * rewrite (lookup_snoc_none _ _ _ E). case_decide; [|done].
        rewrite Hpr. by destruct (b_onProgress c).
    + intros b c' [[_ Hb]|[-> <-]]%lookup_snoc_Some; eauto.
      rewrite Hnil, Hpr. by destruct (b_onProgress c).
    + intros i. rewrite wf_errors0. destruct (ops w !! i) as [o|] eqn:E; [|done].
      destruct (op_status_of o); try done.
      unfold effective_onError. destruct (op_kont o) as [|b f] eqn:Ek; [done|].
      unfold batch_onError. simpl.
      assert (b < length (batches w)) as Hlt.
      { apply (wf_kbatch0 i o b E). unfold of_batch. rewrite Ek.
        apply Nat.eqb_refl. }
      by rewrite lookup_app_l.
  - subst w'. intros b c' [[_ Hb]|[-> <-]]%lookup_snoc_Some.
    + by apply Ha.
    + unfold all_ok. simpl. by rewrite Hn, Hnil.
  - subst w'. split; simpl.
    + exists c. split; [apply lookup_snoc_eq|done].
    + intros b' c' Hne [[_ Hb]|[-> <-]]%lookup_snoc_Some; [eauto|done].
Qed.

(** *** The reaction of [Promise.all] *)

Lemma resolve_pending p v w :
  promises w !! p = Some Pending →
  resolve p v w
  = emit (EvSettled p v) (set_promises (<[p := Fulfilled v]> (promises w)) w).
Proof. intros H. unfold resolve. by rewrite H. Qed.

Lemma settle_calls_snoc p q v tr :
  settle_calls p (tr ++ [EvSettled q v])
  = settle_calls p tr ++ if decide (q = p) then [v] else [].
Proof.
  unfold settle_calls. rewrite omap_app. simpl.
  case_decide as E.
  - subst. by rewrite Nat.eqb_refl.
  - by destruct (Nat.eqb_spec q p).
Qed.

Lemma all_settle_wf b w :
  wf_pre b w → wf (all_settle b w).
Proof.
  intros (Hc & Ho & Hb). unfold all_settle.
  destruct (batches w !! b) as [c|] eqn:Ec.
  2:{ split; [done|]. intros b' c' Hb'. apply Ho; congruence. }
  destruct (Hb c eq_refl) as (r & Hr & Hpend). rewrite Hr.
  pose proof Hc as [].
  destruct (wf_batch0 b c Ec) as [Hproms Htot].
  assert (Hful : forallb (is_fulfilled (promises w)) (b_promises c)
                 = forallb settled (batch_ops b (ops w))).
  { rewrite Hproms. apply is_fulfilled_ops.
    intros o [(i & Hi)%list_elem_of_lookup _]%elem_of_batch_ops. eauto. }
  rewrite Hful.
  destruct (forallb settled (batch_ops b (ops w))) eqn:Hall.
  - rewrite resolve_pending by done.
    assert (Hval : map (fulfilled_value (promises w)) (b_promises c)
                   = map (fun _ => VUndefined) (batch_ops b (ops w))).
    { rewrite Hproms. apply (fulfilled_value_ops b); [|done].
      intros o [(i & Hi)%list_elem_of_lookup Hof]%elem_of_batch_ops. eauto. }
    rewrite Hval.
    destruct (wf_all_fresh0 b c r Ec Hr) as [Hlt Hfresh].
    split; [split|]; simpl; try done.
    + intros i o Hi. rewrite list_lookup_insert_ne; eauto.
      intros E. by destruct (Hfresh i o Hi).
    + intros b' c' r' Hb' Hr'. rewrite length_insert. eauto.
    + intros b'. unfold progress_calls. rewrite omap_app, app_nil_r.
      apply wf_progress0.
    + intros i. unfold error_calls. rewrite omap_app, app_nil_r.
      apply wf_errors0.
    + intros p. rewrite settle_calls_snoc, wf_settled0.
      case_decide as E.
      * subst. rewrite Hpend, list_lookup_insert_eq by done. done.
      * rewrite list_lookup_insert_ne by done. apply app_nil_r.
    + intros p e. destruct (decide (r = p)) as [->|Hne].
      * by rewrite list_lookup_insert_eq.
      * rewrite list_lookup_insert_ne by done. apply wf_norej0.
    + intros b' c' Hb'. destruct (decide (b' = b)) as [->|Hne].
      * assert (c' = c) as -> by congruence. unfold all_ok, all_pstate.
        simpl. rewrite Hr, Hall. by rewrite list_lookup_insert_eq.
      * specialize (Ho b' c' Hne Hb'). unfold all_ok in *. simpl.
        destruct (b_all c') as [r'|] eqn:Er'; [|done].
        rewrite list_lookup_insert_ne; [done|].
        intros ->. apply Hne. symmetry. by apply (wf_all_inj0 b b' c c' r').
  - split; [done|]. intros b' c' Hb'. destruct (decide (b' = b)) as [->|Hne].
    + assert (c' = c) as -> by congruence. unfold all_ok, all_pstate.
      by rewrite Hr, Hall.
    + by apply Ho.
Qed.

Lemma resolve_tables p v w :
  _loaders (resolve p v w) = _loaders w
  ∧ instances (resolve p v w) = instances w
  ∧ ops (resolve p v w) = ops w
  ∧ batches (resolve p v w) = batches w
  ∧ _resources (resolve p v w) = _resources w
  ∧ _pending (resolve p v w) = _pending w
  ∧ _onProgress (resolve p v w) = _onProgress w
  ∧ _onError (resolve p v w) = _onError w.
Proof. unfold resolve. by destruct (promises w !! p) as [[]|]. Qed.

Lemma all_settle_tables b w :
  _loaders (all_settle b w) = _loaders w
  ∧ instances (all_settle b w) = instances w
  ∧ ops (all_settle b w) = ops w
  ∧ batches (all_settle b w) = batches w
  ∧ _resources (all_settle b w) = _resources w
  ∧ _pending (all_settle b w) = _pending w
  ∧ _onProgress (all_settle b w) = _onProgress w
  ∧ _onError (all_settle b w) = _onError w.
Proof.
  unfold all_settle. destruct (batches w !! b) as [c|]; [|done].
  destruct (b_all c); [|done].
  destruct (forallb _ _); [|done]. apply resolve_tables.
Qed.

Lemma wf_promise_all b w :
  wf w → draining b w →
  wf (snd (promise_all b w)) ∧ drained (snd (promise_all b w)).
Proof.
  intros Hw [(c & Hb & Hn) Hd]. unfold promise_all. simpl.
  pose proof (wf_new_promise w Hw) as [Hc1 Ha1].
  pose proof (unowned_new_promise w Hw) as (Hp & Hops & Hall).
  set (r := length (promises w)) in *.
  set (w1 := set_promises (promises w ++ [Pending]) w) in *.
  simpl in Hc1, Ha1, Hp, Hops, Hall.
  change (snd (new_promise w)) with w1 in *.
  split.
  - apply all_settle_wf. split; [|split].
    + destruct Hc1. split; simpl; try done.
      * intros i o b' Ho Hb'. rewrite length_alter. eauto.
      * intros b' c' [[-> (c0 & Hc0 & ->)]|[Hne Hb']]%lookup_alter_batch;
          simpl; eauto.
      * intros b' c' r' [[-> (c0 & Hc0 & ->)]|[Hne Hb']]%lookup_alter_batch;
          simpl; eauto.
        intros [= <-]. split; [by eapply lookup_lt_Some|done].
      * intros b1 b2 c1 c2 r'
          [[-> (c0 & Hc0 & ->)]|[Hne1 Hb1]]%lookup_alter_batch
          [[-> (c0' & Hc0' & ->)]|[Hne2 Hb2]]%lookup_alter_batch; simpl;
          try done; eauto.
        -- intros [= <-] Hr. by destruct (Hall b2 c2 Hb2).
        -- intros Hr [= <-]. by destruct (Hall b1 c1 Hb1).
      * intros b'. rewrite wf_progress0, list_lookup_alter. simpl.
        case_decide; [subst|done]. by destruct (batches w !! b').
      * intros b' c' [[-> (c0 & Hc0 & ->)]|[Hne Hb']]%lookup_alter_batch;
          simpl; eauto.
      * intros i. rewrite wf_errors0. simpl.
        destruct (ops w !! i) as [o|]; [|done].
        destruct (op_status_of o); try done.
        unfold effective_onError. destruct (op_kont o); [done|].
        unfold batch_onError; simpl. rewrite list_lookup_alter.
        case_decide; [subst|done]. by destruct (batches w !! batch0).
    + intros b' c' Hne. unfold upd_batch; simpl.
      rewrite list_lookup_alter_ne by done. intros Hb'.
      apply (Ha1 b' c' Hb').
    + intros c'. unfold upd_batch; simpl. rewrite list_lookup_alter_eq.
      simpl in Hb. rewrite Hb. simpl. intros [= <-]. exists r. by split.
  - intros b' c'. destruct (all_settle_tables b (upd_batch b (set_all r) w1))
      as (_ & _ & _ & -> & _). unfold upd_batch; simpl.
    intros [[-> (c0 & Hc0 & ->)]|[Hne Hb']]%lookup_alter_batch; simpl; eauto.
Qed.

Lemma wf_loadPending config w :
  wf w → drained w →
  wf (snd (loadPending config w)) ∧ drained (snd (loadPending config w)).
Proof.
  intros Hw Hd. unfold loadPending.
  apply wf_promise_all; apply wf_drain;
    by apply (wf_new_batch _ w Hw Hd).
Qed.

Lemma wf_load t path onP onE w : wf w → wf (snd (load t path onP onE w)).
Proof.
  intros Hw. unfold load.
  pose proof (wf_new_promise w Hw) as Hw1.
  pose proof (unowned_new_promise w Hw) as Hu.
  simpl in *.
  destruct (_resources w !! path) as [v|] eqn:E; simpl.
  - destruct Hu as (Hp & Hops & Hall).
    rewrite resolve_pending by done.
    destruct Hw1 as [[] Ha]. simpl in *.
    split; [split|]; simpl; try done.
    + intros i o Ho. rewrite list_lookup_insert_ne; eauto.
      intros E'. by destruct (Hops i o Ho).
    + intros b c r Hb Hr. rewrite length_insert. eauto.
    + intros b. unfold progress_calls. rewrite omap_app, app_nil_r.
      apply wf_progress0.
    + intros i. unfold error_calls. rewrite omap_app, app_nil_r.
      apply wf_errors0.
    + intros p. rewrite settle_calls_snoc, wf_settled0.
      case_decide as E'.
      * subst. rewrite Hp, list_lookup_insert_eq; [done|].
        by eapply lookup_lt_Some.
      * rewrite list_lookup_insert_ne by done. apply app_nil_r.
    + intros p e. destruct (decide (length (promises w) = p)) as [<-|Hne].
      * rewrite list_lookup_insert_eq; [done|]. by eapply lookup_lt_Some.
      * rewrite list_lookup_insert_ne by done. apply wf_norej0.
    + intros b c Hb. specialize (Ha b c Hb). unfold all_ok in *. simpl.
      destruct (b_all c) as [r|] eqn:Er; [|done].
      rewrite list_lookup_insert_ne; [done|].
      intros <-. by destruct (Hall b c Hb).
  - set (w1 := set_resources _ _).
    assert (wf w1) as Hw2 by by apply wf_set_resources.
    assert (unowned (length (promises w)) w1) as Hu2 by done.
    pose proof (wf_getLoader t w1 Hw2) as Hw3.
    destruct (getLoader_tables t w1) as (Ho & Hp & Hb & _).
    destruct (getLoader t w1) as [l w3]; simpl in *.
    apply wf_loader_load; [done|]. by apply (unowned_frame _ w1).
Qed.

(** *** A handler of the loader, in closed form *)

Lemma in_flight_status o : in_flight o = true → op_status_of o = InFlight.
Proof. unfold in_flight. by destruct (op_status_of o). Qed.

Lemma in_flight_pending w id o :
  wf w → ops w !! id = Some o → in_flight o = true →
  promises w !! op_promise o = Some Pending.
Proof.
  intros [[] _] Ho Hf. rewrite (wf_pstate0 id o Ho).
  unfold op_pstate. by rewrite (in_flight_status o Hf).
Qed.

Lemma on_success_settle id result o w :
  wf w → ops w !! id = Some o → in_flight o = true →
  on_success id result w
  = react (op_kont o)
      (settle id o (Succeeded result)
         (<[op_path o := result]> (_resources w)) w).
Proof.
  intros Hw Ho Hf. pose proof (in_flight_pending w id o Hw Ho Hf) as Hp.
  unfold on_success. rewrite Ho, (in_flight_status o Hf).
  unfold settle, effective_onError, settle_prog, settle_batches.
  destruct (op_kont o) as [f|b f]; simpl.
  - rewrite resolve_pending by exact Hp. by apply world_eq.
  - f_equal. unfold report_progress. simpl.
    destruct (batches w !! b) as [c|]; simpl.
    + destruct (b_onProgress c) as [cb|]; destruct f as [g|]; simpl;
        rewrite resolve_pending by exact Hp; apply world_eq; simpl; try done;
        by rewrite <- ?app_assoc.
    + destruct f as [g|]; simpl;
        rewrite resolve_pending by exact Hp; apply world_eq; simpl; try done;
        by rewrite <- ?app_assoc.
Qed.

Lemma on_error_settle id e o w :
  wf w → ops w !! id = Some o → in_flight o = true →
  on_error id e w
  = react (op_kont o)
      (settle id o (Failed e) (delete (op_path o) (_resources w)) w).
Proof.
  intros Hw Ho Hf. pose proof (in_flight_pending w id o Hw Ho Hf) as Hp.
  unfold on_error. rewrite Ho, (in_flight_status o Hf).
  unfold settle, effective_onError, settle_prog, settle_batches.
  destruct (op_kont o) as [f|b f]; simpl.
  - destruct f as [g|]; simpl; rewrite resolve_pending by exact Hp;
      apply world_eq; simpl; try done; by rewrite <- ?app_assoc.
  - f_equal. unfold report_progress, batch_onError. simpl.
    destruct (batches w !! b) as [c|] eqn:Eb; simpl.
    + destruct (b_onError c) as [g|]; simpl; rewrite Eb;
        destruct (b_onProgress c) as [cb|];
        simpl; rewrite resolve_pending by exact Hp; apply world_eq; simpl;
        try done; by rewrite <- ?app_assoc.
    + rewrite Eb. rewrite resolve_pending by exact Hp. by apply world_eq.
Qed.

Lemma on_success_stale id result w :
  (∀ o, ops w !! id = Some o → in_flight o = false) →
  on_success id result w = w.
Proof.
  intros H. unfold on_success. destruct (ops w !! id) as [o|]; [|done].
  specialize (H o eq_refl). unfold in_flight in H.
  by destruct (op_status_of o).
Qed.

Lemma on_error_stale id e w :
  (∀ o, ops w !! id = Some o → in_flight o = false) →
  on_error id e w = w.
Proof.
  intros H. unfold on_error. destruct (ops w !! id) as [o|]; [|done].
  specialize (H o eq_refl). unfold in_flight in H.
  by destruct (op_status_of o).
Qed.

Lemma of_batch_kont_batch b o :
  of_batch b o = true ↔ kont_batch (op_kont o) = Some b.
Proof.
  unfold of_batch, kont_batch. destruct (op_kont o) as [|b' f]; [done|].
  rewrite Nat.eqb_eq. split; congruence.
Qed.

Lemma settle_batches_lookup k (bs : list batch) b' :
  settle_batches k bs !! b' = bumped k b' <$> bs !! b'.
Proof.
  unfold settle_batches, bumped. destruct k as [f|b f]; simpl.
  - by destruct (bs !! b').
  - destruct (bs !! b) as [c|] eqn:Eb.
    + destruct (b_onProgress c) as [cb|] eqn:Ecb.
      * rewrite list_lookup_alter. case_decide as E.
        -- subst b'. rewrite Eb. simpl. rewrite decide_True; [done|].
           rewrite Ecb. eauto.
        -- destruct (bs !! b'); simpl; [|done].
           rewrite decide_False; [done|]. intros [H _]. congruence.
      * destruct (bs !! b') as [c'|] eqn:Eb'; simpl; [|done].
        case_decide as H; [|done]. destruct H as [H [cb Hcb]].
        congruence.
    + destruct (bs !! b') as [c'|] eqn:Eb'; simpl; [|done].
      case_decide as H; [|done]. destruct H as [H _]. congruence.
Qed.

Lemma settle_batches_length k (bs : list batch) :
  length (settle_batches k bs) = length bs.
Proof.
  unfold settle_batches. destruct k as [f|b f]; [done|].
  destruct (bs !! b) as [c|]; [|done].
  destruct (b_onProgress c); [apply length_alter|done].
Qed.

Lemma bumped_static k b' c :
  b_onProgress (bumped k b' c) = b_onProgress c
  ∧ b_onError (bumped k b' c) = b_onError c
  ∧ b_promises (bumped k b' c) = b_promises c
  ∧ b_total (bumped k b' c) = b_total c
  ∧ b_all (bumped k b' c) = b_all c.
Proof. unfold bumped. by case_decide. Qed.

Lemma effective_onError_settle id o st m w o' :
  effective_onError (settle id o st m w) o' = effective_onError w o'.
Proof.
  unfold effective_onError, batch_onError. destruct (op_kont o'); [done|].
  simpl. rewrite settle_batches_lookup.
  destruct (batches w !! batch0); simpl; [|done]. apply bumped_static.
Qed.

Lemma settle_trace_progress b' id o st m w :
  progress_calls b' (trace (settle id o st m w))
  = progress_calls b' (trace w)
    ++ progress_calls b' (settle_prog (op_kont o) (batches w)).
Proof.
  unfold progress_calls; simpl. rewrite !omap_app. f_equal.
  assert (∀ f, omap (fun e => match e with
      | EvOnProgress b'0 cb k t => if b'0 =? b' then Some (cb, k, t) else None
      | _ => None end) (settle_err id st f) = []) as ->.
  { intros f. unfold settle_err. by destruct st, f. }
  assert (omap (fun e => match e with
      | EvOnProgress b'0 cb k t => if b'0 =? b' then Some (cb, k, t) else None
      | _ => None end) (settle_onload st (op_kont o)) = []) as ->.
  { unfold settle_onload. by destruct st, (op_kont o) as [|? [|]]. }
  simpl. by rewrite app_nil_r.
Qed.

Lemma settle_trace_errors j id o st m w :
  error_calls j (trace (settle id o st m w))
  = error_calls j (trace w)
    ++ error_calls j (settle_err id st (effective_onError w o)).
Proof.
  unfold error_calls; simpl. rewrite !omap_app. f_equal.
  assert (omap (fun e => match e with
      | EvOnError id' cb x => if id' =? j then Some (cb, x) else None
      | _ => None end) (settle_prog (op_kont o) (batches w)) = []) as ->.
  { unfold settle_prog. destruct (op_kont o); [done|].
    destruct (batches w !! batch0) as [c|]; [|done].
    by destruct (b_onProgress c). }
  assert (omap (fun e => match e with
      | EvOnError id' cb x => if id' =? j then Some (cb, x) else None
      | _ => None end) (settle_onload st (op_kont o)) = []) as ->.
  { unfold settle_onload. by destruct st, (op_kont o) as [|? [|]]. }
  simpl. by rewrite app_nil_r.
Qed.

Lemma settle_trace_settled q id o st m w :
  settle_calls q (trace (settle id o st m w))
  = settle_calls q (trace w)
    ++ if decide (op_promise o = q)
       then [settle_value st (op_kont o)] else [].
Proof.
  simpl. rewrite !app_assoc, settle_calls_snoc. f_equal.
  unfold settle_calls. rewrite !omap_app.
  assert (∀ f, omap (fun e => match e with
      | EvSettled p' v => if p' =? q then Some v else None
      | _ => None end) (settle_err id st f) = []) as ->.
  { intros f. unfold settle_err. by destruct st, f. }
  assert (omap (fun e => match e with
      | EvSettled p' v => if p' =? q then Some v else None
      | _ => None end) (settle_prog (op_kont o) (batches w)) = []) as ->.
  { unfold settle_prog. destruct (op_kont o); [done|].
    destruct (batches w !! batch0) as [c|]; [|done].
    by destruct (b_onProgress c). }
  assert (omap (fun e => match e with
      | EvSettled p' v => if p' =? q then Some v else None
      | _ => None end) (settle_onload st (op_kont o)) = []) as ->.
  { unfold settle_onload. by destruct st, (op_kont o) as [|? [|]]. }
  by rewrite !app_nil_r.
Qed.

Lemma progress_calls_settle_prog b' k (bs : list batch) :
  progress_calls b' (settle_prog k bs)
  = match bs !! b' with
    | Some c =>
        if decide (kont_batch k = Some b')
        then match b_onProgress c with
             | Some cb => [(cb, S (b_progress c), b_total c)]
             | None => []
             end
        else []
    | None => []
    end.
Proof.
  unfold settle_prog. destruct k as [f|b f]; simpl.
  - by destruct (bs !! b').
  - destruct (decide (b = b')) as [->|Hne].
    + destruct (bs !! b') as [c|]; [|done]. rewrite decide_True by done.
      destruct (b_onProgress c); [|done]. simpl. by rewrite Nat.eqb_refl.
    + assert (progress_calls b'
        match bs !! b with
        | Some c => match b_onProgress c with
                    | Some cb => [EvOnProgress b cb (S (b_progress c)) (b_total c)]
                    | None => []
                    end
        | None => []
        end = []) as ->.
      { destruct (bs !! b) as [c|]; [|done].
        destruct (b_onProgress c); [|done]. simpl.
        by destruct (Nat.eqb_spec b b'). }
      destruct (bs !! b'); [|done]. rewrite decide_False; [done|congruence].
Qed.

Lemma error_calls_settle_err j id st f :
  error_calls j (settle_err id st f)
  = if decide (id = j)
    then match st, f with Failed e, Some cb => [(cb, e)] | _, _ => [] end
    else [].
Proof.
  unfold settle_err. destruct st as [| |e], f as [cb|]; simpl;
    try by case_decide.
  case_decide as E.
  - subst. by rewrite Nat.eqb_refl.
  - by destruct (Nat.eqb_spec id j).
Qed.

Lemma map_seq_snoc {A} (f : nat → A) n :
  map f (seq 1 (S n)) = map f (seq 1 n) ++ [f (S n)].
Proof. by rewrite seq_S, map_app. Qed.

Lemma wf_core_settle id o st m w :
  wf w → ops w !! id = Some o → in_flight o = true → st ≠ InFlight →
  wf_core (settle id o st m w).
Proof.
  intros Hw Ho Hf Hst.
  pose proof (in_flight_pending w id o Hw Ho Hf) as Hp.
  pose proof (lookup_lt_Some _ _ _ Hp) as Hplt.
  destruct Hw as [[] Ha].
  assert (Hne : ∀ i oi, i ≠ id → ops w !! i = Some oi →
                        op_promise oi ≠ op_promise o).
  { intros i oi Hi Hoi E. apply Hi. by apply (wf_inj0 i id oi o). }
  split.
  - done.
  - simpl. intros i j oi oj
      [[-> ->]|[Hi Hoi]]%(lookup_insert_status _ _ _ _ _ _ Ho)
      [[-> ->]|[Hj Hoj]]%(lookup_insert_status _ _ _ _ _ _ Ho); simpl;
      eauto.
  - simpl. intros i oi [[-> ->]|[Hi Hoi]]%(lookup_insert_status _ _ _ _ _ _ Ho).
    + simpl. rewrite list_lookup_insert_eq by done. f_equal.
      unfold op_pstate, settle_value. simpl.
      by destruct st, (op_kont o).
    + rewrite list_lookup_insert_ne by (apply not_eq_sym; eauto). eauto.
  - simpl. intros i oi b.
    rewrite settle_batches_length.
    intros [[-> ->]|[Hi Hoi]]%(lookup_insert_status _ _ _ _ _ _ Ho); eauto.
  - simpl. intros b c. rewrite settle_batches_lookup.
    destruct (batches w !! b) as [c0|] eqn:E; simpl; [|done]. intros [= <-].
    destruct (bumped_static (op_kont o) b c0) as (_ & _ & -> & -> & _).
    rewrite batch_ops_insert_promises, batch_ops_insert_length by done. eauto.
  - simpl. intros b c r. rewrite settle_batches_lookup.
    destruct (batches w !! b) as [c0|] eqn:E; simpl; [|done]. intros [= <-].
    destruct (bumped_static (op_kont o) b c0) as (_ & _ & _ & _ & ->).
    intros Hr. destruct (wf_all_fresh0 b c0 r E Hr) as [Hlt Hfresh].
    rewrite length_insert. split; [done|].
    intros i oi [[-> ->]|[Hi Hoi]]%(lookup_insert_status _ _ _ _ _ _ Ho);
      simpl; eauto.
  - simpl. intros b b' c c' r. rewrite !settle_batches_lookup.
    destruct (batches w !! b) as [c0|] eqn:E; simpl; [|done]. intros [= <-].
    destruct (batches w !! b') as [c0'|] eqn:E'; simpl; [|done]. intros [= <-].
    destruct (bumped_static (op_kont o) b c0) as (_ & _ & _ & _ & ->).
    destruct (bumped_static (op_kont o) b' c0') as (_ & _ & _ & _ & ->).
    eauto.
  - intros b. rewrite settle_trace_progress, progress_calls_settle_prog.
    rewrite wf_progress0. simpl. rewrite settle_batches_lookup.
    destruct (batches w !! b) as [c|] eqn:E; simpl; [|done].
    unfold bumped. destruct (decide (kont_batch (op_kont o) = Some b)) as [Hk|Hk].
    + destruct (b_onProgress c) as [cb|] eqn:Ecb.
      * rewrite decide_True by eauto. simpl. rewrite Ecb.
        symmetry. apply (map_seq_snoc (fun k => (cb, k, b_total c))).
      * rewrite decide_False by (intros [_ [? ?]]; done). by rewrite Ecb.
    + rewrite decide_False by (intros [? _]; done). by rewrite app_nil_r.
  - simpl. intros b c. rewrite settle_batches_lookup.
    destruct (batches w !! b) as [c0|] eqn:E; simpl; [|done]. intros [= <-].
    unfold bumped. case_decide as Hd.
    + destruct Hd as [Hk [cb Hcb]]. simpl. rewrite Hcb.
      rewrite settled_count_insert; try done.
      * by rewrite (wf_progress_count0 b c0 E), Hcb.
      * by apply of_batch_kont_batch.
    + rewrite (wf_progress_count0 b c0 E).
      destruct (b_onProgress c0) as [cb|] eqn:Ecb; [|done].
      rewrite batch_ops_insert_other; try done.
      destruct (of_batch b o) eqn:Eo; [|done].
      apply of_batch_kont_batch in Eo. destruct Hd. eauto.
  - intros j. rewrite settle_trace_errors, error_calls_settle_err.
    rewrite wf_errors0. simpl. case_decide as E.
    + subst j. rewrite Ho, list_lookup_insert_eq by eauto using lookup_lt_Some.
      rewrite (in_flight_status o Hf). simpl.
      change (effective_onError (settle id o st m w) (set_status st o))
        with (effective_onError (settle id o st m w) o).
      rewrite effective_onError_settle. by destruct st.
    + rewrite list_lookup_insert_ne by done. rewrite app_nil_r.
      destruct (ops w !! j) as [oj|]; [|done].
      by rewrite effective_onError_settle.
  - intros q. rewrite settle_trace_settled, wf_settled0. simpl.
    case_decide as E.
    + subst q. by rewrite Hp, list_lookup_insert_eq.
    + rewrite list_lookup_insert_ne by done. by rewrite app_nil_r.
  - simpl. intros q e. destruct (decide (op_promise o = q)) as [<-|E].
    + by rewrite list_lookup_insert_eq.
    + rewrite list_lookup_insert_ne by done. apply wf_norej0.
Qed.

Lemma all_ok_settle_other id o st m w b c :
  wf w → ops w !! id = Some o → in_flight o = true →
  of_batch b o = false → batches w !! b = Some c →
  all_ok (settle id o st m w) b (bumped (op_kont o) b c).
Proof.
  intros Hw Ho Hf Hb Hc.
  pose proof (in_flight_pending w id o Hw Ho Hf) as Hp.
  destruct Hw as [[] Ha]. specialize (Ha b c Hc).
  unfold all_ok, all_pstate in *. simpl.
  destruct (bumped_static (op_kont o) b c) as (_ & _ & _ & _ & ->).
  rewrite batch_ops_insert_other by done.
  destruct (b_all c) as [r|] eqn:Er; [|done].
  rewrite list_lookup_insert_ne; [done|].
  destruct (wf_all_fresh0 b c r Hc Er) as [_ Hfresh]. eauto.
Qed.

Lemma drained_settle id o st m w :
  drained w → drained (react (op_kont o) (settle id o st m w)).
Proof.
  intros Hd b c.
  assert (batches (react (op_kont o) (settle id o st m w))
          = settle_batches (op_kont o) (batches w)) as ->.
  { unfold react. destruct (op_kont o) eqn:Ek; simpl; [by rewrite Ek|].
    destruct (all_settle_tables batch0 (settle id o st m w))
      as (_ & _ & _ & -> & _). simpl. by rewrite Ek. }
  rewrite settle_batches_lookup.
  destruct (batches w !! b) as [c0|] eqn:E; simpl; [|done]. intros [= <-].
  destruct (bumped_static (op_kont o) b c0) as (_ & _ & _ & _ & ->). eauto.
Qed.

Lemma wf_settle id o st m w :
  wf w → drained w → ops w !! id = Some o → in_flight o = true →
  st ≠ InFlight →
  wf (react (op_kont o) (settle id o st m w)).
Proof.
  intros Hw Hd Ho Hf Hst.
  pose proof (wf_core_settle id o st m w Hw Ho Hf Hst) as Hcore.
  pose proof (in_flight_pending w id o Hw Ho Hf) as Hp.
  destruct (op_kont o) as [f|b f] eqn:Ek; simpl.
  - split; [done|]. intros b c. simpl. rewrite settle_batches_lookup.
    destruct (batches w !! b) as [c0|] eqn:E; simpl; [|done]. intros [= <-].
    apply all_ok_settle_other; try done.
    unfold of_batch. by rewrite Ek.
  - assert (Hof : of_batch b o = true).
    { unfold of_batch. rewrite Ek. apply Nat.eqb_refl. }
    apply all_settle_wf. split; [done|split].
    + intros b' c Hne. simpl. rewrite settle_batches_lookup.
      destruct (batches w !! b') as [c0|] eqn:E; simpl; [|done]. intros [= <-].
      apply all_ok_settle_other; try done.
      unfold of_batch. rewrite Ek. by destruct (Nat.eqb_spec b b'); [congruence|].
    + intros c. simpl. rewrite settle_batches_lookup.
      destruct (batches w !! b) as [c0|] eqn:E; simpl; [|done]. intros [= <-].
      destruct (bumped_static (op_kont o) b c0) as (_ & _ & _ & _ & ->).
      destruct (Hd b c0 E) as [r Hr]. exists r. split; [done|].
      destruct Hw as [[] Ha]. specialize (Ha b c0 E).
      unfold all_ok, all_pstate in Ha. rewrite Hr in Ha.
      rewrite (in_flight_forallb_false b _ id o Ho Hof Hf) in Ha.
      rewrite list_lookup_insert_ne; [done|].
      destruct (wf_all_fresh0 b c0 r E Hr) as [_ Hfresh]. eauto.
Qed.

Lemma wf_on_success id result w :
  wf w → drained w →
  wf (on_success id result w) ∧ drained (on_success id result w).
Proof.
  intros Hw Hd. destruct (ops w !! id) as [o|] eqn:Ho.
  - destruct (in_flight o) eqn:Hf.
    + rewrite (on_success_settle id result o w) by done.
      split; [by apply wf_settle|by apply drained_settle].
    + rewrite on_success_stale; [done|]. congruence.
  - rewrite on_success_stale; [done|]. congruence.
Qed.

Lemma wf_on_error id e w :
  wf w → drained w →
  wf (on_error id e w) ∧ drained (on_error id e w).
Proof.
  intros Hw Hd. destruct (ops w !! id) as [o|] eqn:Ho.
  - destruct (in_flight o) eqn:Hf.
    + rewrite (on_error_settle id e o w) by done.
      split; [by apply wf_settle|by apply drained_settle].
    + rewrite on_error_stale; [done|]. congruence.
  - rewrite on_error_stale; [done|]. congruence.
Qed.

Lemma wf_on_progress id ev w : wf w → wf (on_progress id ev w).
Proof.
  intros Hw. unfold on_progress. destruct (ops w !! id) as [o|]; [|done].
  destruct (op_status_of o); try done.
  destruct (op_onProgress o); simpl; [|done].
  by apply wf_emit_loader_progress.
Qed.

Lemma drained_frame w w' : batches w' = batches w → drained w → drained w'.
Proof. unfold drained. by intros ->. Qed.

Lemma remove_tables ps w :
  _loaders (remove ps w) = _loaders w ∧ instances (remove ps w) = instances w
  ∧ ops (remove ps w) = ops w ∧ promises (remove ps w) = promises w
  ∧ batches (remove ps w) = batches w ∧ trace (remove ps w) = trace w
  ∧ _pending (remove ps w) = _pending w.
Proof.
  unfold remove. revert w. induction ps as [|p ps IH]; intros w; simpl; [done|].
  destruct (IH (set_resources (delete p (_resources w)) w))
    as (-> & -> & -> & -> & -> & -> & ->). done.
Qed.

Lemma load_batches t path onP onE w :
  batches (snd (load t path onP onE w)) = batches w.
Proof.
  unfold load. simpl. destruct (_resources w !! path); simpl.
  - by destruct (resolve_tables (length (promises w)) v
      (set_promises (promises w ++ [Pending]) w)) as (_ & _ & _ & -> & _).
  - unfold getLoader; simpl. by destruct (_loaders w !! t).
Qed.

Lemma on_progress_batches id ev w : batches (on_progress id ev w) = batches w.
Proof.
  unfold on_progress. destruct (ops w !! id) as [o|]; [|done].
  destruct (op_status_of o); try done. by destruct (op_onProgress o).
Qed.

(** The invariant holds between any two actions of an execution. *)
Lemma wf_step w a : wf w ∧ drained w → wf (step w a) ∧ drained (step w a).
Proof.
  intros [Hw Hd]. destruct a; simpl.
  - split; [by apply wf_set_resources|done].
  - done.
  - split; [by apply wf_remove|].
    eapply drained_frame; [|done]. apply remove_tables.
  - split; [by apply wf_getLoader|].
    eapply drained_frame; [|done]. apply getLoader_tables.
  - split; [by apply wf_removeLoader|done].
  - split; [by apply (wf_frame w)|done].
  - split; [by apply (wf_frame w)|done].
  - split; [by apply wf_load|].
    eapply drained_frame; [|done]. apply load_batches.
  - split; [by apply wf_set_pending|done].
  - by apply wf_loadPending.
  - by apply wf_on_success.
  - by apply wf_on_error.
  - split; [by apply wf_on_progress|].
    eapply drained_frame; [|done]. apply on_progress_batches.
Qed.

Lemma run_app acts1 acts2 w : run (acts1 ++ acts2) w = run acts2 (run acts1 w).
Proof. apply fold_left_app. Qed.

Lemma run_snoc acts a w : run (acts ++ [a]) w = step (run acts w) a.
Proof. by rewrite run_app. Qed.

Lemma wf_run acts w : wf w ∧ drained w → wf (run acts w) ∧ drained (run acts w).
Proof.
  revert w. induction acts as [|a acts IH]; intros w H; simpl; [done|].
  by apply IH, wf_step.
Qed.

Lemma wf_reachable acts : wf (run acts init) ∧ drained (run acts init).
Proof. apply wf_run. split; [apply wf_init|apply drained_init]. Qed.

(** ** What one drain does *)

Lemma drain_rel_refl b w : drain_rel b w w.
Proof.
  apply (DrainRel b w w [] []); try done.
  - by rewrite app_nil_r.
  - by rewrite app_nil_r.
  - intros c0 H. exists c0. simpl. rewrite app_nil_r. repeat split; try done.
Qed.

Lemma drain_rel_frame b w0 w w' :
  ops w' = ops w → trace w' = trace w → batches w' = batches w →
  promises w' = promises w → _resources w' = _resources w →
  _onProgress w' = _onProgress w → _onError w' = _onError w →
  drain_rel b w0 w → drain_rel b w0 w'.
Proof.
  intros Ho Ht Hb Hp Hr Hd1 Hd2 [new evs].
  apply (DrainRel b w0 w' new evs);
    rewrite ?Ho, ?Ht, ?Hb, ?Hp, ?Hr, ?Hd1, ?Hd2; done.
Qed.

Lemma drain_rel_item b l res w0 w :
  drain_rel b w0 w → drain_rel b w0 (_load_item b l w res).
Proof.
  intros [new evs]. unfold _load_item.
  destruct (_resources w !! item_path res) as [v|] eqn:E.
  - destruct (item_onLoad res) as [cb|]; simpl.
    + apply (DrainRel b w0 _ new (evs ++ [EvOnLoad b cb v])); simpl; try done.
      * by rewrite dr_trace, app_assoc.
      * apply Forall_app. split; [done|]. constructor; [|done].
        by exists cb, v.
    + by apply (DrainRel b w0 _ new evs).
  - unfold _createPromise, upd_batch, loader_load. simpl.
    rewrite list_alter_alter_eq.
    set (o := {| op_loader := l; op_path := item_path res;
                 op_onProgress := None;
                 op_kont := KBatch b (item_onLoad res);
                 op_promise := length (promises w);
                 op_status_of := InFlight |}).
    apply (DrainRel b w0 _ (new ++ [o]) evs); simpl; try done.
    + by rewrite dr_ops, app_assoc.
    + apply Forall_app. split; [done|]. constructor; [|done].
      unfold of_batch; simpl. rewrite Nat.eqb_refl. repeat split; try done.
      destruct (_resources w0 !! item_path res) as [v|] eqn:E0; [|done].
      apply dr_resources in E0. congruence.
    + apply Forall_app. split.
      * eapply Forall_impl; [done|]. simpl. intros o' Ho'.
        by apply lookup_app_l_Some.
      * constructor; [|done]. simpl. apply lookup_snoc_eq.
    + intros c0 H0. destruct (dr_batch c0 H0) as (c' & Hc' & ? & ? & ? & ? & Ht & Hp).
      exists (incr_total (push_promise (length (promises w)) c')).
      rewrite list_lookup_alter_eq, Hc'. simpl.
      rewrite Ht, Hp, length_app, map_app. simpl.
      repeat split; try done; [lia|by rewrite app_assoc].
    + intros b' Hne. rewrite list_lookup_alter_ne by done. eauto.
    + intros p s Hp. apply lookup_app_l_Some. eauto.
    + intros p v Hp. apply dr_resources in Hp.
      rewrite lookup_insert_ne; [done|]. congruence.
Qed.

Lemma drain_rel_drain b n w : drain_rel b w (drain n b w).
Proof.
  apply (drain_invariant (drain_rel b w)).
  - intros w' q. by apply drain_rel_frame.
  - intros w' t. destruct (getLoader_tables t w') as (? & ? & ? & ? & ? & ?).
    apply drain_rel_frame; try done; unfold getLoader;
      by destruct (_loaders w' !! t).
  - intros w' l res. apply drain_rel_item.
  - apply drain_rel_refl.
Qed.

Lemma drain_pending_empty b w :
  _pending (drain (length (_pending w)) b w) = [].
Proof. by rewrite drain_fold. Qed.

(** The state a [loadPending] call returns in. *)
Lemma loadPending_spec config w :
  let b := length (batches w) in
  let r := fst (loadPending config w) in
  let w1 := snd (loadPending config w) in
  ∃ new evs c1,
    ops w1 = ops w ++ new
    ∧ Forall (fun o => of_batch b o = true ∧ in_flight o = true
                       ∧ op_onProgress o = None
                       ∧ _resources w !! op_path o = None) new
    ∧ Forall (is_onload_of b) evs
    ∧ trace w1 = trace w ++ evs
                 ++ match new with [] => [EvSettled r (VArray [])] | _ => [] end
    ∧ promises w1 !! r
      = Some match new with [] => Fulfilled (VArray []) | _ => Pending end
    ∧ batches w1 !! b = Some c1
    ∧ b_onProgress c1 = nullish_or (cfg_onProgress config) (_onProgress w)
    ∧ b_onError c1 = nullish_or (cfg_onError config) (_onError w)
    ∧ b_all c1 = Some r ∧ b_total c1 = length new ∧ b_progress c1 = 0
    ∧ (∀ b' c, batches w !! b' = Some c → batches w1 !! b' = Some c)
    ∧ (∀ p v, _resources w !! p = Some v → _resources w1 !! p = Some v)
    ∧ _pending w1 = [].
Proof.
  intros b r w1.
  set (c0 := {| b_onProgress := nullish_or (cfg_onProgress config) (_onProgress w);
                b_onError := nullish_or (cfg_onError config) (_onError w);
                b_promises := []; b_total := 0; b_progress := 0;
                b_all := None |}).
  set (wb := set_batches (batches w ++ [c0]) w).
  pose proof (drain_rel_drain b (length (_pending wb)) wb) as [new evs].
  pose proof (drain_pending_empty b wb) as Hq.
  set (wd := drain (length (_pending wb)) b wb) in *.
  destruct (dr_batch c0) as (c' & Hc' & HoP & HoE & Hall & Hprog & Htot & Hproms).
  { subst wb b. simpl. apply lookup_snoc_eq. }
  simpl in dr_ops, dr_trace, HoP, HoE, Hall, Hprog, Htot, Hproms.
  set (wr := upd_batch b (set_all (length (promises wd)))
               (set_promises (promises wd ++ [Pending]) wd)).
  assert (Heq : loadPending config w = (length (promises wd), all_settle b wr))
    by reflexivity.
  subst r w1. rewrite Heq. cbn [fst snd]. clear Heq.
  set (r := length (promises wd)) in *.
  assert (Hbr : batches wr !! b = Some (set_all r c')).
  { subst wr. unfold upd_batch; simpl. by rewrite list_lookup_alter_eq, Hc'. }
  assert (Hpr : promises wr !! r = Some Pending) by apply lookup_snoc_eq.
  assert (Hful : forallb (is_fulfilled (promises wr)) (b_promises c')
                 = match new with [] => true | _ => false end).
  { rewrite Hproms. destruct new as [|o new]; [done|]. simpl.
    apply Forall_cons in dr_new_pending as [Ho _].
    unfold is_fulfilled. simpl.
    by rewrite (lookup_app_l_Some _ _ _ _ Ho). }
  destruct (all_settle_tables b wr) as (_ & _ & Eo & Eb & Er & Ep & _).
  exists new, evs, (set_all r c').
  rewrite Eo, Eb, Er, Ep.
  assert (Hs : all_settle b wr
    = match new with
      | [] => emit (EvSettled r (VArray []))
                (set_promises (<[r := Fulfilled (VArray [])]> (promises wr)) wr)
      | _ => wr
      end).
  { unfold all_settle. rewrite Hbr. cbn [set_all b_all b_promises].
    rewrite Hful.
    destruct new; [|done]. rewrite resolve_pending by done.
    simpl in Hproms. by rewrite Hproms. }
  repeat split; try done.
  - rewrite Hs. destruct new; simpl; rewrite dr_trace;
      by rewrite <- ?app_assoc, ?app_nil_r.
  - rewrite Hs. destruct new; simpl; [|done].
    apply list_lookup_insert_eq. by eapply lookup_lt_Some.
  - intros b' c Hb'. unfold upd_batch; simpl.
    assert (b' ≠ b) as Hne.
    { apply lookup_lt_Some in Hb'. subst b. lia. }
    rewrite list_lookup_alter_ne by done. rewrite dr_others by done.
    subst wb. simpl. by apply lookup_app_l_Some.
Qed.

Lemma drain_rel_fold b l items w0 w :
  drain_rel b w0 w → drain_rel b w0 (fold_left (_load_item b l) items w).
Proof.
  revert w. induction items as [|res items IH]; intros w H; simpl; [done|].
  by apply IH, drain_rel_item.
Qed.

Lemma drain_rel_trace b w0 w :
  drain_rel b w0 w → ∃ evs, trace w = trace w0 ++ evs.
Proof. intros [new evs]. eauto. Qed.

Lemma drain_rel_resources b w0 w p v :
  drain_rel b w0 w → _resources w0 !! p = Some v → _resources w !! p = Some v.
Proof. intros [new evs]. eauto. Qed.

(** An entry whose path is cached has its [onLoad] called with the cached
    value while the loop runs. *)
Lemma fold_items_onload b l items w path v cb :
  _resources w !! path = Some v →
  RConfig path (Some cb) ∈ items →
  ∃ evs, trace (fold_left (_load_item b l) items w) = trace w ++ evs
         ∧ EvOnLoad b cb v ∈ evs.
Proof.
  revert w. induction items as [|res items IH]; intros w Hv Hin.
  - by apply elem_of_nil in Hin.
  - simpl. apply elem_of_cons in Hin as [<-|Hin].
    + unfold _load_item at 2. simpl. rewrite Hv. simpl.
      destruct (drain_rel_trace b _ _
        (drain_rel_fold b l items _ _ (drain_rel_refl b
           (emit (EvOnLoad b cb v) w)))) as [evs Hevs].
      exists (EvOnLoad b cb v :: evs). split; [|by left].
      rewrite Hevs. simpl. by rewrite <- app_assoc.
    + pose proof (drain_rel_item b l res w w (drain_rel_refl b w)) as Hr.
      destruct (drain_rel_trace _ _ _ Hr) as [evs1 Hevs1].
      destruct (IH (_load_item b l w res)) as (evs & Hevs & Hev); [|done|].
      { by apply (drain_rel_resources b w). }
      exists (evs1 ++ evs). split.
      * by rewrite Hevs, Hevs1, app_assoc.
      * apply elem_of_app. by right.
Qed.

Lemma promise_all_trace b w :
  ∃ evs, trace (snd (promise_all b w)) = trace w ++ evs.
Proof.
  unfold promise_all. simpl. unfold all_settle. simpl.
  destruct (alter _ _ _ !! b) as [c|]; [|by exists []; rewrite app_nil_r].
  destruct (b_all c); [|by exists []; rewrite app_nil_r].
  destruct (forallb _ _); [|by exists []; rewrite app_nil_r].
  unfold resolve. simpl.
  destruct (_ !! p) as [[| |]|]; simpl; eauto; by exists []; rewrite app_nil_r.
Qed.

(** [preload] then [loadPending]: the request just queued is the first one
    the loop pops. *)
Lemma loadPending_preload_onload config t items w path v cb :
  _resources w !! path = Some v →
  RConfig path (Some cb) ∈ items →
  ∃ evs, trace (snd (loadPending config (preload t items w))) = trace w ++ evs
         ∧ EvOnLoad (length (batches w)) cb v ∈ evs.
Proof.
  intros Hv Hin. unfold loadPending.
  set (b := length (batches (preload t items w))).
  set (wb := set_batches _ _).
  assert (Hq : _pending wb = _pending w ++ [{| loader := t; paths := items |}])
    by done.
  assert (Hd : ∃ n w', drain (length (_pending wb)) b wb = drain n b w'
    ∧ ∃ evs, trace w' = trace w ++ evs ∧ EvOnLoad b cb v ∈ evs).
  { rewrite Hq, length_app, Nat.add_comm. cbn [length Nat.add drain].
    rewrite Hq, pop_snoc.
    eexists _, _. split; [done|]. unfold _load. cbn [loader paths].
    destruct (getLoader_tables t (set_pending (_pending w) wb))
      as (_ & _ & _ & Ht & Hr & _).
    destruct (getLoader t (set_pending (_pending w) wb)) as [l wl].
    cbn [snd] in Ht, Hr.
    destruct (fold_items_onload b l items wl path v cb) as (evs & Hevs & Hev);
      [by rewrite Hr|done|].
    exists evs. by rewrite Hevs, Ht. }
  destruct Hd as (n & w' & -> & evs & Hevs & Hev).
  destruct (drain_rel_trace b _ _ (drain_rel_drain b n w')) as [evs2 Hevs2].
  destruct (promise_all_trace b (drain n b w')) as [evs3 Hevs3].
  exists (evs ++ evs2 ++ evs3). split.
  - by rewrite Hevs3, Hevs2, Hevs, <- !app_assoc.
  - apply elem_of_app. by left.
Qed.

Lemma load_cached t path onP onE w v :
  _resources w !! path = Some v →
  load t path onP onE w
  = (length (promises w),
     emit (EvSettled (length (promises w)) v)
       (set_promises (promises w ++ [Fulfilled v]) w)).
Proof.
  intros H. unfold load. simpl. rewrite H. f_equal.
  rewrite resolve_pending by apply lookup_snoc_eq.
  simpl. by rewrite insert_snoc.
Qed.

Lemma load_uncached t path onP onE w :
  _resources w !! path = None →
  ∃ l w',
    load t path onP onE w = (length (promises w), w')
    ∧ ops w' = ops w ++ [{| op_loader := l; op_path := path;
                            op_onProgress := onP; op_kont := KLoad onE;
                            op_promise := length (promises w);
                            op_status_of := InFlight |}]
    ∧ promises w' = promises w ++ [Pending]
    ∧ _resources w' = <[path := VNull]> (_resources w)
    ∧ trace w' = trace w ∧ batches w' = batches w
    ∧ _pending w' = _pending w.
Proof.
  intros H. unfold load. simpl. rewrite H.
  unfold getLoader. simpl.
  destruct (_loaders w !! t) as [l|]; simpl; eexists _, _; by repeat split.
Qed.

(** ** The scenarios of the specification, run on the model *)

(** Scenario A: two paths, both loads succeed. *)
Example scenario_A :
  let w := run [Preload 0 [RPath "a.obj"; RPath "b.obj"];
                LoadPending {| cfg_onProgress := Some 7; cfg_onError := None |};
                LoaderSuccess 0 (VObj 10); LoaderSuccess 1 (VObj 11)] init in
  get "a.obj" w = VObj 10 ∧ get "b.obj" w = VObj 11
  ∧ progress_calls 0 (trace w) = [(7, 1, 2); (7, 2, 2)]
  ∧ promises w !! 2 = Some (Fulfilled (VArray [VUndefined; VUndefined])).
Proof. by vm_compute. Qed.

(** Scenario B: one path, the loader reports an error. *)
Example scenario_B :
  let w := run [Preload 0 [RPath "a.obj"];
                LoadPending {| cfg_onProgress := Some 7; cfg_onError := Some 8 |};
                LoaderError 0 (VObj 13)] init in
  get "a.obj" w = VUndefined ∧ _resources w !! "a.obj" = None
  ∧ error_calls 0 (trace w) = [(8, VObj 13)]
  ∧ progress_calls 0 (trace w) = [(7, 1, 1)]
  ∧ promises w !! 1 = Some (Fulfilled (VArray [VUndefined])).
Proof. by vm_compute. Qed.

(** Scenario C: two [load] calls of one path before the first settles. *)
Example scenario_C :
  let w := run [Load 0 "a.obj" None None; Load 0 "a.obj" None None] init in
  promises w = [Pending; Fulfilled VNull] ∧ length (ops w) = 1.
Proof. by vm_compute. Qed.

(** Scenario D: [preload] without paths, then [loadPending]. *)
Example scenario_D :
  let w := run [Preload 0 [];
                LoadPending {| cfg_onProgress := Some 7; cfg_onError := Some 8 |}]
               init in
  trace w = [EvSettled 0 (VArray [])] ∧ ops w = [] ∧ _pending w = [].
Proof. by vm_compute. Qed.

(** ** The specification, claim by claim *)

(** C10: a [preload] call only appends one request to the pending queue:
    the cache, the registry, the loader instances, the loader calls, the
    promises, the batch closures, the default callbacks and the callbacks
    called so far are all unchanged, whatever the paths are (none, already
    cached, already queued). *)
Theorem preload_only_enqueues (t : LoaderType) (items : list resource_item)
    (w : world) :
  _pending (preload t items w)
  = _pending w ++ [{| loader := t; paths := items |}]
  ∧ _resources (preload t items w) = _resources w
  ∧ _loaders (preload t items w) = _loaders w
  ∧ instances (preload t items w) = instances w
  ∧ ops (preload t items w) = ops w
  ∧ promises (preload t items w) = promises w
  ∧ batches (preload t items w) = batches w
  ∧ trace (preload t items w) = trace w
  ∧ _onProgress (preload t items w) = _onProgress w
  ∧ _onError (preload t items w) = _onError w.
Proof. by repeat split. Qed.

(** A drain creates no operation for a path that is a key of the cache. *)
Lemma loadPending_cached_no_op config w path v :
  _resources w !! path = Some v →
  ∀ i o, ops (snd (loadPending config w)) !! i = Some o →
         op_path o = path → ops w !! i = Some o.
Proof.
  intros Hv i o Hi Hp.
  destruct (loadPending_spec config w)
    as (new & evs & c1 & Hops & Hnew & _).
  rewrite Hops in Hi. apply lookup_app_Some in Hi as [Hi|[_ Hi]]; [done|].
  apply list_elem_of_lookup_2 in Hi.
  rewrite Forall_forall in Hnew. destruct (Hnew o Hi) as (_ & _ & _ & Hn).
  congruence.
Qed.

(** C3: for a path that is already a key of the cache, [load] does not call
    the loader and is fulfilled with the cached value; [preload] followed
    by [loadPending] creates no operation for the path ([total] counts the
    operations created, so the path adds nothing to it), calls the [onLoad]
    of the entry with the cached value before [loadPending] returns, and
    leaves the cached value in place. *)
Theorem idempotent_fetch (t : LoaderType) (path : string) (v : value)
    (onP onE : option callback) (w : world) :
  _resources w !! path = Some v →
  (promises (snd (load t path onP onE w)) !! fst (load t path onP onE w)
     = Some (Fulfilled v)
   ∧ ops (snd (load t path onP onE w)) = ops w
   ∧ instances (snd (load t path onP onE w)) = instances w
   ∧ _resources (snd (load t path onP onE w)) = _resources w)
  ∧ ∀ (t' : LoaderType) (items : list resource_item) (config : LoadingConfig),
      let b := length (batches w) in
      let w2 := snd (loadPending config (preload t' items w)) in
      (∀ i o, ops w2 !! i = Some o → op_path o = path → ops w !! i = Some o)
      ∧ (∃ c, batches w2 !! b = Some c
              ∧ b_total c = length (ops w2) - length (ops w))
      ∧ (∀ cb, RConfig path (Some cb) ∈ items →
           ∃ evs, trace w2 = trace w ++ evs ∧ EvOnLoad b cb v ∈ evs)
      ∧ _resources w2 !! path = Some v.
Proof.
  intros Hv. split.
  - rewrite (load_cached t path onP onE w v Hv). cbn [fst snd]. simpl.
    repeat split. apply lookup_snoc_eq.
  - intros t' items config b w2. subst b w2.
    destruct (loadPending_spec config (preload t' items w))
      as (new & evs & c1 & Hops & Hnew & Hevs & Htr & Hpr & Hb & _ & _ & _
          & Htot & _ & _ & Hres & _).
    repeat split.
    + intros i o. by apply (loadPending_cached_no_op config (preload t' items w) path v).
    + exists c1. split; [done|]. rewrite Hops, length_app. simpl. lia.
    + intros cb Hin. by apply (loadPending_preload_onload _ _ _ _ path).
    + by apply Hres.
Qed.

Lemma idempotent_fetch_witness :
  promises (snd (load 0 "a.obj" None None (add "a.obj" (VObj 7) init)))
    !! fst (load 0 "a.obj" None None (add "a.obj" (VObj 7) init))
  = Some (Fulfilled (VObj 7)).
Proof.
  apply (idempotent_fetch 0 "a.obj" (VObj 7) None None
           (add "a.obj" (VObj 7) init)).
  reflexivity.
Defined.

(** C9: [get] answers [undefined] both for a missing key and for a key
    stored with [undefined], but [load] and [loadPending] test the presence
    of the key: once a nullish value ([undefined] by [add], or the [null]
    placeholder) is stored, [load] is fulfilled with that stored value
    without calling the loader and a drain creates no operation for the
    path, whereas on the missing key [load] calls the loader; [get] still
    answers a nullish value, as for a missing entry. *)
Theorem presence_not_value (t : LoaderType) (path : string) (v : value)
    (onP onE : option callback) (w : world) :
  _resources w !! path = None →
  is_nullish v = true →
  let wv := add path v w in
  get path w = VUndefined
  ∧ get path (add path VUndefined w) = get path w
  ∧ get path wv = v
  ∧ is_nullish (get path wv) = is_nullish (get path w)
  ∧ (promises (snd (load t path onP onE wv)) !! fst (load t path onP onE wv)
       = Some (Fulfilled v)
     ∧ ops (snd (load t path onP onE wv)) = ops w)
  ∧ (promises (snd (load t path onP onE w)) !! fst (load t path onP onE w)
       = Some Pending
     ∧ length (ops (snd (load t path onP onE w))) = S (length (ops w)))
  ∧ ∀ (t' : LoaderType) (items : list resource_item) (config : LoadingConfig)
      i o,
      ops (snd (loadPending config (preload t' items wv))) !! i = Some o →
      op_path o = path → ops w !! i = Some o.
Proof.
  intros Hnone Hv wv.
  assert (Hget : get path w = VUndefined) by (unfold get; by rewrite Hnone).
  assert (Hwv : _resources wv !! path = Some v) by apply lookup_insert_eq.
  assert (Hgetv : get path wv = v) by (unfold get; by rewrite Hwv).
  repeat split.
  - done.
  - rewrite Hget. unfold get, add. simpl. by rewrite lookup_insert_eq.
  - done.
  - by rewrite Hgetv, Hget, Hv.
  - rewrite (load_cached t path onP onE wv v Hwv). cbn [fst snd]. simpl.
    apply lookup_snoc_eq.
  - by rewrite (load_cached t path onP onE wv v Hwv).
  - destruct (load_uncached t path onP onE w Hnone)
      as (l & w' & Hl & _ & Hproms & _).
    rewrite Hl. cbn [fst snd]. rewrite Hproms. apply lookup_snoc_eq.
  - destruct (load_uncached t path onP onE w Hnone)
      as (l & w' & Hl & Hops & _).
    rewrite Hl. cbn [fst snd]. rewrite Hops, length_app. simpl. lia.
  - intros t' items config i o Hi Hp.
    by apply (loadPending_cached_no_op config (preload t' items wv) path v).
Qed.

Lemma presence_not_value_witness :
  get "a.obj" (add "a.obj" VUndefined init) = get "a.obj" init.
Proof.
  apply (presence_not_value 0 "a.obj" VUndefined None None init);
    reflexivity.
Defined.

Lemma loadPending_empty config w :
  _pending w = [] →
  let r := fst (loadPending config w) in
  let w1 := snd (loadPending config w) in
  ops w1 = ops w ∧ _resources w1 = _resources w
  ∧ trace w1 = trace w ++ [EvSettled r (VArray [])]
  ∧ promises w1 !! r = Some (Fulfilled (VArray [])).
Proof.
  intros Hq r w1. subst r w1. unfold loadPending. simpl. rewrite Hq. simpl.
  unfold promise_all. simpl. unfold all_settle, upd_batch. simpl.
  rewrite list_lookup_alter_eq, lookup_snoc_eq. simpl.
  rewrite resolve_pending by apply lookup_snoc_eq. simpl.
  repeat split. rewrite insert_snoc. apply lookup_snoc_eq.
Qed.

(** *** The registry along an execution *)

Lemma loader_kept_refl t l w : _loaders w !! t = Some l → loader_kept t l w w.
Proof.
  intros H. split; [done|]. exists []. split; [by rewrite app_nil_r|].
  apply not_elem_of_nil.
Qed.

Lemma loader_kept_frame t l w0 w w' :
  _loaders w' = _loaders w → instances w' = instances w →
  loader_kept t l w0 w → loader_kept t l w0 w'.
Proof. unfold loader_kept. by intros -> ->. Qed.

Lemma loader_kept_getLoader t l t' w0 w :
  loader_kept t l w0 w → loader_kept t l w0 (snd (getLoader t' w)).
Proof.
  intros [Hl (ext & Hi & Hext)]. unfold getLoader.
  destruct (_loaders w !! t') as [l'|] eqn:E; simpl; [by split; eauto|].
  assert (t ≠ t') by congruence. split; simpl.
  - by rewrite lookup_insert_ne.
  - exists (ext ++ [t']). rewrite Hi, app_assoc. split; [done|].
    rewrite elem_of_app, list_elem_of_singleton. intros [?|?]; done.
Qed.

Lemma load_item_registry b l w res :
  _loaders (_load_item b l w res) = _loaders w
  ∧ instances (_load_item b l w res) = instances w.
Proof.
  unfold _load_item. destruct (_resources w !! item_path res); [|done].
  by destruct (item_onLoad res).
Qed.

Lemma on_success_registry id result w :
  _loaders (on_success id result w) = _loaders w
  ∧ instances (on_success id result w) = instances w.
Proof.
  unfold on_success. destruct (ops w !! id) as [o|]; [|done].
  destruct (op_status_of o); try done.
  destruct (op_kont o) as [f|b f]; cbv zeta.
  - match goal with |- context [resolve ?p ?v ?x] =>
      by destruct (resolve_tables p v x) as (-> & -> & _) end.
  - match goal with |- context [all_settle b ?x] =>
      destruct (all_settle_tables b x) as (-> & -> & _) end.
    match goal with |- context [resolve ?p ?v ?x] =>
      destruct (resolve_tables p v x) as (-> & -> & _) end.
    unfold report_progress. simpl.
    destruct (batches w !! b) as [c|]; [destruct (b_onProgress c)|];
      by destruct f.
Qed.

Lemma on_error_registry id e w :
  _loaders (on_error id e w) = _loaders w
  ∧ instances (on_error id e w) = instances w.
Proof.
  unfold on_error. destruct (ops w !! id) as [o|]; [|done].
  destruct (op_status_of o); try done.
  destruct (op_kont o) as [f|b f]; cbv zeta.
  - match goal with |- context [resolve ?p ?v ?x] =>
      destruct (resolve_tables p v x) as (-> & -> & _) end.
    by destruct f.
  - match goal with |- context [all_settle b ?x] =>
      destruct (all_settle_tables b x) as (-> & -> & _) end.
    match goal with |- context [resolve ?p ?v ?x] =>
      destruct (resolve_tables p v x) as (-> & -> & _) end.
    unfold report_progress, batch_onError. simpl.
    destruct (batches w !! b) as [c|] eqn:Eb; simpl; [|by rewrite Eb].
    destruct (b_onError c); simpl; rewrite Eb; by destruct (b_onProgress c).
Qed.

Lemma loader_kept_step t l w0 w a :
  a ≠ RemoveLoader t → loader_kept t l w0 w → loader_kept t l w0 (step w a).
Proof.
  intros Ha H. destruct a; simpl; try done.
  - apply (loader_kept_frame _ _ _ w); [apply remove_tables..|done].
  - by apply loader_kept_getLoader.
  - destruct H as [Hl Hi]. split; [|done]. simpl.
    rewrite lookup_delete_ne; [done|]. congruence.
  - unfold load. simpl. destruct (_resources w !! path).
    + simpl. unfold loader_kept.
      match goal with |- context [resolve ?p ?v ?x] =>
        by destruct (resolve_tables p v x) as (-> & -> & _) end.
    + set (w' := set_resources _ _).
      pose proof (loader_kept_getLoader t l t0 w0 w') as Hg.
      destruct (getLoader t0 w') as [l' w'']. simpl in *. by apply Hg.
  - unfold loadPending. cbn [snd promise_all new_promise].
    match goal with |- context [all_settle ?b ?x] =>
      apply (loader_kept_frame _ _ _ x); [apply all_settle_tables..|] end.
    match goal with |- context [drain ?n ?b ?x] =>
      apply (loader_kept_frame _ _ _ (drain n b x)); [done..|] end.
    apply (drain_invariant (loader_kept t l w0)); try done.
    + intros w' t'. apply loader_kept_getLoader.
    + intros w' l' res. apply loader_kept_frame; apply load_item_registry.
  - apply (loader_kept_frame _ _ _ w); [apply on_success_registry..|done].
  - apply (loader_kept_frame _ _ _ w); [apply on_error_registry..|done].
  - unfold on_progress. destruct (ops w !! id) as [o|]; [|done].
    destruct (op_status_of o); try done. by destruct (op_onProgress o).
Qed.

Lemma loader_kept_run t l w0 acts w :
  Forall (fun a => a ≠ RemoveLoader t) acts →
  loader_kept t l w0 w → loader_kept t l w0 (run acts w).
Proof.
  intros Hacts. revert w. induction Hacts as [|a acts Ha _ IH]; intros w H;
    simpl; [done|].
  by apply IH, loader_kept_step.
Qed.

(** C6: two [getLoader] calls for a type with no [removeLoader] of that
    type in between return the same instance, and no instance of the type
    is constructed in between; after [removeLoader] the next [getLoader]
    constructs an instance that is different from the old one;
    [removeLoader] of a type that is not registered changes nothing. *)
Theorem loader_memoization (acts0 acts1 : list action) (t : LoaderType) :
  Forall (fun a => a ≠ RemoveLoader t) acts1 →
  let w0 := run acts0 init in
  let l1 := fst (getLoader t w0) in
  let w1 := snd (getLoader t w0) in
  let w2 := run acts1 w1 in
  let l2 := fst (getLoader t w2) in
  let w3 := snd (getLoader t w2) in
  let w4 := removeLoader t w3 in
  let l3 := fst (getLoader t w4) in
  let w5 := snd (getLoader t w4) in
  l2 = l1
  ∧ w3 = w2
  ∧ (∃ ext, instances w2 = instances w1 ++ ext ∧ t ∉ ext)
  ∧ l3 ≠ l1
  ∧ l3 = length (instances w3)
  ∧ instances w5 = instances w3 ++ [t]
  ∧ instances w5 !! l3 = Some t
  ∧ (∀ w, _loaders w !! t = None → removeLoader t w = w).
Proof.
  intros Hacts w0 l1 w1 w2 l2 w3 w4 l3 w5.
  assert (Hk1 : loader_kept t l1 w1 w1).
  { subst l1 w1. unfold getLoader.
    destruct (_loaders w0 !! t) as [l|] eqn:E; simpl.
    - by apply loader_kept_refl.
    - apply loader_kept_refl. simpl. apply lookup_insert_eq. }
  destruct (loader_kept_run t l1 w1 acts1 w1 Hacts Hk1) as [Hl2 Hext].
  fold w2 in Hl2, Hext.
  assert (Hg2 : getLoader t w2 = (l1, w2)).
  { unfold getLoader. by rewrite Hl2. }
  assert (Hw3 : w3 = w2) by (subst w3; by rewrite Hg2).
  assert (Hlt : l1 < length (instances w3)).
  { rewrite Hw3. destruct (wf_run acts1 w1) as [[[] _] _].
    - subst w1 w0. pose proof (wf_reachable acts0) as [Hw Hd].
      split; [by apply wf_getLoader|].
      eapply drained_frame; [|done]. apply getLoader_tables.
    - eapply lookup_lt_Some. by apply (wf_loaders0 t l1). }
  assert (Hg4 : getLoader t w4
    = (length (instances w3),
       set_loaders (<[t := length (instances w3)]> (_loaders w4))
         (set_instances (instances w3 ++ [t]) w4))).
  { unfold getLoader. subst w4. simpl. by rewrite lookup_delete_eq. }
  subst l2 l3 w5. rewrite Hg2, Hg4. cbn [fst snd]. simpl.
  repeat split; try done.
  - lia.
  - apply lookup_snoc_eq.
  - intros w Hn. unfold removeLoader. rewrite delete_id by done.
    by destruct w.
Qed.

Lemma loader_memoization_witness :
  fst (getLoader 0 (run [Load 1 "b.obj" None None; GetLoader 0]
                      (snd (getLoader 0 (run [] init)))))
  = fst (getLoader 0 (run [] init)).
Proof.
  apply (loader_memoization [] [Load 1 "b.obj" None None; GetLoader 0] 0).
  repeat constructor; discriminate.
Defined.

(** *** Operations along an execution *)

Lemma on_success_ops id result w :
  ops (on_success id result w)
  = match ops w !! id with
    | Some o => if in_flight o
                then <[id := set_status (Succeeded result) o]> (ops w)
                else ops w
    | None => ops w
    end.
Proof.
  unfold on_success, in_flight. destruct (ops w !! id) as [o|]; [|done].
  destruct (op_status_of o); try done.
  destruct (op_kont o) as [f|b f]; cbv zeta.
  - match goal with |- context [resolve ?p ?v ?x] =>
      by destruct (resolve_tables p v x) as (_ & _ & -> & _) end.
  - match goal with |- context [all_settle b ?x] =>
      destruct (all_settle_tables b x) as (_ & _ & -> & _) end.
    match goal with |- context [resolve ?p ?v ?x] =>
      destruct (resolve_tables p v x) as (_ & _ & -> & _) end.
    unfold report_progress. simpl.
    destruct (batches w !! b) as [c|]; [destruct (b_onProgress c)|];
      by destruct f.
Qed.

Lemma on_error_ops id e w :
  ops (on_error id e w)
  = match ops w !! id with
    | Some o => if in_flight o
                then <[id := set_status (Failed e) o]> (ops w)
                else ops w
    | None => ops w
    end.
Proof.
  unfold on_error, in_flight. destruct (ops w !! id) as [o|]; [|done].
  destruct (op_status_of o); try done.
  destruct (op_kont o) as [f|b f]; cbv zeta.
  - match goal with |- context [resolve ?p ?v ?x] =>
      destruct (resolve_tables p v x) as (_ & _ & -> & _) end.
    by destruct f.
  - match goal with |- context [all_settle b ?x] =>
      destruct (all_settle_tables b x) as (_ & _ & -> & _) end.
    match goal with |- context [resolve ?p ?v ?x] =>
      destruct (resolve_tables p v x) as (_ & _ & -> & _) end.
    unfold report_progress, batch_onError. simpl.
    destruct (batches w !! b) as [c|] eqn:Eb; simpl; [|by rewrite Eb].
    destruct (b_onError c); simpl; rewrite Eb; by destruct (b_onProgress c).
Qed.

Lemma load_ops t path onP onE w :
  ∃ new, ops (snd (load t path onP onE w)) = ops w ++ new.
Proof.
  destruct (_resources w !! path) as [v|] eqn:E.
  - rewrite (load_cached t path onP onE w v E). exists []. simpl.
    by rewrite app_nil_r.
  - destruct (load_uncached t path onP onE w E) as (l & w' & Hl & Hops & _).
    rewrite Hl. eauto.
Qed.

(** An operation stays as it is until its own handler runs. *)
Lemma step_keeps_op i o w a :
  ops w !! i = Some o →
  (∀ r, a ≠ LoaderSuccess i r) → (∀ e, a ≠ LoaderError i e) →
  ops (step w a) !! i = Some o.
Proof.
  intros Ho Hs He. destruct a; cbn [step]; try done.
  - by destruct (remove_tables ps w) as (_ & _ & -> & _).
  - by destruct (getLoader_tables t w) as (-> & _).
  - destruct (load_ops t path onProgress onError w) as [new ->].
    by apply lookup_app_l_Some.
  - destruct (loadPending_spec config w) as (new & evs & c1 & Hops & _).
    rewrite Hops. by apply lookup_app_l_Some.
  - rewrite on_success_ops. destruct (ops w !! id) as [o'|]; [|done].
    destruct (in_flight o'); [|done].
    rewrite list_lookup_insert_ne; [done|]. intros ->. by apply (Hs result).
  - rewrite on_error_ops. destruct (ops w !! id) as [o'|]; [|done].
    destruct (in_flight o'); [|done].
    rewrite list_lookup_insert_ne; [done|]. intros ->. by apply (He e).
  - unfold on_progress. destruct (ops w !! id) as [o'|]; [|done].
    destruct (op_status_of o'); try done. by destruct (op_onProgress o').
Qed.

Lemma run_keeps_op i o acts w :
  ops w !! i = Some o →
  Forall (fun a => (∀ r, a ≠ LoaderSuccess i r) ∧ (∀ e, a ≠ LoaderError i e))
         acts →
  ops (run acts w) !! i = Some o.
Proof.
  intros Ho Hacts. revert w Ho.
  induction Hacts as [|a acts [Hs He] _ IH]; intros w Ho; simpl; [done|].
  by apply IH, step_keeps_op.
Qed.

(** C4: when the loader reports an error for a [load] call, the path is
    removed from the cache ([get] answers [undefined] afterwards), the
    [onError] callback, if given, is called once with the error, and the
    promise of the call, pending until then, is fulfilled with [undefined]:
    it is not rejected. *)
Theorem load_error_swallowed (acts0 acts1 : list action) (t : LoaderType)
    (path : string) (onP onE : option callback) (e : value) :
  let w0 := run acts0 init in
  let p := fst (load t path onP onE w0) in
  let w1 := snd (load t path onP onE w0) in
  let id := length (ops w0) in
  let w2 := run acts1 w1 in
  let w3 := step w2 (LoaderError id e) in
  _resources w0 !! path = None →
  Forall (fun a => (∀ r, a ≠ LoaderSuccess id r) ∧ (∀ x, a ≠ LoaderError id x))
         acts1 →
  promises w2 !! p = Some Pending
  ∧ _resources w3 !! path = None
  ∧ get path w3 = VUndefined
  ∧ trace w3 = trace w2
               ++ match onE with Some cb => [EvOnError id cb e] | None => [] end
               ++ [EvSettled p VUndefined]
  ∧ promises w3 !! p = Some (Fulfilled VUndefined)
  ∧ (∀ x, promises w3 !! p ≠ Some (Rejected x)).
Proof.
  intros w0 p w1 id w2 w3 Hnone Hacts.
  destruct (load_uncached t path onP onE w0 Hnone)
    as (l & w' & Hl & Hops & _).
  set (o := {| op_loader := l; op_path := path; op_onProgress := onP;
               op_kont := KLoad onE; op_promise := length (promises w0);
               op_status_of := InFlight |}) in *.
  assert (Ho1 : ops w1 !! id = Some o).
  { subst w1. rewrite Hl. cbn [snd]. rewrite Hops. apply lookup_snoc_eq. }
  assert (Ho2 : ops w2 !! id = Some o) by by apply run_keeps_op.
  assert (Hw2 : wf w2).
  { subst w2 w1 w0.
    change (snd (load t path onP onE (run acts0 init)))
      with (step (run acts0 init) (Load t path onP onE)).
    rewrite <- run_snoc, <- run_app. apply wf_reachable. }
  assert (Hp : p = length (promises w0)) by (subst p; by rewrite Hl).
  pose proof (in_flight_pending w2 id o Hw2 Ho2 eq_refl) as Hpend.
  simpl in Hpend.
  assert (Hw3 : w3 = settle id o (Failed e) (delete path (_resources w2)) w2).
  { subst w3. simpl. by rewrite (on_error_settle id e o w2). }
  rewrite Hw3, Hp. unfold get. simpl. rewrite lookup_delete_eq.
  rewrite list_lookup_insert_eq by by eapply lookup_lt_Some.
  repeat split; try done.
Qed.

Lemma load_error_swallowed_witness :
  promises (step (run [Add "b.obj" (VObj 1)]
                    (snd (load 0 "a.obj" None (Some 5) (run [] init))))
              (LoaderError 0 (VObj 9)))
    !! fst (load 0 "a.obj" None (Some 5) (run [] init))
  = Some (Fulfilled VUndefined).
Proof.
  apply (load_error_swallowed [] [Add "b.obj" (VObj 1)] 0 "a.obj" None
           (Some 5) (VObj 9)).
  - reflexivity.
  - repeat constructor; discriminate.
Defined.

(** *** The paths a drain loads *)

Lemma new_paths_elem (S : gset string) l p :
  p ∈ new_paths S l ↔ p ∈ l ∧ p ∉ S.
Proof.
  revert S. induction l as [|q l IH]; intros S; simpl.
  - split; [by intros ?%elem_of_nil|]. by intros [?%elem_of_nil _].
  - case_decide as Hq.
    + rewrite IH, elem_of_cons. split; [intros [? ?]; by auto|].
      intros [[->|?] ?]; [done|by auto].
    + rewrite !elem_of_cons, IH. split.
      * intros [->|[? ?]]; [by auto|]. split; [by auto|]. set_solver.
      * intros [[->|?] ?]; [by auto|].
        destruct (decide (p = q)) as [->|Hne]; [by auto|]. right.
        split; [done|]. set_solver.
Qed.

Lemma new_paths_NoDup (S : gset string) l : NoDup (new_paths S l).
Proof.
  revert S. induction l as [|q l IH]; intros S; simpl; [constructor|].
  case_decide as Hq; [done|]. constructor; [|done].
  rewrite new_paths_elem. set_solver.
Qed.

Lemma new_paths_app (S : gset string) l1 l2 :
  new_paths S (l1 ++ l2)
  = new_paths S l1 ++ new_paths (S ∪ list_to_set l1) l2.
Proof.
  revert S. induction l1 as [|q l1 IH]; intros S; simpl.
  - f_equal. set_solver.
  - case_decide as Hq.
    + rewrite IH. do 2 f_equal. set_solver.
    + simpl. rewrite IH. do 3 f_equal. set_solver.
Qed.

Lemma new_paths_size (S : gset string) l :
  length (new_paths S l) = size (list_to_set l ∖ S : gset string).
Proof.
  rewrite <- (size_list_to_set (C := gset string)) by apply new_paths_NoDup.
  f_equal. apply set_eq. intros p.
  by rewrite elem_of_list_to_set, new_paths_elem, elem_of_difference,
    elem_of_list_to_set.
Qed.

Lemma load_item_paths b l w res :
  ∃ new, ops (_load_item b l w res) = ops w ++ new
    ∧ map op_path new = new_paths (dom (_resources w)) [item_path res]
    ∧ dom (_resources (_load_item b l w res))
      = dom (_resources w) ∪ {[item_path res]}.
Proof.
  unfold _load_item. simpl.
  destruct (_resources w !! item_path res) as [v|] eqn:E.
  - exists []. rewrite decide_True by (apply elem_of_dom; eauto).
    assert (item_path res ∈ dom (_resources w)) by (apply elem_of_dom; eauto).
    destruct (item_onLoad res); simpl; rewrite app_nil_r; repeat split;
      set_solver.
  - eexists [_]. rewrite decide_False by (by rewrite not_elem_of_dom).
    simpl. repeat split. rewrite dom_insert_L. set_solver.
Qed.

Lemma fold_items_paths b l items w :
  ∃ new, ops (fold_left (_load_item b l) items w) = ops w ++ new
    ∧ map op_path new
      = new_paths (dom (_resources w)) (map item_path items)
    ∧ dom (_resources (fold_left (_load_item b l) items w))
      = dom (_resources w) ∪ list_to_set (map item_path items).
Proof.
  revert w. induction items as [|res items IH]; intros w.
  - exists []. simpl. rewrite app_nil_r. repeat split. set_solver.
  - simpl fold_left.
    destruct (load_item_paths b l w res) as (new1 & Ho1 & Hp1 & Hd1).
    destruct (IH (_load_item b l w res)) as (new2 & Ho2 & Hp2 & Hd2).
    exists (new1 ++ new2). rewrite Ho2, Ho1, Hd2, Hd1, app_assoc, map_app.
    rewrite Hp1, Hp2, Hd1.
    change (map item_path (res :: items))
      with ([item_path res] ++ map item_path items).
    rewrite new_paths_app. repeat split.
    + do 2 f_equal. set_solver.
    + set_solver.
Qed.

Lemma fold_loads_paths b rs w :
  let w' := fold_left (fun w r => _load b r w) rs w in
  ∃ new, ops w' = ops w ++ new
    ∧ map op_path new
      = new_paths (dom (_resources w))
          (flat_map (fun r => map item_path (paths r)) rs)
    ∧ dom (_resources w')
      = dom (_resources w)
        ∪ list_to_set (flat_map (fun r => map item_path (paths r)) rs).
Proof.
  revert w. induction rs as [|r rs IH]; intros w; simpl.
  - exists []. rewrite app_nil_r. repeat split. set_solver.
  - unfold _load at 2 4.
    destruct (getLoader_tables (loader r) w) as (Hgo & _ & _ & _ & Hgr & _).
    destruct (getLoader (loader r) w) as [l wl]. cbn [snd] in Hgo, Hgr.
    destruct (fold_items_paths b l (paths r) wl) as (new1 & Ho1 & Hp1 & Hd1).
    destruct (IH (fold_left (_load_item b l) (paths r) wl))
      as (new2 & Ho2 & Hp2 & Hd2).
    exists (new1 ++ new2).
    rewrite Ho2, Ho1, Hd2, Hd1, Hgo, Hgr, app_assoc, map_app, Hp1, Hp2, Hd1.
    rewrite Hgr, new_paths_app. repeat split. set_solver.
Qed.

Lemma loadPending_paths config w :
  ∃ new, ops (snd (loadPending config w)) = ops w ++ new
    ∧ map op_path new
      = new_paths (dom (_resources w)) (queued_paths (_pending w)).
Proof.
  unfold loadPending, promise_all, new_promise. cbn [snd].
  match goal with |- context [all_settle ?b ?x] =>
    destruct (all_settle_tables b x) as (_ & _ & -> & _) end.
  cbn [ops upd_batch set_batches set_promises].
  match goal with |- context [drain ?n ?b ?x] =>
    change n with (length (_pending x));
    rewrite (drain_fold b (length (_pending x)) x) by done;
    destruct (fold_loads_paths b (rev (_pending x)) x) as (new & Ho & Hp & _)
  end.
  exists new. cbn [ops set_pending]. by rewrite Ho, Hp.
Qed.

(** *** The closure of a batch along an execution *)

Lemma on_success_batches id result w :
  batches (on_success id result w)
  = match ops w !! id with
    | Some o => if in_flight o then settle_batches (op_kont o) (batches w)
                else batches w
    | None => batches w
    end.
Proof.
  unfold on_success, in_flight, settle_batches.
  destruct (ops w !! id) as [o|]; [|done].
  destruct (op_status_of o); try done.
  destruct (op_kont o) as [f|b f]; cbv zeta.
  - match goal with |- context [resolve ?p ?v ?x] =>
      by destruct (resolve_tables p v x) as (_ & _ & _ & -> & _) end.
  - match goal with |- context [all_settle b ?x] =>
      destruct (all_settle_tables b x) as (_ & _ & _ & -> & _) end.
    match goal with |- context [resolve ?p ?v ?x] =>
      destruct (resolve_tables p v x) as (_ & _ & _ & -> & _) end.
    unfold report_progress. simpl.
    destruct (batches w !! b) as [c|]; [destruct (b_onProgress c)|];
      by destruct f.
Qed.

Lemma on_error_batches id e w :
  batches (on_error id e w)
  = match ops w !! id with
    | Some o => if in_flight o then settle_batches (op_kont o) (batches w)
                else batches w
    | None => batches w
    end.
Proof.
  unfold on_error, in_flight, settle_batches.
  destruct (ops w !! id) as [o|]; [|done].
  destruct (op_status_of o); try done.
  destruct (op_kont o) as [f|b f]; cbv zeta.
  - match goal with |- context [resolve ?p ?v ?x] =>
      destruct (resolve_tables p v x) as (_ & _ & _ & -> & _) end.
    by destruct f.
  - match goal with |- context [all_settle b ?x] =>
      destruct (all_settle_tables b x) as (_ & _ & _ & -> & _) end.
    match goal with |- context [resolve ?p ?v ?x] =>
      destruct (resolve_tables p v x) as (_ & _ & _ & -> & _) end.
    unfold report_progress, batch_onError. simpl.
    destruct (batches w !! b) as [c|] eqn:Eb; simpl; [|by rewrite Eb].
    destruct (b_onError c); simpl; rewrite Eb; by destruct (b_onProgress c).
Qed.

Lemma same_closure_refl c : same_closure c c.
Proof. by repeat split. Qed.

Lemma same_closure_trans c1 c2 c3 :
  same_closure c1 c2 → same_closure c2 c3 → same_closure c1 c3.
Proof.
  intros (? & ? & ? & ? & ?) (? & ? & ? & ? & ?). repeat split; congruence.
Qed.

Lemma settle_batches_same k (bs : list batch) b c :
  bs !! b = Some c →
  ∃ c', settle_batches k bs !! b = Some c' ∧ same_closure c c'.
Proof.
  intros H. rewrite settle_batches_lookup, H. simpl. eexists. split; [done|].
  destruct (bumped_static k b c) as (? & ? & ? & ? & ?). by repeat split.
Qed.

Lemma step_same_closure b c w a :
  batches w !! b = Some c →
  ∃ c', batches (step w a) !! b = Some c' ∧ same_closure c c'.
Proof.
  intros Hb. destruct a; cbn [step];
    try (exists c; split; [done|apply same_closure_refl]).
  - exists c. split; [|apply same_closure_refl].
    by destruct (remove_tables ps w) as (_ & _ & _ & _ & -> & _).
  - exists c. split; [|apply same_closure_refl].
    by destruct (getLoader_tables t w) as (_ & _ & -> & _).
  - exists c. split; [|apply same_closure_refl]. by rewrite load_batches.
  - exists c. split; [|apply same_closure_refl].
    destruct (loadPending_spec config w)
      as (new & evs & c1 & _ & _ & _ & _ & _ & _ & _ & _ & _ & _ & _ & Hk & _).
    by apply Hk.
  - rewrite on_success_batches. destruct (ops w !! id) as [o|].
    + destruct (in_flight o); [by apply settle_batches_same|].
      exists c. split; [done|apply same_closure_refl].
    + exists c. split; [done|apply same_closure_refl].
  - rewrite on_error_batches. destruct (ops w !! id) as [o|].
    + destruct (in_flight o); [by apply settle_batches_same|].
      exists c. split; [done|apply same_closure_refl].
    + exists c. split; [done|apply same_closure_refl].
  - exists c. split; [|apply same_closure_refl]. by rewrite on_progress_batches.
Qed.

Lemma run_same_closure b c acts w :
  batches w !! b = Some c →
  ∃ c', batches (run acts w) !! b = Some c' ∧ same_closure c c'.
Proof.
  revert w c. induction acts as [|a acts IH]; intros w c Hb; simpl.
  - exists c. split; [done|apply same_closure_refl].
  - destruct (step_same_closure b c w a Hb) as (c1 & Hb1 & Hs1).
    destruct (IH _ _ Hb1) as (c2 & Hb2 & Hs2).
    exists c2. split; [done|]. by apply (same_closure_trans c c1).
Qed.

(** The batch of a [loadPending] call made in a reachable state, seen
    from any later state of the execution. *)
Lemma batch_later acts0 config acts1 :
  let w0 := run acts0 init in
  let b := length (batches w0) in
  let r := fst (loadPending config w0) in
  let w1 := snd (loadPending config w0) in
  let w2 := run acts1 w1 in
  wf w2 ∧ drained w2
  ∧ ∃ c2, batches w2 !! b = Some c2
      ∧ b_onProgress c2 = nullish_or (cfg_onProgress config) (_onProgress w0)
      ∧ b_onError c2 = nullish_or (cfg_onError config) (_onError w0)
      ∧ b_all c2 = Some r
      ∧ b_total c2 = length (ops w1) - length (ops w0)
      ∧ length (batch_ops b (ops w2)) = length (ops w1) - length (ops w0).
Proof.
  intros w0 b r w1 w2.
  assert (Hw2 : wf w2 ∧ drained w2).
  { subst w2 w1 w0.
    change (snd (loadPending config (run acts0 init)))
      with (step (run acts0 init) (LoadPending config)).
    rewrite <- run_snoc, <- run_app. apply wf_reachable. }
  destruct Hw2 as [Hw2 Hd2]. split; [done|]. split; [done|].
  destruct (loadPending_spec config w0)
    as (new & evs & c1 & Hops & _ & _ & _ & _ & Hb & HoP & HoE & Hall & Htot & _).
  destruct (run_same_closure b c1 acts1 w1 Hb)
    as (c2 & Hb2 & HsP & HsE & _ & Hst & Hsa).
  exists c2. fold w1 in Hops. rewrite Hops, length_app.
  repeat split; try congruence.
  - done.
  - by rewrite Hsa.
  - rewrite Hst, Htot. lia.
  - destruct Hw2 as [[] _]. destruct (wf_batch0 b c2 Hb2) as [_ <-].
    rewrite Hst, Htot. lia.
Qed.

(** *** The ratio as a number *)

Lemma Qratio_lt (k k' total : nat) :
  k < k' → (Qratio k total < Qratio k' total)%Q.
Proof.
  intros H. unfold Qratio, Qlt. simpl.
  apply Z.mul_lt_mono_pos_r; [done|]. lia.
Qed.

Lemma Qratio_one (total : nat) : 0 < total → (Qratio total total == 1)%Q.
Proof.
  intros H. unfold Qratio, Qeq. simpl. rewrite Z.mul_1_r.
  rewrite <- (positive_nat_Z (Pos.of_nat total)), Nat2Pos.id by lia. lia.
Qed.

(** C1: a [loadPending] call that creates [total > 0] operations calls its
    effective progress callback once per handler that has run, success or
    error alike, the k-th time with [k / total]: at any later point of the
    execution the calls made so far are [1/total, ..., done/total] where
    [done] counts the operations of the batch that have settled; once all
    have settled these are the [total] values [k/total], k = 1..total, which
    increase strictly and end at exactly 1. *)
Theorem progress_ratio_correct (acts0 acts1 : list action)
    (config : LoadingConfig) (cb : callback) :
  let w0 := run acts0 init in
  let b := length (batches w0) in
  let w1 := snd (loadPending config w0) in
  let total := length (ops w1) - length (ops w0) in
  let w2 := run acts1 w1 in
  let finished := length (List.filter settled (batch_ops b (ops w2))) in
  nullish_or (cfg_onProgress config) (_onProgress w0) = Some cb →
  0 < total →
  progress_calls b (trace w0) = []
  ∧ progress_calls b (trace w1) = []
  ∧ progress_calls b (trace w2)
    = map (fun k => (cb, k, total)) (seq 1 finished)
  ∧ length (batch_ops b (ops w2)) = total
  ∧ finished ≤ total
  ∧ (forallb settled (batch_ops b (ops w2)) = true →
     progress_calls b (trace w2) = map (fun k => (cb, k, total)) (seq 1 total))
  ∧ (∀ k k', k < k' → (Qratio k total < Qratio k' total)%Q)
  ∧ (Qratio total total == 1)%Q.
Proof.
  intros w0 b w1 total w2 finished Hcb Htotal.
  destruct (batch_later acts0 config acts1)
    as (Hw2 & _ & c2 & Hb2 & HoP & _ & _ & Htot & Hlen).
  fold w0 b w1 w2 total in Hw2, Hb2, HoP, Htot, Hlen.
  assert (Hcalls : progress_calls b (trace w2)
                   = map (fun k => (cb, k, total)) (seq 1 finished)).
  { destruct Hw2 as [[] _]. rewrite wf_progress0, Hb2, HoP, Hcb, Htot.
    rewrite (wf_progress_count0 b c2 Hb2), HoP, Hcb. done. }
  assert (Hle : finished ≤ total).
  { subst finished. rewrite <- Hlen. apply List.filter_length_le. }
  repeat split; try done.
  - pose proof (wf_reachable acts0) as [[[] _] _]. fold w0 in wf_progress0.
    rewrite wf_progress0. unfold b. by rewrite lookup_ge_None_2.
  - destruct (loadPending_spec config w0)
      as (new & evs & c1 & _ & _ & _ & _ & _ & Hb1 & _ & _ & _ & _ & Hprog & _).
    fold w0 b w1 in Hb1.
    assert (Hw1 : wf w1).
    { change w1 with (step w0 (LoadPending config)). unfold w0.
      rewrite <- run_snoc. apply wf_reachable. }
    destruct Hw1 as [[] _]. rewrite wf_progress0, Hb1, Hprog.
    by destruct (b_onProgress c1).
  - intros Hall. rewrite Hcalls. do 2 f_equal. subst finished.
    rewrite <- Hlen. by apply settled_all_count.
  - intros k k'. apply Qratio_lt.
  - by apply Qratio_one.
Qed.

Lemma progress_ratio_correct_witness :
  progress_calls 0
    (trace (run [LoaderSuccess 1 (VObj 3); LoaderError 0 (VObj 4)]
              (snd (loadPending {| cfg_onProgress := Some 7;
                                   cfg_onError := None |}
                      (run [Preload 0 [RPath "a.obj"; RPath "b.obj"]] init)))))
  = [(7, 1, 2); (7, 2, 2)].
Proof.
  apply (progress_ratio_correct [Preload 0 [RPath "a.obj"; RPath "b.obj"]]
           [LoaderSuccess 1 (VObj 3); LoaderError 0 (VObj 4)]
           {| cfg_onProgress := Some 7; cfg_onError := None |} 7).
  - reflexivity.
  - vm_compute. lia.
  - reflexivity.
Defined.

Lemma map_const_repeat {A B} (x : B) (l : list A) :
  map (fun _ => x) l = repeat x (length l).
Proof. induction l as [|a l IH]; simpl; [done|]. by rewrite IH. Qed.

(** *** What the loader told, and the status of an operation *)

Lemma set_status_in_flight o : in_flight o = true → set_status InFlight o = o.
Proof.
  unfold in_flight, set_status. destruct o as [l p f k pr st]. simpl.
  by destruct st.
Qed.

(** Once its handler has run, an operation stays as it is: a second call
    of the loader changes nothing. *)
Lemma step_keeps_settled i o w a :
  ops w !! i = Some o → in_flight o = false → ops (step w a) !! i = Some o.
Proof.
  intros Ho Hs.
  destruct a; try (by apply step_keeps_op); cbn [step].
  - rewrite on_success_ops. destruct (decide (id = i)) as [->|Hne].
    + by rewrite Ho, Hs.
    + destruct (ops w !! id) as [o'|]; [|done].
      destruct (in_flight o'); [|done]. by rewrite list_lookup_insert_ne.
  - rewrite on_error_ops. destruct (decide (id = i)) as [->|Hne].
    + by rewrite Ho, Hs.
    + destruct (ops w !! id) as [o'|]; [|done].
      destruct (in_flight o'); [|done]. by rewrite list_lookup_insert_ne.
Qed.

Lemma run_keeps_settled i o acts w :
  ops w !! i = Some o → in_flight o = false → ops (run acts w) !! i = Some o.
Proof.
  revert w. induction acts as [|a acts IH]; intros w Ho Hs; simpl; [done|].
  by apply IH; [apply step_keeps_settled|].
Qed.

(** The status of an operation is what the loader told first. *)
Lemma run_outcome id o acts w :
  ops w !! id = Some o → in_flight o = true →
  ops (run acts w) !! id = Some (set_status (outcome id acts) o).
Proof.
  revert w. induction acts as [|a acts IH]; intros w Ho Hf.
  - simpl. by rewrite set_status_in_flight.
  - assert (Hother : (∀ r, a ≠ LoaderSuccess id r) →
                     (∀ e, a ≠ LoaderError id e) →
                     ops (run acts (step w a)) !! id
                     = Some (set_status (outcome id acts) o)).
    { intros Hs He. apply IH; [|done]. by apply step_keeps_op. }
    destruct a as [| | | | | | | | | |id' r|id' e|]; cbn [outcome];
      try (by apply Hother).
    + destruct (Nat.eqb_spec id' id) as [->|Hne].
      * cbn [run fold_left step]. apply run_keeps_settled; [|done].
        rewrite on_success_ops, Ho, Hf.
        apply list_lookup_insert_eq. by eapply lookup_lt_Some.
      * apply Hother; [|done]. intros r' [=]. done.
    + destruct (Nat.eqb_spec id' id) as [->|Hne].
      * cbn [run fold_left step]. apply run_keeps_settled; [|done].
        rewrite on_error_ops, Ho, Hf.
        apply list_lookup_insert_eq. by eapply lookup_lt_Some.
      * apply Hother; [done|]. intros r' [=]. done.
Qed.

Lemma called_back_outcome id acts :
  called_back id acts
  = match outcome id acts with InFlight => false | _ => true end.
Proof.
  unfold called_back. induction acts as [|a acts IH]; [done|].
  destruct a; cbn [existsb outcome]; try done;
    by destruct (_ =? id).
Qed.

(** The operations of the batch of a [loadPending] call, seen from a later
    state: they are the ones the call created, with the status the loader
    gave them, and nothing else is of that batch. *)
Lemma batch_ops_later acts0 config acts1 :
  let w0 := run acts0 init in
  let b := length (batches w0) in
  let w1 := snd (loadPending config w0) in
  let w2 := run acts1 w1 in
  ∃ new, ops w1 = ops w0 ++ new
    ∧ Forall (fun o => of_batch b o = true ∧ in_flight o = true) new
    ∧ (∀ i o, new !! i = Some o →
         ops w2 !! (length (ops w0) + i)
         = Some (set_status (outcome (length (ops w0) + i) acts1) o))
    ∧ (∀ id o, ops w2 !! id = Some o → of_batch b o = true →
         ∃ i o1, id = length (ops w0) + i ∧ new !! i = Some o1
                 ∧ o = set_status (outcome id acts1) o1).
Proof.
  intros w0 b w1 w2.
  destruct (loadPending_spec config w0)
    as (new & evs & c1 & Hops & Hnew & _ & _ & _ & Hb & _).
  fold w0 w1 b in Hops, Hnew, Hb.
  assert (Hnew' : Forall (fun o => of_batch b o = true ∧ in_flight o = true)
                         new).
  { eapply Forall_impl; [done|]. by intros o (? & ? & _). }
  assert (Hlater : ∀ i o, new !! i = Some o →
            ops w2 !! (length (ops w0) + i)
            = Some (set_status (outcome (length (ops w0) + i) acts1) o)).
  { intros i o Hi. apply run_outcome.
    - rewrite Hops, lookup_app_r by lia.
      by replace (length (ops w0) + i - length (ops w0)) with i by lia.
    - rewrite Forall_forall in Hnew'.
      by destruct (Hnew' o (list_elem_of_lookup_2 _ _ _ Hi)). }
  exists new. split; [done|]. split; [done|]. split; [done|].
  intros id o Ho Hof.
  assert (Hw1 : wf w1).
  { subst w1 w0. by apply wf_loadPending; apply wf_reachable. }
  assert (Hw2 : wf w2 ∧ drained w2).
  { subst w2 w1 w0.
    change (snd (loadPending config (run acts0 init)))
      with (step (run acts0 init) (LoadPending config)).
    rewrite <- run_snoc, <- run_app. apply wf_reachable. }
  destruct (run_same_closure b c1 acts1 w1 Hb) as (c2 & Hb2 & _ & _ & Hpr & _).
  fold w2 in Hb2.
  assert (Hb1 : batch_ops b (ops w1) = new).
  { rewrite Hops, batch_ops_app, batch_ops_nil.
    - simpl. unfold batch_ops. apply forallb_filter_id.
      apply forallb_forall. rewrite Forall_forall in Hnew'.
      intros o' Ho'%list_elem_of_In. by destruct (Hnew' o' Ho').
    - intros i o' Ho'. destruct (of_batch b o') eqn:E; [|done].
      pose proof (wf_reachable acts0) as [[[] _] _].
      pose proof (wf_kbatch0 i o' b Ho' E). unfold b, w0 in *. lia. }
  assert (Hin : op_promise o ∈ map op_promise new).
  { destruct Hw2 as [[[] _] _]. destruct (wf_batch0 b c2 Hb2) as [E2 _].
    destruct Hw1 as [[] _]. destruct (wf_batch1 b c1 Hb) as [E1 _].
    rewrite <- Hb1, <- E1, <- Hpr, E2. apply list_elem_of_fmap.
    exists o. split; [done|]. apply elem_of_batch_ops. split; [|done].
    by eapply list_elem_of_lookup_2. }
  apply list_elem_of_fmap in Hin as (o1 & Hp & Hin).
  apply list_elem_of_lookup_1 in Hin as [i Hi].
  pose proof (Hlater i o1 Hi) as Ho1.
  assert (id = length (ops w0) + i) as ->.
  { destruct Hw2 as [[[] _] _]. by eapply wf_inj0. }
  exists i, o1. split; [done|]. split; [done|]. congruence.
Qed.

(** C2: a [loadPending] call made when the queue holds [N] distinct paths
    that are not keys of the cache calls [loader.load] exactly [N] times,
    once for each of these paths, and no other operation is ever of its
    batch. Each of these operations is in flight until the loader calls its
    success or error callback, and settled from the first such call on.
    The promise returned is pending as long as the loader has not called
    back all [N] operations, and is fulfilled, once, as soon as it has. *)
Theorem exactly_once_settlement (acts0 acts1 : list action)
    (config : LoadingConfig) :
  let w0 := run acts0 init in
  let n0 := length (ops w0) in
  let b := length (batches w0) in
  let r := fst (loadPending config w0) in
  let w1 := snd (loadPending config w0) in
  let fresh : gset string :=
    list_to_set (queued_paths (_pending w0)) ∖ dom (_resources w0) in
  let N := size fresh in
  let w2 := run acts1 w1 in
  let all_called := forallb (fun id => called_back id acts1) (seq n0 N) in
  (∃ new, ops w1 = ops w0 ++ new
          ∧ length new = N
          ∧ NoDup (map op_path new)
          ∧ (∀ p, p ∈ map op_path new ↔ p ∈ fresh)
          ∧ Forall (fun o => of_batch b o = true ∧ in_flight o = true) new
          ∧ (∀ i o, new !! i = Some o →
               ops w2 !! (n0 + i)
               = Some (set_status (outcome (n0 + i) acts1) o)))
  ∧ batch_ops b (ops w1) = drop n0 (ops w1)
  ∧ length (batch_ops b (ops w2)) = N
  ∧ (∀ id o, ops w2 !! id = Some o → of_batch b o = true →
       n0 ≤ id < n0 + N
       ∧ op_status_of o = outcome id acts1
       ∧ settled o = called_back id acts1
       ∧ (in_flight o = true →
          (∀ result,
             let w3 := step w2 (LoaderSuccess id result) in
             ops w3 !! id = Some (set_status (Succeeded result) o)
             ∧ promises w3 !! op_promise o = Some (Fulfilled VUndefined))
          ∧ (∀ e,
             let w3 := step w2 (LoaderError id e) in
             ops w3 !! id = Some (set_status (Failed e) o)
             ∧ promises w3 !! op_promise o = Some (Fulfilled VUndefined))))
  ∧ forallb settled (batch_ops b (ops w2)) = all_called
  ∧ promises w2 !! r
    = Some (if all_called then Fulfilled (VArray (repeat VUndefined N))
            else Pending)
  ∧ settle_calls r (trace w2)
    = (if all_called then [VArray (repeat VUndefined N)] else []).
Proof.
  intros w0 n0 b r w1 fresh N w2 all_called.
  destruct (loadPending_paths config w0) as (new & Hops & Hpaths).
  destruct (batch_ops_later acts0 config acts1)
    as (new' & Hops' & Hnew & Hlater & Honly).
  fold w0 w1 b w2 n0 in Hops, Hpaths, Hops', Hnew, Hlater, Honly.
  rewrite Hops in Hops'. apply app_inv_head in Hops'. subst new'.
  assert (HN : length new = N).
  { rewrite <- (length_map op_path), Hpaths. apply new_paths_size. }
  destruct (batch_later acts0 config acts1)
    as (Hw2 & Hd2 & c2 & Hb2 & _ & _ & Hall & Htot & Hlen).
  fold w0 b r w1 w2 in Hw2, Hd2, Hb2, Hall, Htot, Hlen.
  assert (HlenN : length (batch_ops b (ops w2)) = N).
  { rewrite Hlen, Hops, length_app. lia. }
  assert (Hst : ∀ id o, ops w2 !! id = Some o → of_batch b o = true →
            n0 ≤ id < n0 + N ∧ op_status_of o = outcome id acts1
            ∧ settled o = called_back id acts1).
  { intros id o Ho Hof.
    destruct (Honly id o Ho Hof) as (i & o1 & -> & Hi & ->).
    apply lookup_lt_Some in Hi as Hlt. split; [lia|]. split; [done|].
    rewrite called_back_outcome. unfold settled, in_flight. simpl.
    by destruct (outcome _ _). }
  assert (Hdone : forallb settled (batch_ops b (ops w2)) = all_called).
  { apply Bool.eq_iff_eq_true. subst all_called.
    rewrite !forallb_forall. split.
    - intros H id Hid%in_seq.
      destruct (lookup_lt_is_Some_2 new (id - n0)) as [o1 Ho1]; [lia|].
      pose proof (Hlater _ _ Ho1) as Ho.
      replace (n0 + (id - n0)) with id in Ho by lia.
      assert (Hof : of_batch b (set_status (outcome id acts1) o1) = true).
      { rewrite of_batch_set_status. rewrite Forall_forall in Hnew.
        by destruct (Hnew o1 (list_elem_of_lookup_2 _ _ _ Ho1)). }
      destruct (Hst _ _ Ho Hof) as (_ & _ & <-).
      apply H, list_elem_of_In, elem_of_batch_ops. split; [|done].
      by eapply list_elem_of_lookup_2.
    - intros H o Ho%list_elem_of_In%elem_of_batch_ops.
      destruct Ho as [Ho Hof]. apply list_elem_of_lookup_1 in Ho as [id Ho].
      destruct (Hst _ _ Ho Hof) as (Hr & _ & ->).
      apply H, in_seq. lia. }
  assert (Hr : promises w2 !! r
    = Some (if all_called then Fulfilled (VArray (repeat VUndefined N))
            else Pending)).
  { destruct Hw2 as [_ Ha]. specialize (Ha b c2 Hb2).
    unfold all_ok, all_pstate in Ha. rewrite Hall in Ha. rewrite Ha, Hdone.
    destruct all_called; [|done].
    by rewrite map_const_repeat, HlenN. }
  split; [|split; [|split; [done|split; [|split; [done|split; [done|]]]]]].
  - exists new. split; [done|]. split; [done|].
    split; [rewrite Hpaths; apply new_paths_NoDup|]. split; [|done].
    intros p. rewrite Hpaths, new_paths_elem. subst fresh.
    by rewrite elem_of_difference, elem_of_list_to_set.
  - unfold n0. rewrite Hops, batch_ops_app, drop_app_length.
    rewrite batch_ops_nil.
    + simpl. unfold batch_ops. apply forallb_filter_id.
      apply forallb_forall. rewrite Forall_forall in Hnew.
      intros o Ho%list_elem_of_In. by destruct (Hnew o Ho).
    + intros i o Ho. destruct (of_batch b o) eqn:E; [|done].
      pose proof (wf_reachable acts0) as [[[] _] _].
      pose proof (wf_kbatch0 i o b Ho E). unfold b, w0 in *. lia.
  - intros id o Ho Hof. destruct (Hst id o Ho Hof) as (? & ? & ?).
    split; [done|]. split; [done|]. split; [done|].
    intros Hf. split.
    + intros result w3.
      assert (Ho3 : ops w3 !! id = Some (set_status (Succeeded result) o)).
      { subst w3. cbn [step]. rewrite on_success_ops, Ho, Hf.
        apply list_lookup_insert_eq. by eapply lookup_lt_Some. }
      split; [done|].
      destruct (wf_step w2 (LoaderSuccess id result) (conj Hw2 Hd2))
        as [[[] _] _].
      pose proof (wf_pstate0 _ _ Ho3) as Hp.
      cbn [set_status op_promise] in Hp. unfold w3. rewrite Hp.
      unfold op_pstate. simpl. by apply of_batch_kont in Hof as [f ->].
    + intros e w3.
      assert (Ho3 : ops w3 !! id = Some (set_status (Failed e) o)).
      { subst w3. cbn [step]. rewrite on_error_ops, Ho, Hf.
        apply list_lookup_insert_eq. by eapply lookup_lt_Some. }
      split; [done|].
      destruct (wf_step w2 (LoaderError id e) (conj Hw2 Hd2)) as [[[] _] _].
      pose proof (wf_pstate0 _ _ Ho3) as Hp.
      cbn [set_status op_promise] in Hp. unfold w3. by rewrite Hp.
  - destruct Hw2 as [[] _]. by rewrite wf_settled0, Hr; destruct all_called.
Qed.

Lemma exactly_once_settlement_witness :
  let acts0 := [Preload 0 [RPath "a.obj"; RPath "b.obj"; RPath "a.obj"]] in
  let config := {| cfg_onProgress := None; cfg_onError := None |} in
  let r := fst (loadPending config (run acts0 init)) in
  let w1 := snd (loadPending config (run acts0 init)) in
  let w2 := run [LoaderSuccess 1 (VObj 7)] w1 in
  promises w2 !! r = Some Pending
  ∧ promises (step w2 (LoaderError 0 (VObj 8))) !! 0
    = Some (Fulfilled VUndefined)
  ∧ promises (run [LoaderSuccess 1 (VObj 7); LoaderError 0 (VObj 8)] w1) !! r
    = Some (Fulfilled (VArray [VUndefined; VUndefined])).
Proof.
  intros acts0 config r w1 w2.
  destruct (exactly_once_settlement acts0 [LoaderSuccess 1 (VObj 7)] config)
    as (_ & _ & _ & H4 & _ & H6 & _).
  destruct (exactly_once_settlement acts0
              [LoaderSuccess 1 (VObj 7); LoaderError 0 (VObj 8)] config)
    as (_ & _ & _ & _ & _ & H6' & _).
  split; [exact H6|]. split; [|exact H6'].
  destruct (H4 0 {| op_loader := 0; op_path := "a.obj"; op_onProgress := None;
                    op_kont := KBatch 0 None; op_promise := 0;
                    op_status_of := InFlight |} eq_refl eq_refl)
    as (_ & _ & _ & H).
  exact (proj2 (proj2 (H eq_refl) (VObj 8))).
Defined.

(** *** A batch that settles undisturbed *)

Section Undisturbed.
Variable n0 : nat.

Lemma paths_inj_insert (l : list op) id o st :
  l !! id = Some o → paths_inj n0 l → paths_inj n0 (<[id := set_status st o]> l).
Proof.
  intros Ho Hinj i j oi oj Hi Hj
    [[-> ->]|[Hni Hoi]]%(lookup_insert_status _ _ _ _ _ _ Ho)
    [[-> ->]|[Hnj Hoj]]%(lookup_insert_status _ _ _ _ _ _ Ho); simpl;
    eauto.
Qed.

Lemma settle_resources id o st m w :
  _resources (react (op_kont o) (settle id o st m w)) = m.
Proof.
  unfold react. destruct (op_kont o) as [f|b f]; [done|].
  by destruct (all_settle_tables b (settle id o st m w))
    as (_ & _ & _ & _ & -> & _).
Qed.

Lemma settle_ops id o st m w :
  ops (react (op_kont o) (settle id o st m w))
  = <[id := set_status st o]> (ops w).
Proof.
  unfold react. destruct (op_kont o) as [f|b f]; [done|].
  by destruct (all_settle_tables b (settle id o st m w))
    as (_ & _ & -> & _).
Qed.

Lemma undisturbed_step w a :
  wf w → paths_inj n0 (ops w) → failed_absent n0 w → is_callback_from n0 a →
  paths_inj n0 (ops (step w a)) ∧ failed_absent n0 (step w a).
Proof.
  intros Hw Hinj Hfa Ha. destruct a; try done; cbn [step]; simpl in Ha.
  - destruct (ops w !! id) as [o|] eqn:Ho;
      [destruct (in_flight o) eqn:Hf|].
    + rewrite (on_success_settle id result o w) by done. split.
      * rewrite settle_ops. by apply paths_inj_insert.
      * intros i oi e Hi. rewrite settle_ops, settle_resources.
        intros [[-> ->]|[Hne Hoi]]%(lookup_insert_status _ _ _ _ _ _ Ho);
          [done|].
        intros Hst. rewrite lookup_insert_ne; [by eapply Hfa|].
        intros E. apply Hne. by apply (Hinj i id oi o).
    + rewrite on_success_stale; [done|]. congruence.
    + rewrite on_success_stale; [done|]. congruence.
  - destruct (ops w !! id) as [o|] eqn:Ho;
      [destruct (in_flight o) eqn:Hf|].
    + rewrite (on_error_settle id e o w) by done. split.
      * rewrite settle_ops. by apply paths_inj_insert.
      * intros i oi e' Hi. rewrite settle_ops, settle_resources.
        intros [[-> ->]|[Hne Hoi]]%(lookup_insert_status _ _ _ _ _ _ Ho).
        -- intros _. simpl. apply lookup_delete_eq.
        -- intros Hst. rewrite lookup_delete_ne; [by eapply Hfa|].
           intros E. apply Hne. by apply (Hinj i id oi o).
    + rewrite on_error_stale; [done|]. congruence.
    + rewrite on_error_stale; [done|]. congruence.
  - unfold on_progress. destruct (ops w !! id) as [o|]; [|done].
    destruct (op_status_of o); try done. by destruct (op_onProgress o).
Qed.

Lemma undisturbed_run acts w :
  wf w → drained w → paths_inj n0 (ops w) → failed_absent n0 w →
  Forall (is_callback_from n0) acts →
  failed_absent n0 (run acts w).
Proof.
  intros Hw Hd Hinj Hfa Hacts. revert w Hw Hd Hinj Hfa.
  induction Hacts as [|a acts Ha _ IH]; intros w Hw Hd Hinj Hfa; [done|].
  simpl. destruct (undisturbed_step w a Hw Hinj Hfa Ha) as [Hinj' Hfa'].
  destruct (wf_step w a (conj Hw Hd)) as [Hw' Hd']. by apply IH.
Qed.
End Undisturbed.

(** When only the loader calls back between a [loadPending] call and a
    later state, the key of every operation of the batch that failed is
    absent in that state. *)
Lemma failed_keys_absent acts0 config acts1 :
  let w0 := run acts0 init in
  let w1 := snd (loadPending config w0) in
  Forall (is_callback_from (length (ops w0))) acts1 →
  failed_absent (length (ops w0)) (run acts1 w1).
Proof.
  intros w0 w1 Hacts.
  destruct (loadPending_paths config w0) as (new & Hops & Hpaths).
  destruct (loadPending_spec config w0) as (new' & evs & c1 & Hops' & Hnew & _).
  rewrite Hops in Hops'. apply app_inv_head in Hops'. subst new'.
  fold w1 in Hops.
  assert (Hw1 : wf w1 ∧ drained w1).
  { change w1 with (step w0 (LoadPending config)). unfold w0.
    rewrite <- run_snoc. apply wf_reachable. }
  destruct Hw1 as [Hw1 Hd1].
  apply undisturbed_run; try done.
  - intros i j oi oj Hi Hj. rewrite Hops.
    rewrite !lookup_app_r by done. intros Hoi Hoj Heq.
    assert (NoDup (map op_path new)) as Hnd
      by (rewrite Hpaths; apply new_paths_NoDup).
    assert (i - length (ops w0) = j - length (ops w0)); [|lia].
    apply (NoDup_lookup _ _ _ (op_path oi) Hnd).
    + by rewrite list_lookup_fmap, Hoi.
    + by rewrite list_lookup_fmap, Hoj, Heq.
  - intros i o e Hi. rewrite Hops, lookup_app_r by done. intros Ho Hst.
    apply list_elem_of_lookup_2 in Ho. rewrite Forall_forall in Hnew.
    destruct (Hnew o Ho) as (_ & Hf & _). unfold in_flight in Hf.
    by rewrite Hst in Hf.
Qed.

(** C5: failures reported by loaders never make the promise of
    [loadPending] reject: it is fulfilled as soon as every operation of the
    batch has settled, however many failed; when the error handler of an
    operation of the batch has run, the key of the operation is absent from
    the cache ([get] answers [undefined]: neither the placeholder nor a
    stale value), and the error has been passed to the effective [onError]
    callback, if there is one, exactly once; and when only loader callbacks
    of the batch run after the call, the key of every operation that failed
    is still absent in any later state, in particular when the promise is
    fulfilled. *)
Theorem batch_failure_isolated (acts0 acts1 : list action)
    (config : LoadingConfig) :
  let w0 := run acts0 init in
  let b := length (batches w0) in
  let r := fst (loadPending config w0) in
  let w1 := snd (loadPending config w0) in
  let onError := nullish_or (cfg_onError config) (_onError w0) in
  let w2 := run acts1 w1 in
  (∀ x, promises w2 !! r ≠ Some (Rejected x))
  ∧ (forallb settled (batch_ops b (ops w2)) = true →
     ∃ v, promises w2 !! r = Some (Fulfilled v))
  ∧ (∀ id o, ops w2 !! id = Some o → of_batch b o = true →
       error_calls id (trace w2)
       = match op_status_of o, onError with
         | Failed e, Some cb => [(cb, e)]
         | _, _ => []
         end)
  ∧ (∀ id o e, ops w2 !! id = Some o → of_batch b o = true →
       in_flight o = true →
       let w3 := step w2 (LoaderError id e) in
       _resources w3 !! op_path o = None
       ∧ get (op_path o) w3 = VUndefined
       ∧ ops w3 !! id = Some (set_status (Failed e) o)
       ∧ error_calls id (trace w3)
         = match onError with Some cb => [(cb, e)] | None => [] end
       ∧ ∀ x, promises w3 !! r ≠ Some (Rejected x))
  ∧ (Forall (is_callback_from (length (ops w0))) acts1 →
     ∀ id o e, length (ops w0) ≤ id → ops w2 !! id = Some o →
       op_status_of o = Failed e →
       _resources w2 !! op_path o = None ∧ get (op_path o) w2 = VUndefined).
Proof.
  intros w0 b r w1 onError w2.
  destruct (batch_later acts0 config acts1)
    as (Hw2 & Hd2 & c2 & Hb2 & _ & HoE & Hall & Htot & Hlen).
  fold w0 b r w1 w2 onError in Hw2, Hd2, Hb2, HoE, Hall, Htot, Hlen.
  assert (Heff : ∀ w o, of_batch b o = true →
            (∃ c, batches w !! b = Some c ∧ b_onError c = onError) →
            effective_onError w o = onError).
  { intros w o [f Hk]%of_batch_kont (c & Hc & Hce).
    unfold effective_onError, batch_onError. by rewrite Hk, Hc. }
  split; [|split; [|split; [|split]]].
  - destruct Hw2 as [[] _]. apply wf_norej0.
  - intros Hdone. destruct Hw2 as [_ Ha]. specialize (Ha b c2 Hb2).
    unfold all_ok, all_pstate in Ha. rewrite Hall, Hdone in Ha. eauto.
  - intros id o Ho Hb. destruct Hw2 as [[] _].
    rewrite wf_errors0, Ho, (Heff w2 o Hb); [done|eauto].
  - intros id o e Ho Hb Hf w3.
    destruct (wf_step w2 (LoaderError id e) (conj Hw2 Hd2)) as [Hw3 _].
    fold w3 in Hw3.
    destruct (step_same_closure b c2 w2 (LoaderError id e) Hb2)
      as (c3 & Hb3 & _ & HoE3 & _).
    fold w3 in Hb3.
    assert (Ho3 : ops w3 !! id = Some (set_status (Failed e) o)).
    { subst w3. cbn [step]. rewrite on_error_ops, Ho, Hf.
      apply list_lookup_insert_eq. by eapply lookup_lt_Some. }
    assert (Hr3 : _resources w3 !! op_path o = None).
    { subst w3. cbn [step]. rewrite (on_error_settle id e o w2) by done.
      apply of_batch_kont in Hb as [f Hk]. rewrite Hk. cbn [react].
      match goal with |- context [all_settle b ?x] =>
        destruct (all_settle_tables b x) as (_ & _ & _ & _ & -> & _) end.
      simpl. apply lookup_delete_eq. }
    repeat split; try done.
    + unfold get. by rewrite Hr3.
    + destruct Hw3 as [[] _]. rewrite wf_errors0, Ho3.
      rewrite (Heff w3 (set_status (Failed e) o) Hb); [done|].
      exists c3. split; [done|congruence].
    + destruct Hw3 as [[] _]. apply wf_norej0.
  - intros Hacts id o e Hid Ho Hst.
    pose proof (failed_keys_absent acts0 config acts1 Hacts id o e Hid Ho Hst)
      as Habs.
    split; [done|]. unfold get. fold w0 w1 w2 in Habs. by rewrite Habs.
Qed.

(** ** Further properties of the module *)

(** *** The manual cache *)

(** X1: [add] then [get] gives the value back; a second [add] on the same
    path wins; [add] leaves every other path as it was; and [remove] of the
    path undoes it for [get]. *)
Theorem add_get_roundtrip (path : string) (v v' : value) (w : world) :
  get path (add path v w) = v
  ∧ get path (add path v (add path v' w)) = v
  ∧ add path v (add path v' w) = add path v w
  ∧ (∀ q, q ≠ path → get q (add path v w) = get q w)
  ∧ get path (remove [path] (add path v w)) = VUndefined.
Proof.
  unfold get, add, remove. simpl.
  rewrite !lookup_insert_eq, lookup_delete_eq, insert_insert_eq.
  repeat split; try done.
  intros q Hq. by rewrite lookup_insert_ne.
Qed.

Lemma remove_lookup ps w p :
  _resources (remove ps w) !! p
  = if decide (p ∈ ps) then None else _resources w !! p.
Proof.
  unfold remove. revert w. induction ps as [|q ps IH]; intros w; simpl.
  - done.
  - rewrite IH. simpl. destruct (decide (p ∈ ps)) as [Hin|Hnin].
    + rewrite decide_True; [done|]. by right.
    + destruct (decide (p = q)) as [->|Hne].
      * rewrite decide_True by left. apply lookup_delete_eq.
      * rewrite decide_False by (rewrite elem_of_cons; intros [?|?]; done).
        by apply lookup_delete_ne.
Qed.

Lemma remove_defaults ps w :
  _onProgress (remove ps w) = _onProgress w
  ∧ _onError (remove ps w) = _onError w.
Proof.
  unfold remove. revert w. induction ps as [|q ps IH]; intros w; simpl; [done|].
  by destruct (IH (set_resources (delete q (_resources w)) w)) as [-> ->].
Qed.

(** X2: after [remove] every listed path is absent and every other path is
    as before; paths that are not keys are skipped without error (when none
    is a key the state is unchanged); nothing but the cache is touched: the
    registry, the queue, the default callbacks, the loader instances, the
    operations, the promises, the closures of the batches and the calls
    made so far are as they were. *)
Theorem remove_deletes_listed (ps : list string) (w : world) :
  (∀ p, p ∈ ps → _resources (remove ps w) !! p = None
                 ∧ get p (remove ps w) = VUndefined)
  ∧ (∀ p, p ∉ ps → _resources (remove ps w) !! p = _resources w !! p
                   ∧ get p (remove ps w) = get p w)
  ∧ ((∀ p, p ∈ ps → _resources w !! p = None) → remove ps w = w)
  ∧ remove ps (remove ps w) = remove ps w
  ∧ (_loaders (remove ps w) = _loaders w ∧ _pending (remove ps w) = _pending w
     ∧ _onProgress (remove ps w) = _onProgress w
     ∧ _onError (remove ps w) = _onError w
     ∧ instances (remove ps w) = instances w
     ∧ ops (remove ps w) = ops w ∧ promises (remove ps w) = promises w
     ∧ batches (remove ps w) = batches w
     ∧ trace (remove ps w) = trace w).
Proof.
  assert (Hid : ∀ w', (∀ p, p ∈ ps → _resources w' !! p = None) →
                      remove ps w' = w').
  { intros w' Hnone. destruct (remove_tables ps w')
      as (? & ? & ? & ? & ? & ? & ?).
    destruct (remove_defaults ps w') as [? ?].
    apply world_eq; try done.
    apply map_eq. intros p. rewrite remove_lookup.
    case_decide as Hp; [|done]. symmetry. by apply Hnone. }
  split; [|split; [|split; [|split]]].
  - intros p Hp. unfold get. rewrite remove_lookup, decide_True by done. done.
  - intros p Hp. unfold get. rewrite remove_lookup, decide_False by done. done.
  - apply Hid.
  - apply Hid. intros p Hp. by rewrite remove_lookup, decide_True.
  - destruct (remove_tables ps w) as (? & ? & ? & ? & ? & ? & ?).
    by destruct (remove_defaults ps w) as [? ?].
Qed.

(** *** A single load, to its end *)

(** The operation of a [load] call on a missing key, seen from a later
    state in which the loader has not called it back. *)
Lemma load_in_flight_later acts0 acts1 t path onP onE :
  let w0 := run acts0 init in
  let p := fst (load t path onP onE w0) in
  let w1 := snd (load t path onP onE w0) in
  let id := length (ops w0) in
  let w2 := run acts1 w1 in
  _resources w0 !! path = None →
  Forall (not_callback_of id) acts1 →
  wf w2 ∧ drained w2 ∧ p = length (promises w0)
  ∧ promises w2 !! p = Some Pending
  ∧ ∃ l, ops w2 !! id
         = Some {| op_loader := l; op_path := path; op_onProgress := onP;
                   op_kont := KLoad onE; op_promise := p;
                   op_status_of := InFlight |}.
Proof.
  intros w0 p w1 id w2 Hnone Hacts.
  destruct (load_uncached t path onP onE w0 Hnone) as (l & w' & Hl & Hops & _).
  assert (Hp : p = length (promises w0)) by (subst p; by rewrite Hl).
  assert (Ho1 : ops w1 !! id
    = Some {| op_loader := l; op_path := path; op_onProgress := onP;
              op_kont := KLoad onE; op_promise := p;
              op_status_of := InFlight |}).
  { subst w1. rewrite Hl, Hp. cbn [snd]. rewrite Hops. apply lookup_snoc_eq. }
  assert (Hw2 : wf w2 ∧ drained w2).
  { subst w2 w1 w0.
    change (snd (load t path onP onE (run acts0 init)))
      with (step (run acts0 init) (Load t path onP onE)).
    rewrite <- run_snoc, <- run_app. apply wf_reachable. }
  destruct Hw2 as [Hw2 Hd2].
  pose proof (run_keeps_op id _ acts1 w1 Ho1 Hacts) as Ho2. fold w2 in Ho2.
  split; [done|]. split; [done|]. split; [done|]. split.
  - exact (in_flight_pending w2 id _ Hw2 Ho2 eq_refl).
  - by exists l.
Qed.

(** X3: when the loader reports success for a [load] call, the result is
    stored under the path, whatever was put there meanwhile, and the
    promise of the call, pending until then, is fulfilled with the result,
    once; no error callback is called. *)
Theorem load_success_stores_result (acts0 acts1 : list action)
    (t : LoaderType) (path : string) (onP onE : option callback)
    (result : value) :
  let w0 := run acts0 init in
  let p := fst (load t path onP onE w0) in
  let w1 := snd (load t path onP onE w0) in
  let id := length (ops w0) in
  let w2 := run acts1 w1 in
  let w3 := step w2 (LoaderSuccess id result) in
  _resources w0 !! path = None →
  Forall (not_callback_of id) acts1 →
  promises w2 !! p = Some Pending
  ∧ _resources w3 !! path = Some result
  ∧ get path w3 = result
  ∧ trace w3 = trace w2 ++ [EvSettled p result]
  ∧ promises w3 !! p = Some (Fulfilled result)
  ∧ settle_calls p (trace w3) = [result]
  ∧ error_calls id (trace w3) = []
  ∧ _loaders w3 = _loaders w2 ∧ _pending w3 = _pending w2.
Proof.
  intros w0 p w1 id w2 w3 Hnone Hacts.
  destruct (load_in_flight_later acts0 acts1 t path onP onE Hnone Hacts)
    as (Hw2 & Hd2 & Hp & Hpend & l & Ho2).
  fold w0 p w1 id w2 in Hw2, Hd2, Hp, Hpend, Ho2.
  set (o := {| op_loader := l; op_path := path; op_onProgress := onP;
               op_kont := KLoad onE; op_promise := p;
               op_status_of := InFlight |}) in *.
  destruct (wf_step w2 (LoaderSuccess id result) (conj Hw2 Hd2)) as [Hw3 _].
  fold w3 in Hw3.
  assert (E3 : w3 = settle id o (Succeeded result)
                      (<[path := result]> (_resources w2)) w2).
  { subst w3. cbn [step]. by rewrite (on_success_settle id result o w2). }
  assert (Hr3 : _resources w3 !! path = Some result).
  { rewrite E3. simpl. apply lookup_insert_eq. }
  assert (Hp3 : promises w3 !! p = Some (Fulfilled result)).
  { rewrite E3. simpl. apply list_lookup_insert_eq. by eapply lookup_lt_Some. }
  assert (Ho3 : ops w3 !! id = Some (set_status (Succeeded result) o)).
  { rewrite E3. simpl. apply list_lookup_insert_eq. by eapply lookup_lt_Some. }
  split; [done|]. split; [done|]. split; [unfold get; by rewrite Hr3|].
  split; [by rewrite E3|]. split; [done|].
  destruct Hw3 as [[] _].
  split; [by rewrite wf_settled0, Hp3|].
  split; [by rewrite wf_errors0, Ho3|].
  by rewrite E3.
Qed.

Lemma load_success_stores_result_witness :
  get "a.obj"
    (step (run [Add "a.obj" (VObj 1)]
             (snd (load 0 "a.obj" None None (run [] init))))
       (LoaderSuccess 0 (VObj 9)))
  = VObj 9.
Proof.
  apply (load_success_stores_result [] [Add "a.obj" (VObj 1)] 0 "a.obj"
           None None (VObj 9)).
  - reflexivity.
  - repeat constructor; discriminate.
Defined.

(** X4: a path whose load failed can be loaded again: after the error
    handler of a [load] call has run, the next [load] of the path calls the
    loader again, puts the placeholder back and returns a pending
    promise. *)
Theorem load_retries_after_error (acts0 acts1 : list action)
    (t t' : LoaderType) (path : string) (onP onE onP' onE' : option callback)
    (e : value) :
  let w0 := run acts0 init in
  let w1 := snd (load t path onP onE w0) in
  let id := length (ops w0) in
  let w2 := run acts1 w1 in
  let w3 := step w2 (LoaderError id e) in
  let p' := fst (load t' path onP' onE' w3) in
  let w4 := snd (load t' path onP' onE' w3) in
  _resources w0 !! path = None →
  Forall (not_callback_of id) acts1 →
  _resources w3 !! path = None
  ∧ length (ops w4) = S (length (ops w3))
  ∧ (∃ o, ops w4 !! length (ops w3) = Some o
          ∧ op_path o = path ∧ in_flight o = true ∧ op_promise o = p'
          ∧ op_kont o = KLoad onE')
  ∧ _resources w4 !! path = Some VNull
  ∧ promises w4 !! p' = Some Pending.
Proof.
  intros w0 w1 id w2 w3 p' w4 Hnone Hacts.
  destruct (load_in_flight_later acts0 acts1 t path onP onE Hnone Hacts)
    as (Hw2 & Hd2 & Hp & Hpend & l & Ho2).
  fold w0 w1 id w2 in Hw2, Hd2, Hp, Hpend, Ho2.
  assert (Hr3 : _resources w3 !! path = None).
  { subst w3. cbn [step]. rewrite (on_error_settle id e _ w2 Hw2 Ho2 eq_refl).
    simpl. apply lookup_delete_eq. }
  destruct (load_uncached t' path onP' onE' w3 Hr3)
    as (l' & w' & Hl & Hops & Hproms & Hres & _).
  subst p' w4. rewrite Hl. cbn [fst snd]. rewrite Hops, Hproms, Hres.
  split; [done|]. split; [rewrite length_app; simpl; lia|].
  split; [|split; [apply lookup_insert_eq|apply lookup_snoc_eq]].
  eexists. split; [apply lookup_snoc_eq|]. by repeat split.
Qed.

Lemma load_retries_after_error_witness :
  _resources
    (snd (load 0 "a.obj" None None
            (step (run [] (snd (load 0 "a.obj" None None (run [] init))))
               (LoaderError 0 (VObj 9)))))
    !! "a.obj"
  = Some VNull.
Proof.
  apply (load_retries_after_error [] [] 0 0 "a.obj" None None None None
           (VObj 9)).
  - reflexivity.
  - constructor.
Defined.

(** X5: [remove] of a path whose load is in flight makes the next [load]
    call the loader a second time: both operations are then in flight for
    the same path. *)
Theorem remove_allows_second_load (t t' : LoaderType) (path : string)
    (onP onE onP' onE' : option callback) (w : world) :
  _resources w !! path = None →
  let w1 := snd (load t path onP onE w) in
  let w2 := remove [path] w1 in
  let w3 := snd (load t' path onP' onE' w2) in
  length (ops w3) = S (S (length (ops w)))
  ∧ (∃ o1 o2, ops w3 !! length (ops w) = Some o1
              ∧ ops w3 !! S (length (ops w)) = Some o2
              ∧ op_path o1 = path ∧ op_path o2 = path
              ∧ in_flight o1 = true ∧ in_flight o2 = true
              ∧ op_promise o1 ≠ op_promise o2)
  ∧ _resources w3 !! path = Some VNull.
Proof.
  intros Hnone w1 w2 w3.
  destruct (load_uncached t path onP onE w Hnone)
    as (l & w' & Hl & Hops & Hproms & _).
  assert (Hr2 : _resources w2 !! path = None).
  { subst w2. rewrite remove_lookup, decide_True; [done|]. by left. }
  destruct (load_uncached t' path onP' onE' w2 Hr2)
    as (l' & w'' & Hl' & Hops' & Hproms' & Hres' & _).
  destruct (remove_tables [path] w1) as (_ & _ & Ho2 & Hp2 & _).
  fold w2 in Ho2, Hp2.
  subst w3. rewrite Hl'. cbn [snd]. rewrite Hops', Hres', Ho2, Hp2.
  subst w1. rewrite Hl. cbn [snd]. rewrite Hops, Hproms.
  split; [rewrite !length_app; simpl; lia|].
  split; [|apply lookup_insert_eq].
  eexists _, _. split; [apply lookup_app_l_Some, lookup_snoc_eq|].
  split.
  { replace (S (length (ops w))) with (length (ops w ++ [
      {| op_loader := l; op_path := path; op_onProgress := onP;
         op_kont := KLoad onE; op_promise := length (promises w);
         op_status_of := InFlight |}])) by (rewrite length_app; simpl; lia).
    apply lookup_snoc_eq. }
  simpl. repeat split; try done. rewrite length_app. simpl. lia.
Qed.

Lemma remove_allows_second_load_witness :
  length (ops (snd (load 0 "a.obj" None None
                      (remove ["a.obj"]
                         (snd (load 0 "a.obj" None None init))))))
  = 2.
Proof.
  apply (remove_allows_second_load 0 0 "a.obj" None None None None init).
  reflexivity.
Defined.

(** *** The handlers of a batch *)






(** X7: the callbacks of a batch are chosen when [loadPending] is called:
    the one of the configuration if it has one, else the default of that
    moment. Every later progress or error call of the batch goes to that
    callback, whatever [setOnProgressDefault] and [setOnErrorDefault] do
    afterwards; when neither the configuration nor the default has a
    callback, none is ever called. Each of the two setters replaces its own
    default and nothing else: the other default, the cache, the registry,
    the queue, the loader instances, the operations, the promises, the
    closures of the batches and the calls made so far are as they were. *)
Theorem batch_callbacks_fixed (acts0 acts1 : list action)
    (config : LoadingConfig) :
  let w0 := run acts0 init in
  let b := length (batches w0) in
  let w1 := snd (loadPending config w0) in
  let w2 := run acts1 w1 in
  (∀ cb k t, (cb, k, t) ∈ progress_calls b (trace w2) →
     nullish_or (cfg_onProgress config) (_onProgress w0) = Some cb)
  ∧ (∀ id o cb e, ops w2 !! id = Some o → of_batch b o = true →
       (cb, e) ∈ error_calls id (trace w2) →
       nullish_or (cfg_onError config) (_onError w0) = Some cb)
  ∧ (∀ f (w : world),
       let w' := setOnProgressDefault f w in
       _onProgress w' = f ∧ _onError w' = _onError w
       ∧ _loaders w' = _loaders w ∧ _resources w' = _resources w
       ∧ _pending w' = _pending w ∧ instances w' = instances w
       ∧ ops w' = ops w ∧ promises w' = promises w
       ∧ batches w' = batches w ∧ trace w' = trace w)
  ∧ (∀ f (w : world),
       let w' := setOnErrorDefault f w in
       _onError w' = f ∧ _onProgress w' = _onProgress w
       ∧ _loaders w' = _loaders w ∧ _resources w' = _resources w
       ∧ _pending w' = _pending w ∧ instances w' = instances w
       ∧ ops w' = ops w ∧ promises w' = promises w
       ∧ batches w' = batches w ∧ trace w' = trace w).
Proof.
  intros w0 b w1 w2.
  destruct (batch_later acts0 config acts1)
    as (Hw2 & _ & c2 & Hb2 & HoP & HoE & _).
  fold w0 b w1 w2 in Hw2, Hb2, HoP, HoE.
  destruct Hw2 as [[] _]. split; [|split; [|split; by repeat split]].
  - intros cb k t. rewrite wf_progress0, Hb2, HoP.
    destruct (nullish_or (cfg_onProgress config) (_onProgress w0)) as [cb'|];
      [|by intros ?%elem_of_nil].
    intros (k' & [= -> _ _] & _)%list_elem_of_fmap. done.
  - intros id o cb e Ho [f Hk]%of_batch_kont.
    rewrite wf_errors0, Ho. unfold effective_onError, batch_onError.
    rewrite Hk, Hb2, HoE.
    destruct (op_status_of o),
      (nullish_or (cfg_onError config) (_onError w0)) as [cb'|];
      try by intros ?%elem_of_nil.
    by intros [= -> _]%list_elem_of_singleton.
Qed.

Lemma loadPending_empty_promises config w :
  _pending w = [] →
  promises (snd (loadPending config w))
  = promises w ++ [Fulfilled (VArray [])]
  ∧ fst (loadPending config w) = length (promises w)
  ∧ _pending (snd (loadPending config w)) = []
  ∧ _resources (snd (loadPending config w)) = _resources w
  ∧ _loaders (snd (loadPending config w)) = _loaders w.
Proof.
  intros Hq. unfold loadPending. simpl. rewrite Hq. simpl.
  unfold promise_all. simpl. unfold all_settle, upd_batch. simpl.
  rewrite list_lookup_alter_eq, lookup_snoc_eq. simpl.
  rewrite resolve_pending by apply lookup_snoc_eq. simpl.
  by rewrite insert_snoc.
Qed.

(** X8: the queue is empty when [loadPending] returns, so a second
    [loadPending] right after the first finds nothing to do: it calls no
    loader, its promise is already fulfilled with the empty array, and it
    does not wait for the operations of the first call, whose promise is
    left as it was. *)
Theorem second_loadPending_immediate (config1 config2 : LoadingConfig)
    (w : world) :
  let r1 := fst (loadPending config1 w) in
  let w1 := snd (loadPending config1 w) in
  let r2 := fst (loadPending config2 w1) in
  let w2 := snd (loadPending config2 w1) in
  _pending w1 = []
  ∧ ops w2 = ops w1
  ∧ _resources w2 = _resources w1
  ∧ promises w2 !! r2 = Some (Fulfilled (VArray []))
  ∧ trace w2 = trace w1 ++ [EvSettled r2 (VArray [])]
  ∧ r2 ≠ r1
  ∧ promises w2 !! r1 = promises w1 !! r1.
Proof.
  intros r1 w1 r2 w2.
  destruct (loadPending_spec config1 w)
    as (new & evs & c1 & _ & _ & _ & _ & Hpr & _ & _ & _ & _ & _ & _ & _ & _ & Hq).
  fold r1 w1 in Hpr, Hq.
  destruct (loadPending_empty config2 w1 Hq) as (Ho & Hr & Ht & Hp).
  destruct (loadPending_empty_promises config2 w1 Hq) as (Hps & Hr2 & _).
  fold r2 w2 in Ho, Hr, Ht, Hp, Hps, Hr2.
  pose proof (lookup_lt_Some _ _ _ Hpr) as Hlt.
  repeat split; try done.
  - lia.
  - rewrite Hps. by rewrite lookup_app_l.
Qed.

(** *** What a drain leaves behind *)

Lemma new_paths_fresh (S : gset string) l :
  NoDup l → (∀ p, p ∈ l → p ∉ S) → new_paths S l = l.
Proof.
  intros Hnd. revert S. induction Hnd as [|q l Hq Hnd IH]; intros S HS;
    simpl; [done|].
  rewrite decide_False by (apply HS; left). f_equal. apply IH.
  intros p Hp. rewrite elem_of_union, elem_of_singleton.
  intros [->|HpS]; [done|]. apply (HS p); [by right|done].
Qed.

Lemma queued_paths_snoc q r :
  queued_paths (q ++ [r]) = map item_path (paths r) ++ queued_paths q.
Proof. unfold queued_paths. by rewrite rev_unit. Qed.

(** X9: the drain is a stack: the loader is called for the paths of the
    request queued last first, then for those of the one before, and inside
    a request in the order of the arguments of [preload], skipping the
    paths that are keys of the cache or were met earlier in the drain. *)
Theorem drain_stack_order (config : LoadingConfig) (w : world) :
  let w1 := snd (loadPending config w) in
  (∀ t items, queued_paths (_pending (preload t items w))
              = map item_path items ++ queued_paths (_pending w))
  ∧ ∃ new, ops w1 = ops w ++ new
      ∧ map op_path new
        = new_paths (dom (_resources w)) (queued_paths (_pending w))
      ∧ (NoDup (queued_paths (_pending w)) →
         (∀ p, p ∈ queued_paths (_pending w) → _resources w !! p = None) →
         map op_path new = queued_paths (_pending w)).
Proof.
  intros w1. split; [intros; apply queued_paths_snoc|].
  destruct (loadPending_paths config w) as (new & Hops & Hpaths).
  exists new. split; [done|]. split; [done|].
  intros Hnd Hfresh. rewrite Hpaths. apply new_paths_fresh; [done|].
  intros p Hp. apply not_elem_of_dom. by apply Hfresh.
Qed.

Lemma elem_of_rev {A} (x : A) (l : list A) : x ∈ rev l ↔ x ∈ l.
Proof. rewrite !list_elem_of_In. symmetry. apply in_rev. Qed.

Lemma fold_items_loader b l items w :
  _loaders (fold_left (_load_item b l) items w) = _loaders w
  ∧ ∃ new, ops (fold_left (_load_item b l) items w) = ops w ++ new
           ∧ Forall (fun o => op_loader o = l) new.
Proof.
  revert w. induction items as [|res items IH]; intros w; simpl.
  - split; [done|]. exists []. by rewrite app_nil_r.
  - destruct (IH (_load_item b l w res)) as (Hl & new & Hops & Hnew).
    destruct (load_item_registry b l w res) as [Hl1 _].
    split; [by rewrite Hl|].
    assert (∃ new1, ops (_load_item b l w res) = ops w ++ new1
                    ∧ Forall (fun o => op_loader o = l) new1)
      as (new1 & Hops1 & Hnew1).
    { unfold _load_item. destruct (_resources w !! item_path res).
      - exists []. rewrite app_nil_r. split; [|done].
        by destruct (item_onLoad res).
      - eexists [_]. simpl. split; [done|]. by constructor. }
    exists (new1 ++ new). rewrite Hops, Hops1, app_assoc. split; [done|].
    by apply Forall_app.
Qed.

Lemma getLoader_registered t w :
  registry_le w (snd (getLoader t w))
  ∧ _loaders (snd (getLoader t w)) !! t = Some (fst (getLoader t w)).
Proof.
  unfold getLoader, registry_le.
  destruct (_loaders w !! t) as [l|] eqn:E; simpl; [done|]. split.
  - intros t' l' H. rewrite lookup_insert_ne; [done|].
    intros Heq. assert (Some l' = None) by (rewrite <- H, <- E; by subst).
    done.
  - apply lookup_insert_eq.
Qed.

Lemma fold_loads_loader b rs w :
  let w' := fold_left (fun w r => _load b r w) rs w in
  registry_le w w'
  ∧ (∀ r, r ∈ rs → is_Some (_loaders w' !! loader r))
  ∧ ∃ new, ops w' = ops w ++ new
      ∧ Forall (fun o => ∃ r, r ∈ rs
                  ∧ _loaders w' !! loader r = Some (op_loader o)) new.
Proof.
  revert w. induction rs as [|r rs IH]; intros w; simpl.
  - split; [by intros t l|]. split; [by intros r ?%elem_of_nil|].
    exists []. by rewrite app_nil_r.
  - destruct (IH (_load b r w)) as (Hle & Hreg & new & Hops & Hnew).
    assert (registry_le w (_load b r w)
            ∧ ∃ l new1, _loaders (_load b r w) !! loader r = Some l
                ∧ ops (_load b r w) = ops w ++ new1
                ∧ Forall (fun o => op_loader o = l) new1)
      as (Hle1 & l & new1 & Hl1 & Hops1 & Hnew1).
    { unfold _load.
      destruct (getLoader_registered (loader r) w) as [Hle0 Hl0].
      destruct (getLoader_tables (loader r) w) as (Ho0 & _).
      destruct (getLoader (loader r) w) as [l wl]. cbn [fst snd] in *.
      destruct (fold_items_loader b l (paths r) wl) as (Hl & new1 & Ho1 & Hn1).
      split; [intros t' l' H; rewrite Hl; by apply Hle0|].
      exists l, new1. by rewrite Hl, Ho1, Ho0. }
    split; [intros t' l' H; by apply Hle, Hle1|]. split.
    + intros r' [->|Hin]%elem_of_cons; [|by apply Hreg].
      exists l. by apply Hle.
    + exists (new1 ++ new). rewrite Hops, Hops1, app_assoc. split; [done|].
      apply Forall_app. split.
      * eapply Forall_impl; [done|]. simpl. intros o <-.
        exists r. split; [by left|by apply Hle].
      * eapply Forall_impl; [done|]. simpl. intros o (r' & Hin & Hr').
        exists r'. split; [by right|done].
Qed.

(** X10: a drain asks the registry for the loader of every request before
    it looks at its paths: after [loadPending] the type of every queued
    request is registered, also of a request without paths or with only
    cached paths; registrations made before are kept; and every operation
    created was given the instance registered for the type of a queued
    request. *)
Theorem drain_registers_loaders (config : LoadingConfig) (w : world) :
  let w1 := snd (loadPending config w) in
  registry_le w w1
  ∧ (∀ r, r ∈ _pending w → is_Some (_loaders w1 !! loader r))
  ∧ (∀ t items,
       is_Some (_loaders (snd (loadPending config (preload t items w))) !! t))
  ∧ ∃ new, ops w1 = ops w ++ new
      ∧ Forall (fun o => ∃ r, r ∈ _pending w
                  ∧ _loaders w1 !! loader r = Some (op_loader o)) new.
Proof.
  assert (H : ∀ w', let w1 := snd (loadPending config w') in
    registry_le w' w1
    ∧ (∀ r, r ∈ _pending w' → is_Some (_loaders w1 !! loader r))
    ∧ ∃ new, ops w1 = ops w' ++ new
        ∧ Forall (fun o => ∃ r, r ∈ _pending w'
                    ∧ _loaders w1 !! loader r = Some (op_loader o)) new).
  { intros w'. unfold loadPending, promise_all, new_promise. cbn [snd].
    match goal with |- context [all_settle ?b ?x] =>
      destruct (all_settle_tables b x) as (El & _ & Eo & _) end.
    unfold registry_le. rewrite El, Eo.
    cbn [ops _loaders upd_batch set_batches set_promises].
    match goal with |- context [drain ?n ?b ?x] =>
      change n with (length (_pending x));
      rewrite (drain_fold b (length (_pending x)) x) by done;
      destruct (fold_loads_loader b (rev (_pending x)) x)
        as (Hle & Hreg & new & Hops & Hnew)
    end.
    cbn [ops _loaders set_pending _pending set_batches] in *.
    split; [done|]. split.
    - intros r Hr. apply Hreg. by apply elem_of_rev.
    - exists new. split; [done|]. eapply Forall_impl; [done|]. simpl.
      intros o (r & Hr & Hl). exists r. split; [|done].
      by apply elem_of_rev. }
  intros w1. destruct (H w) as (Hle & Hreg & Hnew).
  split; [done|]. split; [done|]. split; [|done].
  intros t items. destruct (H (preload t items w)) as (_ & Hreg' & _).
  apply (Hreg' {| loader := t; paths := items |}). simpl.
  apply elem_of_app. right. by left.
Qed.

Lemma loadPending_dom config w :
  dom (_resources (snd (loadPending config w)))
  = dom (_resources w) ∪ list_to_set (queued_paths (_pending w)).
Proof.
  unfold loadPending, promise_all, new_promise. cbn [snd].
  match goal with |- context [all_settle ?b ?x] =>
    destruct (all_settle_tables b x) as (_ & _ & _ & _ & -> & _) end.
  cbn [_resources upd_batch set_batches set_promises].
  match goal with |- context [drain ?n ?b ?x] =>
    change n with (length (_pending x));
    rewrite (drain_fold b (length (_pending x)) x) by done;
    destruct (fold_loads_paths b (rev (_pending x)) x) as (new & _ & _ & Hd)
  end.
  cbn [_resources set_pending]. by rewrite Hd.
Qed.

Lemma loadPending_new_null config w :
  ∀ p v, _resources (snd (loadPending config w)) !! p = Some v →
         _resources w !! p = Some v ∨ v = VNull.
Proof.
  unfold loadPending, promise_all, new_promise. cbn [snd].
  match goal with |- context [all_settle ?b ?x] =>
    destruct (all_settle_tables b x) as (_ & _ & _ & _ & -> & _) end.
  cbn [_resources upd_batch set_batches set_promises].
  apply (drain_invariant
    (fun w' => ∀ p v, _resources w' !! p = Some v →
                      _resources w !! p = Some v ∨ v = VNull)).
  - done.
  - intros w' t. by destruct (getLoader_tables t w')
      as (_ & _ & _ & _ & -> & _).
  - intros w' l res Hw' q u. unfold _load_item.
    destruct (_resources w' !! item_path res) eqn:E.
    + destruct (item_onLoad res); apply Hw'.
    + simpl. destruct (decide (item_path res = q)) as [->|Hne].
      * rewrite lookup_insert_eq. intros [= <-]. by right.
      * rewrite lookup_insert_ne by done. apply Hw'.
  - intros q u Hq. by left.
Qed.

(** X11: [loadPending] never removes or changes an entry of the cache: an
    existing entry keeps its value, every queued path that was not a key
    holds the placeholder [null] when the call returns, and no other key
    appears. *)
Theorem drain_cache_effect (config : LoadingConfig) (w : world) (p : string) :
  _resources (snd (loadPending config w)) !! p
  = with_placeholders (_resources w) (queued_paths (_pending w)) p.
Proof.
  unfold with_placeholders.
  destruct (loadPending_spec config w)
    as (_ & _ & _ & _ & _ & _ & _ & _ & _ & _ & _ & _ & _ & _ & _ & Hres & _).
  destruct (_resources w !! p) as [v|] eqn:E; [by apply Hres|].
  pose proof (loadPending_dom config w) as Hdom.
  case_decide as Hp.
  - assert (p ∈ dom (_resources (snd (loadPending config w)))) as Hin.
    { rewrite Hdom, elem_of_union, elem_of_list_to_set. by right. }
    apply elem_of_dom in Hin as [v Hv]. rewrite Hv.
    destruct (loadPending_new_null config w p v Hv) as [?| ->]; [congruence|done].
  - apply not_elem_of_dom. rewrite Hdom, elem_of_union, elem_of_list_to_set.
    intros [Hin|?]; [|done]. apply elem_of_dom in Hin as [? ?]. congruence.
Qed.

(** *** The cache while a batch settles *)

Section Settling.
Variable n0 : nat.

Lemma entries_follow_step w a :
  wf w → paths_inj n0 (ops w) → entries_follow n0 w → is_callback_from n0 a →
  entries_follow n0 (step w a).
Proof.
  intros Hw Hinj Hen Ha. destruct a; try done; cbn [step]; simpl in Ha.
  - destruct (ops w !! id) as [o|] eqn:Ho; [destruct (in_flight o) eqn:Hf|].
    + rewrite (on_success_settle id result o w) by done.
      intros i oi Hi. rewrite settle_ops, settle_resources.
      intros [[-> ->]|[Hne Hoi]]%(lookup_insert_status _ _ _ _ _ _ Ho).
      * simpl. apply lookup_insert_eq.
      * rewrite lookup_insert_ne; [by apply (Hen i)|].
        intros E. apply Hne. by apply (Hinj i id oi o).
    + rewrite on_success_stale; [done|]. congruence.
    + rewrite on_success_stale; [done|]. congruence.
  - destruct (ops w !! id) as [o|] eqn:Ho; [destruct (in_flight o) eqn:Hf|].
    + rewrite (on_error_settle id e o w) by done.
      intros i oi Hi. rewrite settle_ops, settle_resources.
      intros [[-> ->]|[Hne Hoi]]%(lookup_insert_status _ _ _ _ _ _ Ho).
      * simpl. apply lookup_delete_eq.
      * rewrite lookup_delete_ne; [by apply (Hen i)|].
        intros E. apply Hne. by apply (Hinj i id oi o).
    + rewrite on_error_stale; [done|]. congruence.
    + rewrite on_error_stale; [done|]. congruence.
  - unfold on_progress. destruct (ops w !! id) as [o|]; [|done].
    destruct (op_status_of o); try done. by destruct (op_onProgress o).
Qed.

Lemma entries_follow_run acts w :
  wf w → drained w → paths_inj n0 (ops w) → entries_follow n0 w →
  Forall (is_callback_from n0) acts →
  entries_follow n0 (run acts w).
Proof.
  intros Hw Hd Hinj Hen Hacts. revert w Hw Hd Hinj Hen.
  induction Hacts as [|a acts Ha _ IH]; intros w Hw Hd Hinj Hen; [done|].
  simpl. destruct (wf_step w a (conj Hw Hd)) as [Hw' Hd'].
  apply IH; try done.
  - assert (Hfa : failed_absent n0 w).
    { intros i o e Hi Ho Hst. rewrite (Hen i o Hi Ho). unfold op_entry.
      by rewrite Hst. }
    by destruct (undisturbed_step n0 w a Hw Hinj Hfa Ha).
  - by apply entries_follow_step.
Qed.
End Settling.

(** X12: while only the loader calls back the operations of a batch, the
    cache entry of each of its paths follows the operation: the placeholder
    [null] while it is in flight, the result once it succeeded, no entry
    once it failed; so when the promise of [loadPending] is fulfilled,
    [get] answers the result of every load that succeeded. *)
Theorem batch_entries_follow (acts0 acts1 : list action)
    (config : LoadingConfig) :
  let w0 := run acts0 init in
  let w1 := snd (loadPending config w0) in
  let w2 := run acts1 w1 in
  Forall (is_callback_from (length (ops w0))) acts1 →
  (∀ id o, length (ops w0) ≤ id → ops w2 !! id = Some o →
     _resources w2 !! op_path o = op_entry o)
  ∧ (∀ id o result, length (ops w0) ≤ id → ops w2 !! id = Some o →
       op_status_of o = Succeeded result → get (op_path o) w2 = result).
Proof.
  intros w0 w1 w2 Hacts.
  destruct (loadPending_paths config w0) as (new & Hops & Hpaths).
  destruct (loadPending_spec config w0) as (new' & evs & c1 & Hops' & Hnew & _).
  rewrite Hops in Hops'. apply app_inv_head in Hops'. subst new'.
  fold w1 in Hops.
  assert (Hw1 : wf w1 ∧ drained w1).
  { change w1 with (step w0 (LoadPending config)). unfold w0.
    rewrite <- run_snoc. apply wf_reachable. }
  destruct Hw1 as [Hw1 Hd1].
  assert (Hen : entries_follow (length (ops w0)) w2).
  { apply entries_follow_run; try done.
    - intros i j oi oj Hi Hj. rewrite Hops.
      rewrite !lookup_app_r by done. intros Hoi Hoj Heq.
      assert (NoDup (map op_path new)) as Hnd
        by (rewrite Hpaths; apply new_paths_NoDup).
      assert (i - length (ops w0) = j - length (ops w0)); [|lia].
      apply (NoDup_lookup _ _ _ (op_path oi) Hnd).
      + by rewrite list_lookup_fmap, Hoi.
      + by rewrite list_lookup_fmap, Hoj, Heq.
    - intros i o Hi. rewrite Hops, lookup_app_r by done. intros Ho.
      apply list_elem_of_lookup_2 in Ho. rewrite Forall_forall in Hnew.
      destruct (Hnew o Ho) as (_ & Hf & _ & Hnone).
      unfold op_entry. rewrite (in_flight_status o Hf).
      assert (op_path o ∈ dom (_resources w1)) as Hin.
      { unfold w1. rewrite loadPending_dom, elem_of_union, elem_of_list_to_set.
        right. eapply (proj1 (new_paths_elem _ _ _)).
        rewrite <- Hpaths. apply list_elem_of_fmap. eauto. }
      apply elem_of_dom in Hin as [v Hv]. rewrite Hv.
      destruct (loadPending_new_null config w0 _ _ Hv) as [?| ->];
        [congruence|done]. }
  split; [done|].
  intros id o result Hid Ho Hst. unfold get. rewrite (Hen id o Hid Ho).
  unfold op_entry. by rewrite Hst.
Qed.

Lemma batch_entries_follow_witness :
  get "b.obj"
    (run [LoaderSuccess 1 (VObj 3); LoaderError 0 (VObj 4)]
       (snd (loadPending {| cfg_onProgress := None; cfg_onError := None |}
               (run [Preload 0 [RPath "a.obj"; RPath "b.obj"]] init))))
  = VObj 3.
Proof.
  refine (proj2 (batch_entries_follow
    [Preload 0 [RPath "a.obj"; RPath "b.obj"]]
    [LoaderSuccess 1 (VObj 3); LoaderError 0 (VObj 4)]
    {| cfg_onProgress := None; cfg_onError := None |} _)
    1 {| op_loader := 0; op_path := "b.obj"; op_onProgress := None;
         op_kont := KBatch 0 None; op_promise := 1;
         op_status_of := Succeeded (VObj 3) |} (VObj 3) _ eq_refl eq_refl).
  - repeat constructor.
  - vm_compute. lia.
Defined.

(** *** Progress events of the loader *)

Lemma step_same_op i o w a :
  ops w !! i = Some o →
  ∃ o', ops (step w a) !! i = Some o' ∧ same_op o o'.
Proof.
  intros Ho.
  assert (Hsame : ∀ l : list op, l !! i = Some o →
    ∀ id st oid, l !! id = Some oid →
    ∃ o', <[id := set_status st oid]> l !! i = Some o' ∧ same_op o o').
  { intros l Hl id st oid Hid. destruct (decide (i = id)) as [->|Hne].
    - rewrite list_lookup_insert_eq by eauto using lookup_lt_Some.
      assert (oid = o) as -> by congruence. by eexists.
    - rewrite list_lookup_insert_ne by done. by exists o. }
  destruct a; cbn [step]; try (by exists o).
  - exists o. split; [|done].
    by destruct (remove_tables ps w) as (_ & _ & -> & _).
  - exists o. split; [|done]. by destruct (getLoader_tables t w) as (-> & _).
  - exists o. split; [|done].
    destruct (load_ops t path onProgress onError w) as [new ->].
    by apply lookup_app_l_Some.
  - exists o. split; [|done].
    destruct (loadPending_spec config w) as (new & evs & c1 & Hops & _).
    rewrite Hops. by apply lookup_app_l_Some.
  - rewrite on_success_ops. destruct (ops w !! id) as [oid|] eqn:E;
      [|by exists o].
    destruct (in_flight oid); [by apply Hsame|by exists o].
  - rewrite on_error_ops. destruct (ops w !! id) as [oid|] eqn:E;
      [|by exists o].
    destruct (in_flight oid); [by apply Hsame|by exists o].
  - exists o. split; [|done]. unfold on_progress.
    destruct (ops w !! id) as [o'|]; [|done].
    destruct (op_status_of o'); try done. by destruct (op_onProgress o').
Qed.

Lemma run_same_op i o acts w :
  ops w !! i = Some o →
  ∃ o', ops (run acts w) !! i = Some o' ∧ same_op o o'.
Proof.
  revert w o. induction acts as [|a acts IH]; intros w o Ho; simpl.
  - by exists o.
  - destruct (step_same_op i o w a Ho) as (o1 & Ho1 & H1).
    destruct (IH _ _ Ho1) as (o2 & Ho2 & H2). exists o2. split; [done|].
    destruct H1 as (? & ? & ? & ? & ?), H2 as (? & ? & ? & ? & ?).
    repeat split; congruence.
Qed.

(** X13: [load] hands its [onProgress] argument to the loader as it is:
    while the load is in flight, a progress event of the loader calls it
    with that event and changes nothing else: the cache, the registry, the
    queue, the defaults, the loader instances, the operations, the promises
    and the closures of the batches are as they were. [_createPromise]
    gives the loader no progress callback: a progress event for an
    operation of a batch changes nothing at all, at any time. *)
Theorem loader_progress_passthrough (acts0 acts1 : list action)
    (t : LoaderType) (path : string) (onP onE : option callback)
    (config : LoadingConfig) (ev : value) :
  (let w0 := run acts0 init in
   let w1 := snd (load t path onP onE w0) in
   let id := length (ops w0) in
   let w2 := run acts1 w1 in
   let w3 := step w2 (LoaderProgress id ev) in
   _resources w0 !! path = None →
   Forall (not_callback_of id) acts1 →
   trace w3 = trace w2
              ++ match onP with Some cb => [EvLoaderProgress cb ev] | None => [] end
   ∧ _resources w3 = _resources w2 ∧ ops w3 = ops w2
   ∧ promises w3 = promises w2
   ∧ _loaders w3 = _loaders w2 ∧ _pending w3 = _pending w2
   ∧ _onProgress w3 = _onProgress w2 ∧ _onError w3 = _onError w2
   ∧ instances w3 = instances w2 ∧ batches w3 = batches w2)
  ∧ (let w0 := run acts0 init in
     let w1 := snd (loadPending config w0) in
     let w2 := run acts1 w1 in
     ∀ id, length (ops w0) ≤ id → id < length (ops w1) →
           step w2 (LoaderProgress id ev) = w2).
Proof.
  split.
  - intros w0 w1 id w2 w3 Hnone Hacts.
    destruct (load_in_flight_later acts0 acts1 t path onP onE Hnone Hacts)
      as (_ & _ & _ & _ & l & Ho2).
    fold w0 w1 id w2 in Ho2. subst w3. cbn [step]. unfold on_progress.
    rewrite Ho2. simpl. destruct onP; simpl; by rewrite ?app_nil_r.
  - intros w0 w1 w2 id Hge Hlt.
    destruct (loadPending_spec config w0) as (new & evs & c1 & Hops & Hnew & _).
    fold w1 in Hops.
    destruct (lookup_lt_is_Some_2 (ops w1) id Hlt) as [o1 Ho1].
    assert (op_onProgress o1 = None) as Hnop.
    { rewrite Hops, lookup_app_r in Ho1 by done.
      apply list_elem_of_lookup_2 in Ho1. rewrite Forall_forall in Hnew.
      by destruct (Hnew o1 Ho1) as (_ & _ & ? & _). }
    destruct (run_same_op id o1 acts1 w1 Ho1) as (o2 & Ho2 & _ & _ & HoP & _).
    fold w2 in Ho2. cbn [step]. unfold on_progress. rewrite Ho2.
    destruct (op_status_of o2); try done. by rewrite HoP, Hnop.
Qed.

Lemma loader_progress_passthrough_witness :
  trace (step (run [] (snd (load 0 "a.obj" (Some 6) None (run [] init))))
           (LoaderProgress 0 (VObj 50)))
  = [EvLoaderProgress 6 (VObj 50)].
Proof.
  refine (proj1 (proj1 (loader_progress_passthrough [] [] 0 "a.obj" (Some 6)
    None {| cfg_onProgress := None; cfg_onError := None |} (VObj 50)) _ _)).
  - reflexivity.
  - constructor.
Defined.

(** ** The loop of [loadPending], entry by entry *)

Lemma queued_paths_items q : queued_paths q = map item_path (queued_items q).
Proof.
  unfold queued_paths, queued_items.
  induction (rev q) as [|r rs IH]; simpl; [done|].
  by rewrite map_app, IH.
Qed.

Lemma elem_of_queued_items q r res :
  r ∈ q → res ∈ paths r → res ∈ queued_items q.
Proof.
  intros Hr Hres. unfold queued_items. apply list_elem_of_In, in_flat_map.
  exists r. split; apply list_elem_of_In; [by apply elem_of_rev|done].
Qed.

Lemma cached_calls_onload b m items :
  Forall (is_onload_of b) (cached_calls b m items).
Proof.
  revert m. induction items as [|res items IH]; intros m; simpl; [done|].
  destruct (m !! item_path res) as [v|]; [|apply IH].
  apply Forall_app. split; [|apply IH].
  destruct (item_onLoad res) as [cb|]; [|done].
  constructor; [|done]. by exists cb, v.
Qed.

(** One turn of the [for] loop. *)
Lemma load_item_calls b l w res :
  trace (_load_item b l w res)
  = trace w ++ cached_calls b (_resources w) [res]
  ∧ _resources (_load_item b l w res)
    = match _resources w !! item_path res with
      | Some _ => _resources w
      | None => <[item_path res := VNull]> (_resources w)
      end.
Proof.
  unfold _load_item. simpl.
  destruct (_resources w !! item_path res) as [v|] eqn:E.
  - destruct (item_onLoad res); simpl; by rewrite ?app_nil_r.
  - simpl. by rewrite app_nil_r.
Qed.

Lemma fold_items_calls b l items rest w :
  let w' := fold_left (_load_item b l) items w in
  trace w' = trace w ++ cached_calls b (_resources w) items
  ∧ cached_calls b (_resources w) (items ++ rest)
    = cached_calls b (_resources w) items
      ++ cached_calls b (_resources w') rest.
Proof.
  revert w. induction items as [|res items IH]; intros w;
    cbn [fold_left app cached_calls].
  - by rewrite app_nil_r.
  - destruct (load_item_calls b l w res) as [Htr Hres].
    destruct (IH (_load_item b l w res)) as [Htr' Happ].
    cbn [cached_calls] in Htr.
    destruct (_resources w !! item_path res) as [v|] eqn:E;
      rewrite Hres in Htr', Happ; rewrite Htr', Htr, ?Hres, ?Happ;
      by rewrite <- ?app_assoc, ?app_nil_r.
Qed.

Lemma fold_loads_calls b rs w :
  trace (fold_left (fun w r => _load b r w) rs w)
  = trace w ++ cached_calls b (_resources w) (flat_map paths rs).
Proof.
  revert w. induction rs as [|r rs IH]; intros w; simpl.
  - by rewrite app_nil_r.
  - rewrite IH. unfold _load.
    destruct (getLoader_tables (loader r) w) as (_ & _ & _ & Ht & Hr & _).
    destruct (getLoader (loader r) w) as [l wl]. cbn [snd] in Ht, Hr.
    destruct (fold_items_calls b l (paths r) (flat_map paths rs) wl)
      as [Htr Happ].
    rewrite Htr, Ht, <- Hr, Happ. by rewrite app_assoc.
Qed.

(** The calls made by a [loadPending] call, all of them. *)
Lemma loadPending_trace config w :
  let b := length (batches w) in
  let r := fst (loadPending config w) in
  let w1 := snd (loadPending config w) in
  trace w1
  = trace w ++ cached_calls b (_resources w) (queued_items (_pending w))
    ++ (if decide (length (ops w1) = length (ops w))
        then [EvSettled r (VArray [])] else []).
Proof.
  intros b r w1.
  set (c0 := {| b_onProgress := nullish_or (cfg_onProgress config) (_onProgress w);
                b_onError := nullish_or (cfg_onError config) (_onError w);
                b_promises := []; b_total := 0; b_progress := 0;
                b_all := None |}).
  set (wb := set_batches (batches w ++ [c0]) w).
  pose proof (drain_rel_drain b (length (_pending wb)) wb) as [new evs].
  assert (Hcalls : trace (drain (length (_pending wb)) b wb)
                   = trace wb ++ cached_calls b (_resources w)
                                   (queued_items (_pending w))).
  { rewrite drain_fold by done. cbn [trace set_pending].
    by rewrite fold_loads_calls. }
  set (wd := drain (length (_pending wb)) b wb) in *.
  rewrite dr_trace in Hcalls. apply app_inv_head in Hcalls. subst evs.
  destruct (dr_batch c0) as (c' & Hc' & _ & _ & _ & _ & _ & Hproms).
  { subst wb b. simpl. apply lookup_snoc_eq. }
  simpl in dr_ops, dr_trace, Hproms.
  set (wr := upd_batch b (set_all (length (promises wd)))
               (set_promises (promises wd ++ [Pending]) wd)).
  assert (Heq : loadPending config w = (length (promises wd), all_settle b wr))
    by reflexivity.
  subst r w1. rewrite Heq. cbn [fst snd]. clear Heq.
  set (r := length (promises wd)) in *.
  assert (Hbr : batches wr !! b = Some (set_all r c')).
  { subst wr. unfold upd_batch; simpl. by rewrite list_lookup_alter_eq, Hc'. }
  assert (Hpr : promises wr !! r = Some Pending) by apply lookup_snoc_eq.
  assert (Hful : forallb (is_fulfilled (promises wr)) (b_promises c')
                 = match new with [] => true | _ => false end).
  { rewrite Hproms. destruct new as [|o new]; [done|]. simpl.
    apply Forall_cons in dr_new_pending as [Ho _].
    unfold is_fulfilled. simpl.
    by rewrite (lookup_app_l_Some _ _ _ _ Ho). }
  destruct (all_settle_tables b wr) as (_ & _ & Eo & _).
  rewrite Eo.
  assert (Hs : all_settle b wr
    = match new with
      | [] => emit (EvSettled r (VArray []))
                (set_promises (<[r := Fulfilled (VArray [])]> (promises wr)) wr)
      | _ => wr
      end).
  { unfold all_settle. rewrite Hbr. cbn [set_all b_all b_promises].
    rewrite Hful.
    destruct new; [|done]. rewrite resolve_pending by done.
    simpl in Hproms. by rewrite Hproms. }
  rewrite Hs. subst wr. cbn [ops upd_batch set_batches set_promises].
  rewrite dr_ops, length_app.
  destruct new as [|o new]; simpl; rewrite dr_trace.
  - case_decide; [|lia]. by rewrite <- app_assoc.
  - case_decide; [lia|]. by rewrite app_nil_r.
Qed.

(** A queued path that is not a key holds the placeholder when
    [loadPending] returns. *)
Lemma loadPending_placeholder config w p :
  p ∈ queued_paths (_pending w) → _resources w !! p = None →
  _resources (snd (loadPending config w)) !! p = Some VNull.
Proof.
  intros Hp Hnone.
  assert (p ∈ dom (_resources (snd (loadPending config w)))) as Hin.
  { rewrite loadPending_dom, elem_of_union, elem_of_list_to_set. by right. }
  apply elem_of_dom in Hin as [v Hv]. rewrite Hv.
  destruct (loadPending_new_null config w p v Hv) as [?| ->]; [congruence|done].
Qed.

(** C8: a [loadPending] call goes through every request that is in the
    queue when it starts, last queued first, and through every entry of
    each request, once, and leaves the queue empty. For every request the
    loader of its type is registered. Every entry whose path is not a key
    when the loop gets to it starts one operation and leaves the
    placeholder; every other entry has its [onLoad], if any, called once
    with the value stored, and these are all the calls made, in this order.
    When the loop has created no operation ([total] is 0: an empty queue,
    or only cached paths) the promise returned is already fulfilled with
    the empty array; in no case is a progress or an error callback called
    before [loadPending] returns. *)
Theorem drain_processes_queue (config : LoadingConfig) (w : world) :
  let b := length (batches w) in
  let r := fst (loadPending config w) in
  let w1 := snd (loadPending config w) in
  let items := queued_items (_pending w) in
  let total := length (ops w1) - length (ops w) in
  _pending w1 = []
  ∧ (∀ q, q ∈ _pending w → is_Some (_loaders w1 !! loader q))
  ∧ (∀ q res, q ∈ _pending w → res ∈ paths q →
       _resources w1 !! item_path res
       = match _resources w !! item_path res with
         | Some v => Some v
         | None => Some VNull
         end)
  ∧ (∃ new, ops w1 = ops w ++ new
       ∧ map op_path new
         = new_paths (dom (_resources w)) (map item_path items)
       ∧ Forall (fun o => of_batch b o = true ∧ in_flight o = true) new)
  ∧ trace w1
    = trace w ++ cached_calls b (_resources w) items
      ++ (if decide (total = 0) then [EvSettled r (VArray [])] else [])
  ∧ Forall (fun e => is_user_call e = false)
           (cached_calls b (_resources w) items)
  ∧ promises w1 !! r
    = Some (if decide (total = 0) then Fulfilled (VArray []) else Pending)
  ∧ (∃ c, batches w1 !! b = Some c
          ∧ b_all c = Some r
          ∧ b_total c = total
          ∧ (b_total c = 0 →
             ops w1 = ops w
             ∧ promises w1 !! r = Some (Fulfilled (VArray []))
             ∧ ∃ evs, trace w1 = trace w ++ evs
                      ∧ Forall (fun e => is_user_call e = false) evs
                      ∧ settle_calls r evs = [VArray []]))
  ∧ (_pending w = [] →
     ops w1 = ops w ∧ _resources w1 = _resources w
     ∧ trace w1 = trace w ++ [EvSettled r (VArray [])]).
Proof.
  intros b r w1 items total.
  destruct (loadPending_spec config w)
    as (new & evs & c1 & Hops & Hnew & Hevs & Htr & Hpr & Hb & _ & _ & Hall
        & Htot & _ & _ & Hres & Hq).
  fold b r w1 in Hops, Hnew, Hevs, Htr, Hpr, Hb, Hall, Htot, Hres, Hq.
  assert (Htotal : total = length new).
  { subst total. rewrite Hops, length_app. lia. }
  split; [done|]. split; [|split; [|split; [|split; [|split; [|split;
    [|split]]]]]].
  - intros q Hin.
    assert (Hle : ∀ w', ∀ q, q ∈ _pending w' →
              is_Some (_loaders (snd (loadPending config w')) !! loader q)).
    { intros w'. unfold loadPending, promise_all, new_promise. cbn [snd].
      match goal with |- context [all_settle ?b ?x] =>
        destruct (all_settle_tables b x) as (El & _) end.
      rewrite El. cbn [_loaders upd_batch set_batches set_promises].
      match goal with |- context [drain ?n ?b ?x] =>
        change n with (length (_pending x));
        rewrite (drain_fold b (length (_pending x)) x) by done;
        destruct (fold_loads_loader b (rev (_pending x)) x)
          as (_ & Hreg & _)
      end.
      cbn [_loaders set_pending _pending set_batches] in *.
      intros q' Hq'. apply Hreg. by apply elem_of_rev. }
    by apply Hle.
  - intros q res Hin Hres'.
    destruct (_resources w !! item_path res) as [v|] eqn:E; [by apply Hres|].
    apply loadPending_placeholder; [|done].
    rewrite queued_paths_items. apply list_elem_of_fmap.
    exists res. split; [done|]. by eapply elem_of_queued_items.
  - destruct (loadPending_paths config w) as (new' & Hops' & Hpaths).
    fold w1 in Hops'. rewrite Hops in Hops'. apply app_inv_head in Hops'.
    subst new'. exists new. split; [done|].
    split; [by rewrite Hpaths, queued_paths_items|].
    eapply Forall_impl; [done|]. by intros o (? & ? & _).
  - pose proof (loadPending_trace config w) as Ht. fold b r w1 in Ht.
    rewrite Ht. do 2 f_equal. subst total.
    destruct (decide (length (ops w1) = length (ops w))) as [E|E].
    + by rewrite decide_True by lia.
    + rewrite decide_False; [done|]. rewrite Hops, length_app in *. lia.
  - eapply Forall_impl; [apply cached_calls_onload|].
    by intros e (cb & v & ->).
  - rewrite Hpr, Htotal. by destruct new.
  - exists c1. split; [done|]. split; [done|]. split; [congruence|].
    intros H0. rewrite Htot in H0. destruct new; [|done].
    split; [by rewrite Hops, app_nil_r|]. split; [done|].
    exists (evs ++ [EvSettled r (VArray [])]). repeat split; try done.
    + apply Forall_app. split; [|by constructor].
      eapply Forall_impl; [done|]. by intros e (cb & v & ->).
    + unfold settle_calls. rewrite omap_app. simpl. rewrite Nat.eqb_refl.
      assert (omap (fun e => match e with
          | EvSettled p' v => if p' =? r then Some v else None
          | _ => None end) evs = []) as ->; [|done].
      clear -Hevs. induction Hevs as [|e evs (cb & v & ->) _ IH]; [done|].
      by simpl.
  - intros Hq0. by destruct (loadPending_empty config w Hq0) as (? & ? & ? & _).
Qed.

Lemma drain_processes_queue_witness :
  let w := run [Add "c.obj" (VObj 9);
                Preload 0 [RPath "a.obj"; RConfig "c.obj" (Some 4)];
                Preload 1 [RPath "a.obj"; RConfig "a.obj" (Some 5)]] init in
  let w1 := snd (loadPending {| cfg_onProgress := Some 2; cfg_onError := None |}
                   w) in
  trace w1 = [EvOnLoad 0 5 VNull; EvOnLoad 0 4 (VObj 9)]
  ∧ is_Some (_loaders w1 !! 0)
  ∧ _resources w1 !! "a.obj" = Some VNull.
Proof.
  intros w w1.
  destruct (drain_processes_queue
              {| cfg_onProgress := Some 2; cfg_onError := None |} w)
    as (_ & H2 & H3 & _ & H5 & _).
  split; [exact H5|]. split.
  - apply (H2 {| loader := 0;
                 paths := [RPath "a.obj"; RConfig "c.obj" (Some 4)] |}).
    vm_compute. by left.
  - apply (H3 {| loader := 1;
                 paths := [RPath "a.obj"; RConfig "a.obj" (Some 5)] |}
              (RPath "a.obj")); vm_compute; [right|]; by left.
Defined.

(** ** A path that holds the placeholder *)

(** C7: in every state of an execution in which the entry of a path is the
    in-progress placeholder [null], a [load] of that path is fulfilled at
    once with the placeholder: it creates a new promise, resolves it with
    [null] before it returns, calls no loader and changes nothing else; it
    does not wait for a load in flight, whose promise, a different one,
    stays pending. The placeholder is what [load] writes for a path that is
    not a key and what [loadPending] writes for a queued path that is not a
    key, with an operation in flight for the path in both cases. *)
Theorem concurrent_load_sees_placeholder (acts : list action)
    (t' : LoaderType) (path : string) (onP' onE' : option callback) :
  let w := run acts init in
  let p2 := fst (load t' path onP' onE' w) in
  let w2 := snd (load t' path onP' onE' w) in
  (_resources w !! path = Some VNull →
     promises w !! p2 = None
     ∧ promises w2 !! p2 = Some (Fulfilled VNull)
     ∧ trace w2 = trace w ++ [EvSettled p2 VNull]
     ∧ ops w2 = ops w ∧ instances w2 = instances w
     ∧ _loaders w2 = _loaders w ∧ _resources w2 = _resources w
     ∧ _pending w2 = _pending w ∧ batches w2 = batches w
     ∧ promises w2 = promises w ++ [Fulfilled VNull]
     ∧ _onProgress w2 = _onProgress w ∧ _onError w2 = _onError w
     ∧ (∀ id o, ops w !! id = Some o → in_flight o = true →
          op_promise o ≠ p2
          ∧ promises w2 !! op_promise o = Some Pending))
  ∧ (∀ t onP onE, _resources w !! path = None →
       let w1 := snd (load t path onP onE w) in
       _resources w1 !! path = Some VNull
       ∧ ∃ o, ops w1 !! length (ops w) = Some o
              ∧ op_path o = path ∧ in_flight o = true
              ∧ op_kont o = KLoad onE)
  ∧ (∀ config, path ∈ queued_paths (_pending w) →
       _resources w !! path = None →
       let w1 := snd (loadPending config w) in
       _resources w1 !! path = Some VNull
       ∧ ∃ id o, ops w1 !! id = Some o
                 ∧ op_path o = path ∧ in_flight o = true
                 ∧ of_batch (length (batches w)) o = true).
Proof.
  intros w p2 w2. split; [|split].
  - intros Hnull. subst p2 w2.
    rewrite (load_cached t' path onP' onE' w VNull Hnull). cbn [fst snd].
    split; [by apply lookup_ge_None|]. split; [apply lookup_snoc_eq|].
    do 10 (split; [done|]).
    intros id o Ho Hf.
    assert (Hw : wf w) by apply wf_reachable.
    pose proof (in_flight_pending w id o Hw Ho Hf) as Hp.
    split.
    + apply lookup_lt_Some in Hp. lia.
    + simpl. by apply lookup_app_l_Some.
  - intros t onP onE Hnone w1.
    destruct (load_uncached t path onP onE w Hnone)
      as (l & w' & Hl & Hops & _ & Hres & _).
    subst w1. rewrite Hl. cbn [snd]. rewrite Hres, Hops.
    split; [apply lookup_insert_eq|].
    eexists. split; [apply lookup_snoc_eq|]. done.
  - intros config Hq Hnone w1.
    split; [by apply loadPending_placeholder|].
    destruct (loadPending_spec config w) as (new & evs & c1 & Hops & Hnew & _).
    destruct (loadPending_paths config w) as (new' & Hops' & Hpaths).
    rewrite Hops in Hops'. apply app_inv_head in Hops'. subst new'.
    assert (Hin : path ∈ map op_path new).
    { rewrite Hpaths. apply new_paths_elem. split; [done|].
      by apply not_elem_of_dom. }
    apply list_elem_of_fmap in Hin as (o & -> & Hin).
    rewrite Forall_forall in Hnew. destruct (Hnew o Hin) as (Hof & Hf & _).
    apply list_elem_of_lookup_1 in Hin as [i Hi].
    exists (length (ops w) + i), o. subst w1. rewrite Hops.
    split; [|done]. rewrite lookup_app_r by lia.
    by replace (length (ops w) + i - length (ops w)) with i by lia.
Qed.

Lemma concurrent_load_sees_placeholder_witness :
  let acts := [Preload 0 [RPath "a.obj"];
               LoadPending {| cfg_onProgress := None; cfg_onError := None |};
               Load 1 "b.obj" None None] in
  let w := run acts init in
  let p2 := fst (load 1 "a.obj" None None w) in
  let w2 := snd (load 1 "a.obj" None None w) in
  promises w2 !! p2 = Some (Fulfilled VNull)
  ∧ promises w2 !! 0 = Some Pending.
Proof.
  intros acts w p2 w2.
  destruct (concurrent_load_sees_placeholder acts 1 "a.obj" None None)
    as [H _].
  destruct (H eq_refl)
    as (_ & Hp2 & _ & _ & _ & _ & _ & _ & _ & _ & _ & _ & Hops).
  split; [exact Hp2|].
  exact (proj2 (Hops 0 {| op_loader := 0; op_path := "a.obj";
                          op_onProgress := None; op_kont := KBatch 0 None;
                          op_promise := 0; op_status_of := InFlight |}
                  eq_refl eq_refl)).
Defined.
